(** * Doc Scanner AI: photo clean-up and PDF assembly

    A shallow embedding of [src/App.tsx] (the React component that holds the
    session and drives the pipeline), of the Gemini service module
    ([cleanImage], [fileToBase64]) and of [src/types.ts], together with the
    properties of the specification that speak about them.

    Conventions of the embedding.
    - JavaScript strings are [string]; only concatenation, [endsWith],
      [split], truthiness and decimal printing of array indices are used.
    - React state is one [Session] record; a call of a [useState] setter is an
      [Action] that updates the record and is appended to the trace.
    - An [async] function is a tree of type [Async]: it runs synchronously up
      to its next [await] and is resumed by the event loop when the awaited
      browser or network operation delivers its outcome. The browser and the
      remote service are an [Env] of oracles; the order in which outcomes are
      delivered is a schedule.
    - A JavaScript number is a [Number]: NaN, an infinity, or the rational
      that a finite binary64 value denotes. Every arithmetic operation is the
      exact operation followed by the rounding of IEEE 754 (to nearest, ties
      to even, 53 bits, subnormals and overflow included), written out in
      [round]. [place_double] is the same layout computation on the
      primitive binary64 numbers of Rocq; [agree] compares the two.
    - A call into jsPDF or the browser that may throw is guarded by
      [library]: the environment says whether it throws, and what. *)

From Stdlib Require Import String Ascii List Arith ZArith QArith Lia Lqa Bool.
From Stdlib Require Import Qround Qabs Qpower.
From Stdlib Require Import DecimalString PrimFloat FloatOps SpecFloat.
From Stdlib Require Uint63.
Import ListNotations.
Close Scope Q_scope.
Open Scope list_scope.
Open Scope string_scope.

(* ================================================================== *)
(** ** JavaScript strings *)
(* ================================================================== *)

Module JsString.

(** The one-character string made of a double quote (code 34). *)
Definition dquote : string := String (ascii_of_nat 34) EmptyString.

(** Truthiness of a string: every string but the empty one. *)
Definition truthy (s : string) : bool :=
  match s with
  | EmptyString => false
  | String _ _ => true
  end.

(** Truthiness of a [string | null | undefined]. *)
Definition truthy_opt (o : option string) : bool :=
  match o with
  | Some s => truthy s
  | None => false
  end.

(** What a template literal prints for a possibly undefined string. *)
Definition interpolate (o : option string) : string :=
  match o with
  | Some s => s
  | None => "undefined"
  end.

(** [${n}] for a non-negative integer. *)
Definition of_nat (n : nat) : string :=
  NilEmpty.string_of_uint (Nat.to_uint n).

(** [s.endsWith(suffix)]. *)
Definition endsWith (s suffix : string) : bool :=
  let n := String.length s in
  let m := String.length suffix in
  if (m <=? n)%nat then String.eqb (substring (n - m) m s) suffix else false.

(** [s.split(sep)] for a non-empty separator. [skip] counts the characters
    of a separator that has just been recognised and is being stepped
    over; [cur] is the piece under construction. *)
Fixpoint split_go (sep : string) (skip : nat) (cur s : string) : list string :=
  match s with
  | EmptyString => [cur]
  | String c rest =>
      match skip with
      | S skip' => split_go sep skip' cur rest
      | O =>
          if prefix sep s
          then cur :: split_go sep (String.length sep - 1) EmptyString rest
          else split_go sep 0 (cur ++ String c EmptyString) rest
      end
  end.

Definition split (sep s : string) : list string :=
  split_go sep 0 EmptyString s.

End JsString.

(* ================================================================== *)
(** ** JavaScript numbers *)
(* ================================================================== *)

Module JsNumber.

(** A number: NaN, plus or minus infinity, or a finite value. The zero is
    the positive zero; a negative zero, which a product, a quotient or an
    underflow with a negative operand would give, is not represented. The
    layout computes on non-negative operands only. *)
Inductive Number :=
| NaN
| Infinity (negative : bool)
| Finite (q : Q).

(** The exponent [e] of the binade [2^e <= q < 2^(e+1)] of a positive
    rational. *)
Definition Qlog2 (q : Q) : Z :=
  let k := (Z.log2 (Qnum q) - Z.log2 (Zpos (Qden q)))%Z in
  if Qle_bool (2 ^ k) q then k else (k - 1)%Z.

(** The exponent of the unit in the last place of binary64: 53 significant
    bits, and not below the subnormal step [2^-1074]. *)
Definition ulp_exponent (q : Q) : Z := Z.max (Qlog2 q - 52) (-1074).

(** The integer nearest to [s], the even one of two that are equally
    near. *)
Definition nearest_even (s : Q) : Z :=
  let m := Qfloor s in
  match (s - inject_Z m ?= 1 # 2)%Q with
  | Lt => m
  | Gt => (m + 1)%Z
  | Eq => if Z.even m then m else (m + 1)%Z
  end.

Definition round_pos (q : Q) : Q :=
  let E := ulp_exponent q in
  Qred (inject_Z (nearest_even (q / 2 ^ E)) * 2 ^ E).

(** The binary64 value nearest to [q], overflow apart. *)
Definition round (q : Q) : Q :=
  match (0 ?= Qred q)%Q with
  | Lt => round_pos (Qred q)
  | Eq => 0%Q
  | Gt => Qred (- round_pos (Qred (- q)))
  end.

(** The result of an operation whose exact value is [q]. *)
Definition rounded (q : Q) : Number :=
  let v := round q in
  if Qle_bool (2 ^ 1024) (Qabs v) then Infinity (negb (Qle_bool 0 v)) else Finite v.

Definition Qneg (q : Q) : bool := negb (Qle_bool 0 q).
Definition Qzero (q : Q) : bool := Qeq_bool q 0.

(** [a / b] *)
Definition ndiv (a b : Number) : Number :=
  match a, b with
  | NaN, _ | _, NaN => NaN
  | Infinity _, Infinity _ => NaN
  | Infinity s, Finite y => Infinity (xorb s (Qneg y))
  | Finite _, Infinity _ => Finite 0
  | Finite x, Finite y =>
      if Qzero y then (if Qzero x then NaN else Infinity (Qneg x))
      else rounded (x / y)
  end.

(** [a * b] *)
Definition nmul (a b : Number) : Number :=
  match a, b with
  | NaN, _ | _, NaN => NaN
  | Infinity s, Infinity t => Infinity (xorb s t)
  | Infinity s, Finite y => if Qzero y then NaN else Infinity (xorb s (Qneg y))
  | Finite x, Infinity t => if Qzero x then NaN else Infinity (xorb (Qneg x) t)
  | Finite x, Finite y => rounded (x * y)
  end.

(** [a - b] *)
Definition nsub (a b : Number) : Number :=
  match a, b with
  | NaN, _ | _, NaN => NaN
  | Infinity s, Infinity t => if Bool.eqb s t then NaN else Infinity s
  | Infinity s, Finite _ => Infinity s
  | Finite _, Infinity t => Infinity (negb t)
  | Finite x, Finite y => rounded (x - y)
  end.

(** [a > b] *)
Definition ngt (a b : Number) : bool :=
  match a, b with
  | NaN, _ | _, NaN => false
  | Infinity s, Infinity t => negb s && t
  | Infinity s, Finite _ => negb s
  | Finite _, Infinity t => t
  | Finite x, Finite y => negb (Qle_bool x y)
  end.

(** An integer literal. *)
Definition num (z : Z) : Number := Finite (inject_Z z).

(** The number that an [unsigned long] attribute reads as. *)
Definition of_N (n : N) : Number := rounded (inject_Z (Z.of_N n)).

(** The value of a primitive binary64 number. *)
Definition of_float (f : float) : Number :=
  match Prim2SF f with
  | S754_nan => NaN
  | S754_infinity s => Infinity s
  | S754_zero _ => Finite 0
  | S754_finite s m e =>
      Finite (Qred ((if s then -1 else 1) * inject_Z (Zpos m) * 2 ^ e))
  end.

(** The primitive binary64 number of an integer below [2^63]. *)
Definition to_float (n : N) : float := PrimFloat.of_uint63 (Uint63.of_Z (Z.of_N n)).

Definition same_number (a b : Number) : bool :=
  match a, b with
  | NaN, NaN => true
  | Infinity s, Infinity t => Bool.eqb s t
  | Finite p, Finite q => Qeq_bool p q
  | _, _ => false
  end.

End JsNumber.

Import JsNumber.

(* ================================================================== *)
(** ** types.ts *)
(* ================================================================== *)

Inductive ProcessingState := IDLE | PROCESSING | COMPLETE | ERROR.

(** A browser [File]. Its bytes are only ever seen through a [FileReader],
    which belongs to the environment. *)
Record File := { name : string }.

Record ImageFile := {
  id : string;
  file : File;
  originalUrl : string;
  cleanedUrl : option string
}.

(** [{ ...imageFile, cleanedUrl }] *)
Definition with_cleanedUrl (imageFile : ImageFile) (u : option string) : ImageFile :=
  {| id := id imageFile;
     file := file imageFile;
     originalUrl := originalUrl imageFile;
     cleanedUrl := u |}.

(* ================================================================== *)
(** ** The values exchanged with the collaborators *)
(* ================================================================== *)

(** A thrown or rejected value: either an [Error] carrying a message, or any
    other value (for instance the [ProgressEvent] of [reader.onerror]),
    which is all that [error instanceof Error] distinguishes. *)
Inductive Thrown :=
| ErrorObj (message : string)
| NonError.

(** The response of [ai.models.generateContent], restricted to the fields
    that [cleanImage] reads. Every field is optional in the SDK. A safety
    rating is kept as the JSON text of its object. *)
Record SafetyRating := { json : string }.

Record InlineData := {
  mimeType : option string;
  data : option string
}.

Record Part := {
  inlineData : option InlineData;
  text : option string
}.

Record Content := { parts : option (list Part) }.

Record Candidate := {
  finishReason : option string;
  safetyRatings : option (list SafetyRating);
  content : option Content
}.

Record GenerateContentResponse := { candidates : option (list Candidate) }.

(** [JSON.stringify] of an array of objects whose JSON texts are known. *)
Definition JSON_stringify (l : list SafetyRating) : string :=
  "[" ++ String.concat "," (map json l) ++ "]".

(** What the [FileReader] reports: [onload] with [reader.result], or
    [onerror]. *)
Inductive ReadOutcome :=
| onload (result : string)
| onerror.

(* ================================================================== *)
(** ** The output document (jsPDF) and the page geometry *)
(* ================================================================== *)

(** One image drawn by [doc.addImage(imgData, format, x, y, w, h)]. *)
Record Placed := {
  p_data : string;
  p_format : string;
  p_x : Number;
  p_y : Number;
  p_w : Number;
  p_h : Number
}.

Definition Page := list Placed.

(** A jsPDF document: its pages in order; the current page is the last one.
    [new jsPDF(...)] creates a document that already has one blank page,
    [addPage] appends a blank page and makes it current, [addImage] draws on
    the current page. *)
Definition PdfDoc := list Page.

Definition jsPDF_new : PdfDoc := [ [] ].

Definition addPage (d : PdfDoc) : PdfDoc := (d ++ [ [] ])%list.

Fixpoint addImage (im : Placed) (d : PdfDoc) : PdfDoc :=
  match d with
  | [] => []
  | [pg] => [(pg ++ [im])%list]
  | pg :: d' => pg :: addImage im d'
  end.

(* ================================================================== *)
(** ** Session state and the effects of the component *)
(* ================================================================== *)

(** The [useState] cells of [App]. *)
Record Session := {
  imageFiles : list ImageFile;
  processingState : ProcessingState;
  pdfFilename : string;
  pdfUrl : option string;
  progressMessage : string;
  errorMessage : string;
  showPdfPreview : bool
}.

(** The first render. *)
Definition initial_session : Session :=
  {| imageFiles := [];
     processingState := IDLE;
     pdfFilename := "scanned-documents";
     pdfUrl := None;
     progressMessage := EmptyString;
     errorMessage := EmptyString;
     showPdfPreview := false |}.

(** Everything the code does to the world besides waiting. The two
    [cleanImage_*] actions mark the boundaries of a call of [cleanImage]:
    its invocation and the settling of the promise it returned. *)
Inductive Action :=
| setImageFiles (l : list ImageFile)
| setProcessingState (p : ProcessingState)
| setPdfUrl (u : option string)
| setProgressMessage (m : string)
| setErrorMessage (m : string)
| setShowPdfPreview (b : bool)
| revokeObjectURL (u : string)
| console_error
| new_jsPDF
| doc_addPage
| doc_addImage (im : Placed)
| cleanImage_called (f : File)
| cleanImage_settled (f : File) (r : Thrown + string).

(** The mutable state: the session and the [doc] object of the running
    assembly, if it has been created. *)
Record Store := {
  session : Session;
  doc : option PdfDoc
}.

Definition update_session (f : Session -> Session) (st : Store) : Store :=
  {| session := f (session st); doc := doc st |}.

Definition update_doc (f : PdfDoc -> PdfDoc) (st : Store) : Store :=
  {| session := session st; doc := option_map f (doc st) |}.

Definition apply_action (a : Action) (st : Store) : Store :=
  match a with
  | setImageFiles l =>
      update_session (fun s =>
        {| imageFiles := l;
           processingState := processingState s;
           pdfFilename := pdfFilename s;
           pdfUrl := pdfUrl s;
           progressMessage := progressMessage s;
           errorMessage := errorMessage s;
           showPdfPreview := showPdfPreview s |}) st
  | setProcessingState p =>
      update_session (fun s =>
        {| imageFiles := imageFiles s;
           processingState := p;
           pdfFilename := pdfFilename s;
           pdfUrl := pdfUrl s;
           progressMessage := progressMessage s;
           errorMessage := errorMessage s;
           showPdfPreview := showPdfPreview s |}) st
  | setPdfUrl u =>
      update_session (fun s =>
        {| imageFiles := imageFiles s;
           processingState := processingState s;
           pdfFilename := pdfFilename s;
           pdfUrl := u;
           progressMessage := progressMessage s;
           errorMessage := errorMessage s;
           showPdfPreview := showPdfPreview s |}) st
  | setProgressMessage m =>
      update_session (fun s =>
        {| imageFiles := imageFiles s;
           processingState := processingState s;
           pdfFilename := pdfFilename s;
           pdfUrl := pdfUrl s;
           progressMessage := m;
           errorMessage := errorMessage s;
           showPdfPreview := showPdfPreview s |}) st
  | setErrorMessage m =>
      update_session (fun s =>
        {| imageFiles := imageFiles s;
           processingState := processingState s;
           pdfFilename := pdfFilename s;
           pdfUrl := pdfUrl s;
           progressMessage := progressMessage s;
           errorMessage := m;
           showPdfPreview := showPdfPreview s |}) st
  | setShowPdfPreview b =>
      update_session (fun s =>
        {| imageFiles := imageFiles s;
           processingState := processingState s;
           pdfFilename := pdfFilename s;
           pdfUrl := pdfUrl s;
           progressMessage := progressMessage s;
           errorMessage := errorMessage s;
           showPdfPreview := b |}) st
  | new_jsPDF => {| session := session st; doc := Some jsPDF_new |}
  | doc_addPage => update_doc addPage st
  | doc_addImage im => update_doc (addImage im) st
  | revokeObjectURL _ | console_error
  | cleanImage_called _ | cleanImage_settled _ _ => st
  end.

(* ================================================================== *)
(** ** Asynchronous functions and the event loop *)
(* ================================================================== *)

(** Who is running: the body of [handleProcessImages], or the callback that
    [imageFiles.map] started for the element at [index]. *)
Inductive Actor :=
| MainTask
| MapCallback (index : nat).

(** Operations whose outcome is awaited: the running function is suspended
    and the event loop resumes it with the outcome. *)
Inductive Request : Type -> Type :=
| readAsDataURL (f : File) : Request ReadOutcome
| generateContent (mime b64 : string) : Request (Thrown + GenerateContentResponse)
| image_onload (src : string) : Request (N * N).

(** The calls of [handleProcessImages] into jsPDF and the browser that may
    throw instead of returning: the lookup of the constructor in
    [window.jspdf], the constructor, and the methods called on the document
    and on [URL], with the loop index and the arguments they are given. *)
Inductive LibCall :=
| window_jspdf
| jsPDF_constructor
| addPage_call (i : nat)
| addImage_call (i : nat) (im : Placed)
| output_call
| createObjectURL_call (blob : PdfDoc).

(** Synchronous calls that return a value. [attempt c] asks whether the
    library call [c] throws. *)
Inductive SysCall : Type -> Type :=
| doc_output : SysCall PdfDoc
| createObjectURL (blob : PdfDoc) : SysCall string
| attempt (c : LibCall) : SysCall (option Thrown).

(** The environment: what the file reader, the remote model and the image
    decoder answer to each actor (the decoder gives [img.width] and
    [img.height], which are [unsigned long]), the URL the browser mints for
    a blob, and the value a library call throws, if it throws. *)
Record Env := {
  reader_outcome : Actor -> File -> ReadOutcome;
  model_outcome : Actor -> string -> string -> Thrown + GenerateContentResponse;
  image_size : Actor -> string -> N * N;
  blob_url : PdfDoc -> string;
  library_fault : LibCall -> option Thrown
}.

Definition answer (env : Env) (who : Actor) {R} (req : Request R) : R :=
  match req with
  | readAsDataURL f => reader_outcome env who f
  | generateContent mime b64 => model_outcome env who mime b64
  | image_onload src => image_size env who src
  end.

Definition answer_call (env : Env) (st : Store) {R} (c : SysCall R) : R :=
  match c with
  | doc_output => match doc st with Some d => d | None => [] end
  | createObjectURL blob => blob_url env blob
  | attempt c => library_fault env c
  end.

(** An asynchronous function body. [C] is the type of the promises it can
    hand to [Promise.all] and [B] the type of their values. *)
Inductive Async (C B A : Type) : Type :=
| Return (a : A)
| Throw (e : Thrown)
| Do (act : Action) (k : Async C B A)
| Call {R : Type} (c : SysCall R) (k : R -> Async C B A)
| Await {R : Type} (req : Request R) (k : R -> Async C B A)
| All (cs : list C) (k : list B -> Async C B A) (kerr : Thrown -> Async C B A).

Arguments Return {C B A} a.
Arguments Throw {C B A} e.
Arguments Do {C B A} act k.
Arguments Call {C B A R} c k.
Arguments Await {C B A R} req k.
Arguments All {C B A} cs k kerr.

(** A function that awaits browser operations only. *)
Definition Job (A : Type) : Type := Async Empty_set Empty_set A.

(** A function that may also await [Promise.all] over jobs producing
    image files. *)
Definition Proc (A : Type) : Type := Async (Job ImageFile) ImageFile A.

Fixpoint bind {C B A A'} (p : Async C B A) (f : A -> Async C B A') : Async C B A' :=
  match p with
  | Return a => f a
  | Throw e => Throw e
  | Do act k => Do act (bind k f)
  | Call c k => Call c (fun r => bind (k r) f)
  | Await req k => Await req (fun r => bind (k r) f)
  | All cs k kerr => All cs (fun vs => bind (k vs) f) (fun e => bind (kerr e) f)
  end.

(** [try { p } catch (error) { h error }] *)
Fixpoint try_catch {C B A} (p : Async C B A) (h : Thrown -> Async C B A) : Async C B A :=
  match p with
  | Return a => Return a
  | Throw e => h e
  | Do act k => Do act (try_catch k h)
  | Call c k => Call c (fun r => try_catch (k r) h)
  | Await req k => Await req (fun r => try_catch (k r) h)
  | All cs k kerr => All cs (fun vs => try_catch (k vs) h) (fun e => try_catch (kerr e) h)
  end.

(** Record how the promise of [p] settles. *)
Fixpoint on_settle {C B A} (p : Async C B A) (log : Thrown + A -> Action) : Async C B A :=
  match p with
  | Return a => Do (log (inr a)) (Return a)
  | Throw e => Do (log (inl e)) (Throw e)
  | Do act k => Do act (on_settle k log)
  | Call c k => Call c (fun r => on_settle (k r) log)
  | Await req k => Await req (fun r => on_settle (k r) log)
  | All cs k kerr => All cs (fun vs => on_settle (k vs) log) (fun e => on_settle (kerr e) log)
  end.

Declare Scope async_scope.
Delimit Scope async_scope with async.
Notation "x <- p ;; q" := (bind p (fun x => q))
  (at level 61, p at next level, right associativity) : async_scope.
Notation "' pat <- p ;; q" := (bind p (fun x => match x with pat => q end))
  (at level 61, pat pattern, p at next level, right associativity) : async_scope.
Notation "a ;; q" := (Do a q)
  (at level 61, right associativity) : async_scope.
Open Scope async_scope.

(** [await Promise.all(cs)] *)
Definition await_all {A} (cs : list (Job A)) : Async (Job A) A (list A) :=
  All cs Return Throw.

(** A library call that may throw: if it does, the exception is thrown at
    this point; otherwise the function goes on with [k], which holds the
    effect of the call. *)
Definition library {C B A} (c : LibCall) (k : Async C B A) : Async C B A :=
  Call (attempt c) (fun fault =>
    match fault with
    | Some e => Throw e
    | None => k
    end).

(** A promise of a job: settled, or suspended on a request with the rest of
    the body. *)
Inductive Task (A : Type) : Type :=
| Settled (r : Thrown + A)
| Suspended {R : Type} (req : Request R) (k : R -> Job A).

Arguments Settled {A} r.
Arguments Suspended {A R} req k.

Definition Trace := list (Actor * Action).

(** Run a job until it settles or reaches an [await]. *)
Fixpoint run_job {A} (env : Env) (who : Actor) (p : Job A) (st : Store)
  : Store * Trace * Task A :=
  match p with
  | Return a => (st, [], Settled (inr a))
  | Throw e => (st, [], Settled (inl e))
  | Do act k =>
      let '(st', tr, t) := run_job env who k (apply_action act st) in
      (st', (who, act) :: tr, t)
  | Call c k => run_job env who (k (answer_call env st c)) st
  | Await req k => (st, [], Suspended req k)
  | All cs k _ =>
      match cs with
      | [] => run_job env who (k []) st
      | c :: _ => match c with end
      end
  end.

(** [array.map(async ...)]: every callback is started in order and runs up
    to its first [await] before the next one starts. *)
Fixpoint spawn {A} (env : Env) (index : nat) (cs : list (Job A)) (st : Store)
  : Store * Trace * list (Task A) :=
  match cs with
  | [] => (st, [], [])
  | c :: cs' =>
      let '(st1, tr1, t) := run_job env (MapCallback index) c st in
      let '(st2, tr2, ts) := spawn env (S index) cs' st1 in
      (st2, (tr1 ++ tr2)%list, t :: ts)
  end.

(** The state of [Promise.all] over a batch of promises. *)
Inductive Joined (A : Type) : Type :=
| JoinRejected (e : Thrown)
| JoinFulfilled (vs : list A)
| JoinPending.

Arguments JoinRejected {A} e.
Arguments JoinFulfilled {A} vs.
Arguments JoinPending {A}.

Fixpoint first_rejected {A} (ts : list (Task A)) : option Thrown :=
  match ts with
  | [] => None
  | Settled (inl e) :: _ => Some e
  | _ :: ts' => first_rejected ts'
  end.

Fixpoint all_fulfilled {A} (ts : list (Task A)) : option (list A) :=
  match ts with
  | [] => Some []
  | Settled (inr v) :: ts' => option_map (cons v) (all_fulfilled ts')
  | _ :: _ => None
  end.

Definition join {A} (ts : list (Task A)) : Joined A :=
  match first_rejected ts with
  | Some e => JoinRejected e
  | None =>
      match all_fulfilled ts with
      | Some vs => JoinFulfilled vs
      | None => JoinPending
      end
  end.

(** Where the body of the main function stands. *)
Inductive MainState : Type :=
| MainDone (r : Thrown + unit)
| MainBlocked {R : Type} (req : Request R) (k : R -> Proc unit)
| MainJoining (from : nat) (k : list ImageFile -> Proc unit) (kerr : Thrown -> Proc unit).

Record World := {
  store : Store;
  trace : Trace;
  promises : list (Task ImageFile);
  main : MainState
}.

(** Run the main function until it returns or has to wait. A [Promise.all]
    over promises that have all settled already continues at once. *)
Fixpoint run_main (env : Env) (p : Proc unit) (st : Store) (tr : Trace)
  (ps : list (Task ImageFile)) : World :=
  match p with
  | Return a => {| store := st; trace := tr; promises := ps; main := MainDone (inr a) |}
  | Throw e => {| store := st; trace := tr; promises := ps; main := MainDone (inl e) |}
  | Do act k => run_main env k (apply_action act st) (tr ++ [(MainTask, act)])%list ps
  | Call c k => run_main env (k (answer_call env st c)) st tr ps
  | Await req k => {| store := st; trace := tr; promises := ps; main := MainBlocked req k |}
  | All cs k kerr =>
      let '(st', tr', started) := spawn env (length ps) cs st in
      match join started with
      | JoinRejected e => run_main env (kerr e) st' (tr ++ tr')%list (ps ++ started)%list
      | JoinFulfilled vs => run_main env (k vs) st' (tr ++ tr')%list (ps ++ started)%list
      | JoinPending =>
          {| store := st'; trace := (tr ++ tr')%list; promises := (ps ++ started)%list;
             main := MainJoining (length ps) k kerr |}
      end
  end.

(** Replace the element at position [i]. *)
Fixpoint replace_nth {A} (i : nat) (x : A) (l : list A) : list A :=
  match l, i with
  | [], _ => []
  | _ :: l', O => x :: l'
  | y :: l', S i' => y :: replace_nth i' x l'
  end.

(** One turn of the event loop: the outcome awaited by one suspended
    function is delivered and the function runs on. *)
Inductive Tick :=
| TChild (index : nat)
| TMain.

Definition step (env : Env) (w : World) (tk : Tick) : World :=
  match tk with
  | TChild i =>
      match nth_error (promises w) i with
      | Some (Suspended req k) =>
          let '(st', tr', t) :=
            run_job env (MapCallback i) (k (answer env (MapCallback i) req)) (store w) in
          let ps' := replace_nth i t (promises w) in
          let waiting :=
            {| store := st'; trace := (trace w ++ tr')%list; promises := ps'; main := main w |} in
          match main w with
          | MainJoining from k kerr =>
              if (from <=? i)%nat then
                match t with
                | Settled (inl e) => run_main env (kerr e) st' (trace w ++ tr')%list ps'
                | Settled (inr _) =>
                    match all_fulfilled (skipn from ps') with
                    | Some vs => run_main env (k vs) st' (trace w ++ tr')%list ps'
                    | None => waiting
                    end
                | Suspended _ _ => waiting
                end
              else waiting
          | _ => waiting
          end
      | _ => w
      end
  | TMain =>
      match main w with
      | MainBlocked req k =>
          run_main env (k (answer env MainTask req)) (store w) (trace w) (promises w)
      | _ => w
      end
  end.

(** The event loop along a schedule. *)
Definition run (env : Env) (w : World) (sched : list Tick) : World :=
  fold_left (step env) sched w.

(* ================================================================== *)
(** ** services/geminiService: [fileToBase64] and [cleanImage] *)
(* ================================================================== *)

Import JsString.

(** The body of [reader.onload]: split the data URL into mime type and
    base64 payload. *)
Definition parse_data_url (result : string) : Thrown + string * string :=
  let pieces := split ";base64," result in
  let mimeTypePart := nth 0 pieces EmptyString in
  let data := nth_error pieces 1 in
  let mimeType := nth_error (split ":" mimeTypePart) 1 in
  match mimeType, data with
  | Some m, Some d =>
      if truthy m && truthy d then inr (m, d)
      else inl (ErrorObj "Failed to parse base64 string from file.")
  | _, _ => inl (ErrorObj "Failed to parse base64 string from file.")
  end.

Definition fileToBase64 (f : File) : Job (string * string) :=
  Await (readAsDataURL f) (fun outcome =>
    match outcome with
    | onload result =>
        match parse_data_url result with
        | inr md => Return md
        | inl e => Throw e
        end
    | onerror => Throw NonError
    end).

(** [part => part.inlineData] and [part => part.text] as predicates. *)
Definition has_inlineData (p : Part) : bool :=
  match inlineData p with Some _ => true | None => false end.

Definition has_text (p : Part) : bool := truthy_opt (text p).

(** [response.candidates?.[0]] *)
Definition first_candidate (response : GenerateContentResponse) : option Candidate :=
  match candidates response with
  | Some (c :: _) => Some c
  | _ => None
  end.

(** [candidate.content?.parts?.find(pred)] *)
Definition find_part (pred : Part -> bool) (candidate : Candidate) : option Part :=
  match content candidate with
  | Some c =>
      match parts c with
      | Some ps => find pred ps
      | None => None
      end
  | None => None
  end.

(** The message built when generation stopped for another reason than
    [STOP]. *)
Definition stop_reason (fr : string) (ratings : option (list SafetyRating)) : string :=
  let reason := "Image generation stopped. Reason: " ++ fr ++ "." in
  match ratings with
  | Some (r :: rs) => reason ++ " Safety Ratings: " ++ JSON_stringify (r :: rs)
  | _ => reason
  end.

(** [candidate.finishReason && candidate.finishReason !== 'STOP']: the
    reason, when the test succeeds. *)
Definition abnormal_finish (candidate : Candidate) : option string :=
  match finishReason candidate with
  | Some fr => if truthy fr && negb (String.eqb fr "STOP") then Some fr else None
  | None => None
  end.

Definition no_candidates_message : string :=
  "API response did not contain any candidates.".

Definition text_instead_message (t : string) : string :=
  "API returned text instead of an image: " ++ dquote ++ t ++ dquote.

Definition malformed_message : string :=
  "API did not return an image. The response was empty or malformed.".

(** What [cleanImage] makes of a response: the data URI of the cleaned
    image, or the error it throws inside its [try] block. *)
Definition read_response (response : GenerateContentResponse) : Thrown + string :=
  match first_candidate response with
  | None => inl (ErrorObj no_candidates_message)
  | Some candidate =>
      match abnormal_finish candidate with
      | Some fr => inl (ErrorObj (stop_reason fr (safetyRatings candidate)))
      | None =>
          match find_part has_inlineData candidate with
          | Some {| inlineData := Some d |} =>
              inr ("data:" ++ interpolate (mimeType d) ++ ";base64," ++ interpolate (data d))
          | _ =>
              match find_part has_text candidate with
              | Some {| text := Some t |} =>
                  if truthy t
                  then inl (ErrorObj (text_instead_message t))
                  else inl (ErrorObj malformed_message)
              | _ => inl (ErrorObj malformed_message)
              end
          end
      end
  end.

(** The [try] block of [cleanImage]. *)
Definition cleanImage_try (f : File) : Job string :=
  ' (mimeType, base64Data) <- fileToBase64 f ;;
  Await (generateContent mimeType base64Data) (fun outcome =>
    match outcome with
    | inl e => Throw e
    | inr response =>
        match read_response response with
        | inr uri => Return uri
        | inl e => Throw e
        end
    end).

(** The [catch] block of [cleanImage]. *)
Definition cleanImage_catch (error : Thrown) : Job string :=
  console_error ;;
  match error with
  | ErrorObj message => Throw (ErrorObj ("Failed to process image with AI. " ++ message))
  | NonError => Throw (ErrorObj "Failed to process image with AI. An unknown error occurred.")
  end.

Definition cleanImage (f : File) : Job string :=
  cleanImage_called f ;;
  on_settle (try_catch (cleanImage_try f) cleanImage_catch) (cleanImage_settled f).

(* ================================================================== *)
(** ** App.tsx *)
(* ================================================================== *)

(** [l.forEach(x => act x)], then [k]. *)
Definition forEach {C B A X} (l : list X) (act : X -> Action) (k : Async C B A)
  : Async C B A :=
  fold_right (fun x k' => act x ;; k') k l.

(** [if (u) act u], then [k]. *)
Definition when_truthy {C B A} (u : option string) (act : string -> Action)
  (k : Async C B A) : Async C B A :=
  match u with
  | Some v => if truthy v then act v ;; k else k
  | None => k
  end.

(** [startOver] *)
Definition startOver (s : Session) : Proc unit :=
  forEach (imageFiles s) (fun img => revokeObjectURL (originalUrl img))
  (when_truthy (pdfUrl s) revokeObjectURL
  (setImageFiles [] ;;
   setProcessingState IDLE ;;
   setPdfUrl None ;;
   setProgressMessage EmptyString ;;
   setErrorMessage EmptyString ;;
   setShowPdfPreview false ;;
   Return tt)).

(** The geometry constants of [handleProcessImages]. *)
Definition A4_WIDTH : Number := num 210.
Definition A4_HEIGHT : Number := num 297.
Definition MARGIN : Number := num 10.
Definition pageWidth : Number := nsub A4_WIDTH (nmul MARGIN (num 2)).
Definition pageHeight : Number := nsub A4_HEIGHT (nmul MARGIN (num 2)).

(** Position and size of an image of [img.width] by [img.height] pixels. *)
Definition place (imgData : string) (imgWidth imgHeight : N) : Placed :=
  let ratio := ndiv (of_N imgWidth) (of_N imgHeight) in
  let finalWidth := pageWidth in
  let finalHeight := ndiv finalWidth ratio in
  let '(finalWidth, finalHeight) :=
    if ngt finalHeight pageHeight
    then (nmul pageHeight ratio, pageHeight)
    else (finalWidth, finalHeight) in
  let x := ndiv (nsub A4_WIDTH finalWidth) (num 2) in
  let y := ndiv (nsub A4_HEIGHT finalHeight) (num 2) in
  {| p_data := imgData; p_format := "JPEG";
     p_x := x; p_y := y; p_w := finalWidth; p_h := finalHeight |}.

(** The same computation on the primitive binary64 numbers:
    [(x, y, width, height)]. *)
Definition place_double (imgWidth imgHeight : float) : float * float * float * float :=
  let A4_WIDTH := 210%float in
  let A4_HEIGHT := 297%float in
  let MARGIN := 10%float in
  let pageWidth := (A4_WIDTH - MARGIN * 2)%float in
  let pageHeight := (A4_HEIGHT - MARGIN * 2)%float in
  let ratio := (imgWidth / imgHeight)%float in
  let finalWidth := pageWidth in
  let finalHeight := (finalWidth / ratio)%float in
  let '(finalWidth, finalHeight) :=
    if (pageHeight <? finalHeight)%float
    then ((pageHeight * ratio)%float, pageHeight)
    else (finalWidth, finalHeight) in
  let x := ((A4_WIDTH - finalWidth) / 2)%float in
  let y := ((A4_HEIGHT - finalHeight) / 2)%float in
  (x, y, finalWidth, finalHeight).

(** [place] and [place_double] give the same rectangle for a size. *)
Definition agree (imgWidth imgHeight : N) : bool :=
  let p := place EmptyString imgWidth imgHeight in
  let '(x, y, w, h) := place_double (to_float imgWidth) (to_float imgHeight) in
  same_number (p_x p) (of_float x) && same_number (p_y p) (of_float y)
  && same_number (p_w p) (of_float w) && same_number (p_h p) (of_float h).

(** The layout loop, from index [i] on. *)
Fixpoint layout_from {A} (i : nat) (cleanedImages : list ImageFile) (rest : Proc A)
  : Proc A :=
  match cleanedImages with
  | [] => rest
  | im :: more =>
      match cleanedUrl im with
      | Some imgData =>
          if truthy imgData then
            (if (0 <? i)%nat
             then fun k => library (addPage_call i) (Do doc_addPage k)
             else fun k => k)
              (Await (image_onload imgData) (fun '(imgWidth, imgHeight) =>
                 library (addImage_call i (place imgData imgWidth imgHeight))
                   (doc_addImage (place imgData imgWidth imgHeight) ;;
                    layout_from (S i) more rest)))
          else layout_from (S i) more rest
      | None => layout_from (S i) more rest
      end
  end.

(** The progress text of the clean-up of the element at [index]. *)
Definition cleaning_message (index n : nat) : string :=
  "Cleaning image " ++ of_nat (index + 1) ++ " of " ++ of_nat n ++ "...".

(** The callback given to [imageFiles.map]. *)
Definition clean_callback (n : nat) (imageFile : ImageFile) (index : nat) : Job ImageFile :=
  setProgressMessage (cleaning_message index n) ;;
  cleanedUrl <- cleanImage (file imageFile) ;;
  Return (with_cleanedUrl imageFile (Some cleanedUrl)).

(** [array.map((x, index) => f x index)] *)
Fixpoint map_indexed {A B} (f : A -> nat -> B) (index : nat) (l : list A) : list B :=
  match l with
  | [] => []
  | x :: l' => f x index :: map_indexed f (S index) l'
  end.

(** The message shown for a caught error. *)
Definition caught_message (error : Thrown) : string :=
  match error with
  | ErrorObj message => message
  | NonError => "An unknown error occurred."
  end.

Definition handleProcessImages (s : Session) : Proc unit :=
  if (length (imageFiles s) =? 0)%nat then
    setErrorMessage "Please upload at least one image." ;;
    Return tt
  else
    setProcessingState PROCESSING ;;
    setErrorMessage EmptyString ;;
    try_catch
      (cleanedImages <-
         await_all (map_indexed (clean_callback (length (imageFiles s))) 0 (imageFiles s)) ;;
       setImageFiles cleanedImages ;;
       setProgressMessage "Generating PDF..." ;;
       library window_jspdf
         (library jsPDF_constructor
            (new_jsPDF ;;
             layout_from 0 cleanedImages
               (library output_call
                  (Call doc_output (fun pdfBlob =>
                   library (createObjectURL_call pdfBlob)
                     (Call (createObjectURL pdfBlob) (fun url =>
                      setPdfUrl (Some url) ;;
                      setProcessingState COMPLETE ;;
                      setProgressMessage "Your PDF is ready!" ;;
                      setShowPdfPreview true ;;
                      Return tt))))))))
      (fun error =>
         console_error ;;
         setErrorMessage (caught_message error) ;;
         setProcessingState ERROR ;;
         Return tt).

(** [finalPdfFilename] *)
Definition finalPdfFilename (pdfFilename : string) : string :=
  if endsWith pdfFilename ".pdf" then pdfFilename else pdfFilename ++ ".pdf".

(** A click on the primary action: the handler runs on the current session,
    with no document and no promise yet, until it returns or waits. *)
Definition click_process (env : Env) (s : Session) : World :=
  run_main env (handleProcessImages s) {| session := s; doc := None |} [] [].

(** A click on "start over". *)
Definition click_startOver (env : Env) (s : Session) : World :=
  run_main env (startOver s) {| session := s; doc := None |} [] [].

(* ================================================================== *)
(** ** Observations on runs *)
(* ================================================================== *)

(** Run a job to the end, every awaited outcome being delivered as soon as
    it is asked for: what the promise of the job settles to. *)
Fixpoint finish_job {A} (env : Env) (who : Actor) (p : Job A) (st : Store)
  : Store * Trace * (Thrown + A) :=
  match p with
  | Return a => (st, [], inr a)
  | Throw e => (st, [], inl e)
  | Do act k =>
      let '(st', tr, r) := finish_job env who k (apply_action act st) in
      (st', (who, act) :: tr, r)
  | Call c k => finish_job env who (k (answer_call env st c)) st
  | Await req k => finish_job env who (k (answer env who req)) st
  | All cs k _ =>
      match cs with
      | [] => finish_job env who (k []) st
      | c :: _ => match c with end
      end
  end.

Definition blank_store : Store := {| session := initial_session; doc := None |}.

Definition outcome {A} (env : Env) (who : Actor) (p : Job A) : Thrown + A :=
  snd (finish_job env who p blank_store).

(** The URLs released along a trace, in order. *)
Fixpoint revoked (tr : Trace) : list string :=
  match tr with
  | [] => []
  | (_, revokeObjectURL u) :: tr' => u :: revoked tr'
  | _ :: tr' => revoked tr'
  end.

(** The resources a session holds: the display URL of every upload item and
    the output URL, if there is one. *)
Definition held_output (s : Session) : list string :=
  match pdfUrl s with
  | Some u => if truthy u then [u] else []
  | None => []
  end.

Definition held_resources (s : Session) : list string :=
  (map originalUrl (imageFiles s) ++ held_output s)%list.

Definition is_call (a : Action) : bool :=
  match a with cleanImage_called _ => true | _ => false end.

(** Actions that belong to the layout collaborator. *)
Definition is_layout (a : Action) : bool :=
  match a with new_jsPDF | doc_addPage | doc_addImage _ => true | _ => false end.

(** Every call of [cleanImage] in a trace, with the action that comes
    immediately before it. *)
Fixpoint calls_after (prev : option Action) (tr : Trace) : list (option Action * File) :=
  match tr with
  | [] => []
  | (_, cleanImage_called f) :: tr' =>
      (prev, f) :: calls_after (Some (cleanImage_called f)) tr'
  | (_, a) :: tr' => calls_after (Some a) tr'
  end.

Definition calls (tr : Trace) : list (option Action * File) := calls_after None tr.

(** The position in the trace of the call made by the callback of element
    [i], and of its settling. *)
Fixpoint position (test : Actor * Action -> bool) (tr : Trace) : option nat :=
  match tr with
  | [] => None
  | x :: tr' => if test x then Some 0%nat else option_map S (position test tr')
  end.

Definition call_of (i : nat) (x : Actor * Action) : bool :=
  match x with
  | (MapCallback j, cleanImage_called _) => (i =? j)%nat
  | _ => false
  end.

Definition settle_of (i : nat) (x : Actor * Action) : bool :=
  match x with
  | (MapCallback j, cleanImage_settled _ _) => (i =? j)%nat
  | _ => false
  end.

(** Serial execution: whenever the call for [i] has settled and the call
    for a later [j] has started, the former came first. *)
Definition serialized (tr : Trace) : Prop :=
  forall i j a b, (i < j)%nat ->
    position (settle_of i) tr = Some a ->
    position (call_of j) tr = Some b ->
    (a < b)%nat.




(** An item has a result when its [cleanedUrl] is truthy, that is neither
    [null] nor empty. *)
Definition has_result (im : ImageFile) : bool := truthy_opt (cleanedUrl im).




(* ------------------------------------------------------------------ *)
(** *** The failure cases of the clean-up, in the words of the
        specification *)
(* ------------------------------------------------------------------ *)

Definition parts_of (c : Candidate) : list Part :=
  match content c with
  | Some {| parts := Some ps |} => ps
  | _ => []
  end.

(** The response carries an image. *)
Definition carries_image (c : Candidate) : Prop :=
  exists p d, In p (parts_of c) /\ inlineData p = Some d.

(** The response carries some text. *)
Definition carries_text (c : Candidate) : Prop :=
  exists p t, In p (parts_of c) /\ text p = Some t /\ t <> EmptyString.

(** (1) no result candidate. *)
Definition no_candidate (r : GenerateContentResponse) : Prop :=
  candidates r = None \/ candidates r = Some [].

(** (2) a completion reason is present and is not the normal stop. *)
Definition stopped_abnormally (c : Candidate) : Prop :=
  exists fr, finishReason c = Some fr /\ fr <> EmptyString /\ fr <> "STOP".

(** (3) text but no image; (4) neither. Both after a normal completion. *)
Definition text_only (c : Candidate) : Prop :=
  ~ stopped_abnormally c /\ ~ carries_image c /\ carries_text c.

Definition empty_reply (c : Candidate) : Prop :=
  ~ stopped_abnormally c /\ ~ carries_image c /\ ~ carries_text c.

Definition failure_case (r : GenerateContentResponse) : Prop :=
  no_candidate r \/
  exists c, first_candidate r = Some c /\
            (stopped_abnormally c \/ text_only c \/ empty_reply c).

(** [needle] occurs in [s]. *)
Definition occurs_in (needle s : string) : Prop :=
  exists pre post, s = pre ++ needle ++ post.

(* ------------------------------------------------------------------ *)
(** *** What the code of a continuation may do *)
(* ------------------------------------------------------------------ *)

(** Every action that [p] can perform, whatever it is answered, satisfies
    [ok], and [p] starts no further promises. *)
Fixpoint only {C B A} (ok : Action -> bool) (p : Async C B A) : Prop :=
  match p with
  | Return _ | Throw _ => True
  | Do act k => ok act = true /\ only ok k
  | Call c k => forall r, only ok (k r)
  | Await req k => forall r, only ok (k r)
  | All _ _ _ => False
  end.

Definition task_only {A} (ok : Action -> bool) (t : Task A) : Prop :=
  match t with
  | Settled _ => True
  | Suspended req k => forall r, only ok (k r)
  end.

Definition main_only (ok : Action -> bool) (m : MainState) : Prop :=
  match m with
  | MainDone _ => True
  | MainBlocked req k => forall r, only ok (k r)
  | MainJoining _ k kerr => (forall vs, only ok (k vs)) /\ (forall e, only ok (kerr e))
  end.

(** [p] makes no synchronous call that reads the store or the browser, and
    starts no promise: how it settles depends on the awaited outcomes
    only. *)
Fixpoint call_free {C B A} (p : Async C B A) : Prop :=
  match p with
  | Return _ | Throw _ => True
  | Do _ k => call_free k
  | Await req k => forall r, call_free (k r)
  | Call _ _ | All _ _ _ => False
  end.

Definition task_call_free {A} (t : Task A) : Prop :=
  match t with
  | Settled _ => True
  | Suspended req k => forall r, call_free (k r)
  end.

(** What a promise has settled to, or will settle to. *)
Definition task_result {A} (env : Env) (who : Actor) (t : Task A) : Thrown + A :=
  match t with
  | Settled r => r
  | Suspended req k => outcome env who (k (answer env who req))
  end.

(** The promise at position [i] is the one of the callback for the upload
    item at position [i]. *)
Definition faithful (env : Env) (s : Session) (ps : list (Task ImageFile)) : Prop :=
  length ps = length (imageFiles s) /\
  forall i img t,
    nth_error (imageFiles s) i = Some img ->
    nth_error ps i = Some t ->
    task_call_free t /\
    task_result env (MapCallback i) t =
      outcome env (MapCallback i) (clean_callback (length (imageFiles s)) img i).

(** Actions that leave the store alone and start no clean-up. *)
Definition silent (a : Action) : bool :=
  match a with
  | console_error | cleanImage_settled _ _ => true
  | _ => false
  end.

Definition not_call (a : Action) : bool := negb (is_call a).

Definition trace_only (ok : Action -> bool) (tr : Trace) : Prop :=
  Forall (fun x : Actor * Action => ok (snd x) = true) tr.

Definition is_suspended {A} (t : Task A) : Prop :=
  match t with
  | Suspended _ _ => True
  | Settled _ => False
  end.

Definition is_settled {A} (t : Task A) : Prop :=
  match t with
  | Settled _ => True
  | Suspended _ _ => False
  end.

(** What the callbacks of [imageFiles.map] do before their first [await],
    from index [i] on, for [n] uploads in all. *)
Fixpoint started_trace (n i : nat) (l : list ImageFile) : Trace :=
  match l with
  | [] => []
  | img :: l' =>
      (MapCallback i, setProgressMessage (cleaning_message i n))
        :: (MapCallback i, cleanImage_called (file img))
        :: started_trace n (S i) l'
  end.

(** The promises are quiet and the main function starts no clean-up any
    more. *)
Definition settled_down (w : World) : Prop :=
  Forall (task_only silent) (promises w) /\ main_only not_call (main w).

(** A rejection handler that reports the error in the session and
    returns. *)
Definition reports_error (env : Env) (kerr : Thrown -> Proc unit) : Prop :=
  forall e st tr ps,
    let w := run_main env (kerr e) st tr ps in
    main w = MainDone (inr tt) /\
    promises w = ps /\
    processingState (session (store w)) = ERROR /\
    errorMessage (session (store w)) = caught_message e /\
    pdfUrl (session (store w)) = pdfUrl (session st).

(** The main function waits in [Promise.all] and no promise has been
    rejected so far. *)
Definition joining (env : Env) (w : World) : Prop :=
  exists k kerr,
    main w = MainJoining 0 k kerr /\
    reports_error env kerr /\
    first_rejected (promises w) = None.

Definition phase (env : Env) (w : World) : Prop :=
  joining env w \/
  first_rejected (promises w) <> None \/
  Forall is_settled (promises w).

(* ================================================================== *)
(** ** Sample data *)
(* ================================================================== *)

Module Sample.

Definition upload (n : string) : ImageFile :=
{| id := n ++ "-1700000000000";
   file := {| name := n |};
   originalUrl := "blob:" ++ n;
   cleanedUrl := None |}.

Definition cleaned (n uri : string) : ImageFile :=
with_cleanedUrl (upload n) (Some uri).

Definition session_of (l : list ImageFile) : Session :=
{| imageFiles := l;
   processingState := IDLE;
   pdfFilename := "scanned-documents";
   pdfUrl := None;
   progressMessage := EmptyString;
   errorMessage := EmptyString;
   showPdfPreview := false |}.



Definition two_uploads : Session := session_of [upload "a.jpg"; upload "b.jpg"].

Definition finished : Session :=
{| imageFiles := [cleaned "a.jpg" "data:image/png;base64,QUJD"];
   processingState := COMPLETE;
   pdfFilename := "scan";
   pdfUrl := Some "blob:pdf";
   progressMessage := "Your PDF is ready!";
   errorMessage := EmptyString;
   showPdfPreview := true |}.

Definition image_response : GenerateContentResponse :=
{| candidates := Some [
     {| finishReason := Some "STOP";
        safetyRatings := None;
        content := Some {| parts := Some [
          {| inlineData := Some {| mimeType := Some "image/png"; data := Some "QUJD" |};
             text := None |} ] |} |} ] |}.

Definition blocked_response : GenerateContentResponse :=
{| candidates := Some [
     {| finishReason := Some "SAFETY";
        safetyRatings := Some [ {| json := "{}" |} ];
        content := None |} ] |}.

(** Every file reads well and every request returns a clean image. *)
Definition all_well : Env :=
{| reader_outcome := fun _ f => onload ("data:image/jpeg;base64," ++ name f);
   model_outcome := fun _ _ _ => inr image_response;
   image_size := fun _ _ => (300, 200)%N;
   blob_url := fun _ => "blob:pdf";
   library_fault := fun _ => None |}.

(** The request made for the first upload is rejected by the service. *)
Definition first_rejected_env : Env :=
{| reader_outcome := fun _ f => onload ("data:image/jpeg;base64," ++ name f);
   model_outcome := fun who _ _ =>
     match who with
     | MapCallback 0 => inl (ErrorObj "503 Service Unavailable")
     | _ => inr image_response
     end;
   image_size := fun _ _ => (300, 200)%N;
   blob_url := fun _ => "blob:pdf";
   library_fault := fun _ => None |}.

(** Every clean-up succeeds, and [doc.addImage] throws on the image of the
    second page. *)
Definition broken_library : Env :=
{| reader_outcome := fun _ f => onload ("data:image/jpeg;base64," ++ name f);
   model_outcome := fun _ _ _ => inr image_response;
   image_size := fun _ _ => (300, 200)%N;
   blob_url := fun _ => "blob:pdf";
   library_fault := fun c =>
     match c with
     | addImage_call 1 _ => Some (ErrorObj "Invalid image data")
     | _ => None
     end |}.

(** The service stops every generation for safety reasons. *)
Definition blocked_env : Env :=
  {| reader_outcome := fun _ f => onload ("data:image/jpeg;base64," ++ name f);
     model_outcome := fun _ _ _ => inr blocked_response;
     image_size := fun _ _ => (300, 200)%N;
     blob_url := fun _ => "blob:pdf";
     library_fault := fun _ => None |}.

(** The file reader yields a data URL without payload (an empty file). *)
Definition empty_file_env : Env :=
{| reader_outcome := fun _ _ => onload "data:";
   model_outcome := fun _ _ _ => inr image_response;
   image_size := fun _ _ => (300, 200)%N;
   blob_url := fun _ => "blob:pdf";
   library_fault := fun _ => None |}.

End Sample.

(* ================================================================== *)
(** ** App.tsx: the other handlers *)
(* ================================================================== *)

(** What the browser answers during a file selection: the clock read by
    the [index]-th call of [Date.now()] and the URL minted by the [index]-th
    call of [URL.createObjectURL(file)]. *)
Record Browser := {
  Date_now : nat -> nat;
  objectURL : nat -> File -> string
}.

(** The upload item made for the file at position [index] of a selection. *)
Definition new_image (b : Browser) (f : File) (index : nat) : ImageFile :=
  {| id := name f ++ "-" ++ of_nat (Date_now b index);
     file := f;
     originalUrl := objectURL b index f;
     cleanedUrl := None |}.

(** [handleFileChange]; [files] is [event.target.files]. The handler runs
    in the render of session [s], whose [imageFiles] is the [prev] of the
    updater. *)
Definition handleFileChange (b : Browser) (s : Session) (files : option (list File))
  : Proc unit :=
  match files with
  | Some fs =>
      let newImageFiles := map_indexed (new_image b) 0 fs in
      setImageFiles (imageFiles s ++ newImageFiles)%list ;;
      Return tt
  | None => Return tt
  end.

(** [img.id === id] *)
Definition has_id (id0 : string) (img : ImageFile) : bool := String.eqb (id img) id0.

(** [removeImage] *)
Definition removeImage (s : Session) (id0 : string) : Proc unit :=
  let imageToRemove := find (has_id id0) (imageFiles s) in
  let rest : Proc unit :=
    setImageFiles (filter (fun img => negb (has_id id0 img)) (imageFiles s)) ;;
    Return tt in
  match imageToRemove with
  | Some img => revokeObjectURL (originalUrl img) ;; rest
  | None => rest
  end.

(** A handler that does not wait, run on the session of its render. *)
Definition handle (env : Env) (s : Session) (p : Proc unit) : World :=
  run_main env p {| session := s; doc := None |} [] [].

(** The session a handler leaves. *)
Definition after (env : Env) (s : Session) (p : Proc unit) : Session :=
  session (store (handle env s p)).

(** The session at the end of the turn of a click on the primary action,
    for a non-empty upload sequence. *)
Definition processing_session (s : Session) : Session :=
  {| imageFiles := imageFiles s;
     processingState := PROCESSING;
     pdfFilename := pdfFilename s;
     pdfUrl := pdfUrl s;
     progressMessage :=
       cleaning_message (length (imageFiles s) - 1) (length (imageFiles s));
     errorMessage := EmptyString;
     showPdfPreview := showPdfPreview s |}.

(* ================================================================== *)
(** ** The parts of [handleProcessImages] after [Promise.all] *)
(* ================================================================== *)

(** The end of the [try] block: the document becomes a blob, the blob a
    URL, and the session is completed. *)
Definition publish : Proc unit :=
  library output_call
    (Call doc_output (fun pdfBlob =>
     library (createObjectURL_call pdfBlob)
       (Call (createObjectURL pdfBlob) (fun url =>
        setPdfUrl (Some url) ;;
        setProcessingState COMPLETE ;;
        setProgressMessage "Your PDF is ready!" ;;
        setShowPdfPreview true ;;
        Return tt)))).

(** The [catch] block. *)
Definition report (error : Thrown) : Proc unit :=
  console_error ;;
  setErrorMessage (caught_message error) ;;
  setProcessingState ERROR ;;
  Return tt.

(** What the handler does once [Promise.all] has given the cleaned items. *)
Definition assemble (cleanedImages : list ImageFile) : Proc unit :=
  try_catch
    (setImageFiles cleanedImages ;;
     setProgressMessage "Generating PDF..." ;;
     library window_jspdf
       (library jsPDF_constructor
          (new_jsPDF ;;
           layout_from 0 cleanedImages publish)))
    report.

(** The image drawn for a data URI: its size is the one the decoder gives
    to the main function. *)
Definition placed (env : Env) (imgData : string) : Placed :=
  let '(imgWidth, imgHeight) := image_size env MainTask imgData in
  place imgData imgWidth imgHeight.

(** What the layout loop, from index [i] on, makes of the document. *)
Fixpoint layout_doc (env : Env) (i : nat) (cleanedImages : list ImageFile) (d : PdfDoc)
  : PdfDoc :=
  match cleanedImages with
  | [] => d
  | im :: more =>
      match cleanedUrl im with
      | Some imgData =>
          if truthy imgData then
            layout_doc env (S i) more
              (addImage (placed env imgData) (if (0 <? i)%nat then addPage d else d))
          else layout_doc env (S i) more d
      | None => layout_doc env (S i) more d
      end
  end.

(** The session while the document is laid out. *)
Definition generating_session (s : Session) (cleanedImages : list ImageFile) : Session :=
  {| imageFiles := cleanedImages;
     processingState := PROCESSING;
     pdfFilename := pdfFilename s;
     pdfUrl := pdfUrl s;
     progressMessage := "Generating PDF...";
     errorMessage := EmptyString;
     showPdfPreview := showPdfPreview s |}.

(** The session of a completed assembly. *)
Definition complete_session (s : Session) (cleanedImages : list ImageFile) (url : string)
  : Session :=
  {| imageFiles := cleanedImages;
     processingState := COMPLETE;
     pdfFilename := pdfFilename s;
     pdfUrl := Some url;
     progressMessage := "Your PDF is ready!";
     errorMessage := EmptyString;
     showPdfPreview := true |}.

(** The session of an assembly in which a library call threw [e] after the
    clean-ups: the cleaned items have been stored already. *)
Definition layout_error_session (s : Session) (cleanedImages : list ImageFile) (e : Thrown)
  : Session :=
  {| imageFiles := cleanedImages;
     processingState := ERROR;
     pdfFilename := pdfFilename s;
     pdfUrl := pdfUrl s;
     progressMessage := "Generating PDF...";
     errorMessage := caught_message e;
     showPdfPreview := showPdfPreview s |}.

(** The session that the [catch] block makes of a session. *)
Definition failed (se : Session) (e : Thrown) : Session :=
  {| imageFiles := imageFiles se;
     processingState := ERROR;
     pdfFilename := pdfFilename se;
     pdfUrl := pdfUrl se;
     progressMessage := progressMessage se;
     errorMessage := caught_message e;
     showPdfPreview := showPdfPreview se |}.

(** The store that the end of the [try] block makes of a session and a
    document. *)
Definition published (env : Env) (se : Session) (d : PdfDoc) : Store :=
  apply_action (setShowPdfPreview true)
    (apply_action (setProgressMessage "Your PDF is ready!")
       (apply_action (setProcessingState COMPLETE)
          (apply_action (setPdfUrl (Some (blob_url env d)))
             {| session := se; doc := Some d |}))).

(** Where the layout of [remaining] items stands after [m] image loads, for
    a session [se] and the document [final] that the loop would build: the
    handler has returned after publishing the document, or it waits for an
    image with the session untouched, or a library call has thrown and the
    handler has returned after reporting it. After as many loads as there
    are items it has returned. *)
Definition layout_outcome (env : Env) (se : Session) (final : PdfDoc)
  (remaining m : nat) (w : World) : Prop :=
  ((main w = MainDone (inr tt) /\ store w = published env se final)
   \/
   ((exists R (req : Request R) k, main w = MainBlocked req k) /\
    session (store w) = se /\ (m < remaining)%nat)
   \/
   (exists c e,
      library_fault env c = Some e /\
      main w = MainDone (inr tt) /\
      session (store w) = failed se e)) /\
  ((remaining <= m)%nat -> main w = MainDone (inr tt)).

(** No library call throws. *)
Definition no_fault (env : Env) : Prop := forall c, library_fault env c = None.

(** The session of an assembly in which a clean-up failed with [e]. *)
Definition error_session (s : Session) (e : Thrown) : Session :=
  {| imageFiles := imageFiles s;
     processingState := ERROR;
     pdfFilename := pdfFilename s;
     pdfUrl := pdfUrl s;
     progressMessage :=
       cleaning_message (length (imageFiles s) - 1) (length (imageFiles s));
     errorMessage := caught_message e;
     showPdfPreview := showPdfPreview s |}.

(** Where an assembly stands at the end of a turn. *)
Inductive Stage (env : Env) (s : Session) (w : World) : Prop :=
| Cleaning :
    main w = MainJoining 0 assemble report ->
    store w = {| session := processing_session s; doc := None |} ->
    first_rejected (promises w) = None ->
    all_fulfilled (promises w) = None ->
    Stage env s w
| Failed (k : nat) (e : Thrown) :
    main w = MainDone (inr tt) ->
    store w = {| session := error_session s e; doc := None |} ->
    nth_error (promises w) k = Some (Settled (inl e)) ->
    Stage env s w
| LayingOut (cleanedImages : list ImageFile) (tr : Trace) (m : nat) :
    all_fulfilled (promises w) = Some cleanedImages ->
    w = run env
          (run_main env (assemble cleanedImages)
             {| session := processing_session s; doc := None |} tr (promises w))
          (repeat TMain m) ->
    Stage env s w.

(** The number of outcomes a job still has to be given before it
    settles. *)
Fixpoint awaits {A} (env : Env) (who : Actor) (p : Job A) : nat :=
  match p with
  | Return _ | Throw _ => 0
  | Do _ k => awaits env who k
  | Call c k => awaits env who (k (answer_call env blank_store c))
  | Await req k => S (awaits env who (k (answer env who req)))
  | All _ _ _ => 0
  end.

Definition task_awaits {A} (env : Env) (who : Actor) (t : Task A) : nat :=
  match t with
  | Settled _ => 0
  | Suspended req k => S (awaits env who (k (answer env who req)))
  end.

(** The number of turns that a schedule gives to the promise at position
    [i]. *)
Fixpoint delivered (i : nat) (sched : list Tick) : nat :=
  match sched with
  | [] => 0
  | TChild j :: rest => ((if (j =? i)%nat then 1 else 0) + delivered i rest)%nat
  | TMain :: rest => delivered i rest
  end.

(** Every promise is free of synchronous calls and needs at most [b i] more
    outcomes, [i] being its position. *)
Definition bounded (env : Env) (b : nat -> nat) (ps : list (Task ImageFile)) : Prop :=
  forall i t, nth_error ps i = Some t ->
              task_call_free t /\ (task_awaits env (MapCallback i) t <= b i)%nat.

(** [s.includes(c)] for a character [c]. *)
Fixpoint has_char (c : ascii) (s : string) : bool :=
  match s with
  | EmptyString => false
  | String x s' => if Ascii.eqb x c then true else has_char c s'
  end.

(** The data URL that [readAsDataURL] makes of a file of the given mime type
    whose bytes have the given base64 text. *)
Definition data_url (mime payload : string) : string :=
  "data:" ++ mime ++ ";base64," ++ payload.

(* ================================================================== *)
(** ** App.tsx: what is rendered *)
(* ================================================================== *)

(** The elements of the rendered page that show state or take input. *)
Inductive Element :=
| FileInput
| ImagePreview (src : string)
| RemoveButton (id0 : string)
| FilenameInput (value : string)
| ErrorText (message : string)
| ProcessButton (disabled : bool)
| ProgressText (message : string)
| DownloadLink (href download : string)
| StartOverButton
| ClosePreviewButton
| PdfFrame (src : string).

(** [cond && <element/>] for a string condition. *)
Definition when_set (u : option string) (els : string -> list Element) : list Element :=
  match u with
  | Some v => if truthy v then els v else []
  | None => []
  end.

(** The panel of the [IDLE] state. *)
Definition idle_panel (s : Session) : list Element :=
  (FileInput
     :: flat_map (fun img => [ImagePreview (originalUrl img); RemoveButton (id img)])
          (imageFiles s)
     ++ FilenameInput (pdfFilename s)
     :: when_set (Some (errorMessage s)) (fun m => [ErrorText m])
     ++ [ProcessButton (length (imageFiles s) =? 0)%nat])%list.

(** The panel of the [COMPLETE] and [ERROR] states. *)
Definition result_panel (s : Session) : list Element :=
  ((match processingState s with
    | COMPLETE =>
        when_set (pdfUrl s) (fun url =>
          [ProgressText (progressMessage s);
           DownloadLink url (finalPdfFilename (pdfFilename s))])
    | _ => []
    end)
   ++ (match processingState s with
       | ERROR => [ErrorText (errorMessage s)]
       | _ => []
       end)
   ++ [StartOverButton])%list.

(** The preview dialog. *)
Definition preview_modal (s : Session) : list Element :=
  if showPdfPreview s
  then when_set (pdfUrl s) (fun url => [ClosePreviewButton; PdfFrame url])
  else [].

(** The [return] of [App]. *)
Definition render (s : Session) : list Element :=
  ((match processingState s with
    | IDLE => idle_panel s
    | PROCESSING => [ProgressText (progressMessage s)]
    | COMPLETE | ERROR => result_panel s
    end) ++ preview_modal s)%list.

(** [setPdfFilename(e.target.value)] *)
Definition rename (s : Session) (value : string) : Session :=
  {| imageFiles := imageFiles s;
     processingState := processingState s;
     pdfFilename := value;
     pdfUrl := pdfUrl s;
     progressMessage := progressMessage s;
     errorMessage := errorMessage s;
     showPdfPreview := showPdfPreview s |}.

(** [() => setShowPdfPreview(false)] *)
Definition closePreview : Proc unit := setShowPdfPreview false ;; Return tt.

(** The sessions that can be rendered: the first one, and those that
    follow from a rendered session by an event on an element it renders (a
    disabled button takes no click). A click on the primary action leads to
    the session at the end of every turn of the assembly it starts, in any
    environment and under any schedule. *)
Inductive reachable : Session -> Prop :=
| reach_initial : reachable initial_session
| reach_select (env : Env) (b : Browser) (s : Session) (files : option (list File)) :
    reachable s -> In FileInput (render s) ->
    reachable (after env s (handleFileChange b s files))
| reach_remove (env : Env) (s : Session) (id0 : string) :
    reachable s -> In (RemoveButton id0) (render s) ->
    reachable (after env s (removeImage s id0))
| reach_rename (s : Session) (value : string) :
    reachable s -> In (FilenameInput (pdfFilename s)) (render s) ->
    reachable (rename s value)
| reach_process (env : Env) (s : Session) (sched : list Tick) :
    reachable s -> In (ProcessButton false) (render s) ->
    reachable (session (store (run env (click_process env s) sched)))
| reach_startOver (env : Env) (s : Session) :
    reachable s -> In StartOverButton (render s) ->
    reachable (after env s (startOver s))
| reach_close (env : Env) (s : Session) :
    reachable s -> In ClosePreviewButton (render s) ->
    reachable (after env s closePreview).

(** What holds of every session that is rendered. An [ERROR] session is
    left by a failed clean-up, with the prefixed message and no cleaned
    result, or by a library call that threw during the layout, with every
    item cleaned. *)
Definition coherent (s : Session) : Prop :=
  (pdfUrl s <> None <-> processingState s = COMPLETE) /\
  (showPdfPreview s = true -> processingState s = COMPLETE) /\
  (processingState s = IDLE ->
   Forall (fun img => cleanedUrl img = None) (imageFiles s)) /\
  (processingState s = IDLE ->
   errorMessage s = EmptyString /\ progressMessage s = EmptyString) /\
  (processingState s = ERROR ->
   ((exists rest, errorMessage s = "Failed to process image with AI. " ++ rest) /\
    Forall (fun img => cleanedUrl img = None) (imageFiles s))
   \/
   (Forall (fun img => has_result img = true) (imageFiles s) /\
    progressMessage s = "Generating PDF...")) /\
  (processingState s = COMPLETE ->
   progressMessage s = "Your PDF is ready!" /\ errorMessage s = EmptyString).

(** The elements of the [IDLE] panel. *)
Definition idle_element (el : Element) : bool :=
  match el with
  | FileInput | ImagePreview _ | RemoveButton _ | FilenameInput _ | ProcessButton _ => true
  | _ => false
  end.

(** A selection of two files on the first render, and the browser that
    answers it. *)
Definition sample_browser : Browser :=
  {| Date_now := fun _ => 5%nat; objectURL := fun _ f => "blob:" ++ name f |}.

Definition sample_selection : Session :=
  after Sample.all_well initial_session
    (handleFileChange sample_browser initial_session
       (Some [ {| name := "a.jpg" |}; {| name := "b.jpg" |} ])).

(** [(L - f) / 2] on numbers, for a page length [L] and an image length
    [f]: the coordinate that centres the image. *)
Definition centre_of (L : Z) (f : Q) : Q := round (round (inject_Z L - f) / 2).

(** Pixel sizes on which [place] is compared with [place_double]: small
    sizes, with the degenerate ones, and sizes of photographs and scans. *)
Definition sample_sizes : list (N * N) :=
  (list_prod (map N.of_nat (seq 0 10)) (map N.of_nat (seq 0 10))
   ++ [(300, 200); (190, 277); (380, 554); (640, 480); (1000, 1414); (2480, 3508);
       (4032, 3024); (3024, 4032); (8000, 6000); (1, 4294967295); (4294967295, 1);
       (4294967295, 4294967294); (189, 277); (191, 277); (0, 4294967295)])%list%N.

(** Binary64 values on which the operations on [Number] are compared with
    the primitive ones: small integers, fractions, the least subnormal and
    the least normal number, the greatest number, a neighbour of one,
    negative values, the infinities and NaN. *)
Definition sample_floats : list float :=
  [1; 3; 10; 190; 277; 0.5; 0x1.999999999999ap-4; 0x1.5555555555555p-2;
   0x1p-1074; 0x1p-1022; 0x1.fffffffffffffp+1023; 9007199254740992;
   0x1.0000000000001p+0; -2.5; -7; infinity; neg_infinity; nan]%float.

(** The quotient, the product, the difference and the comparison of two
    values agree. A result that is a zero of a negative operand is left
    out: its sign is not represented. *)
Definition operations_agree (f g : float) : bool :=
  let zero_of_negative (r : float) :=
    match of_float r with
    | Finite q => Qzero q && ((f <? 0) || (g <? 0))%float
    | _ => false
    end in
  (zero_of_negative (f / g)%float
   || same_number (ndiv (of_float f) (of_float g)) (of_float (f / g)))
  && (zero_of_negative (f * g)%float
      || same_number (nmul (of_float f) (of_float g)) (of_float (f * g)))
  && same_number (nsub (of_float f) (of_float g)) (of_float (f - g))
  && Bool.eqb (ngt (of_float f) (of_float g)) (g <? f)%float.
(** ** Numbers: the rounding of binary64 *)

Section Rounding.
Open Scope Q_scope.

Lemma pow2_pos (e : Z) : 0 < 2 ^ e.
Proof. apply Qpower_0_lt. reflexivity. Qed.

Lemma pow2_plus (a b : Z) : 2 ^ (a + b) == 2 ^ a * 2 ^ b.
Proof. apply Qpower_plus. discriminate. Qed.

Lemma pow2_succ (a : Z) : 2 ^ (a + 1) == 2 * 2 ^ a.
Proof. rewrite pow2_plus. change (2 ^ 1) with 2. ring. Qed.

Lemma pow2_le (a b : Z) : (a <= b)%Z -> 2 ^ a <= 2 ^ b.
Proof. intros H. apply Qpower_le_compat_l; [exact H | discriminate]. Qed.

Lemma pow2_lt (a b : Z) : (a < b)%Z -> 2 ^ a < 2 ^ b.
Proof. intros H. apply Qpower_lt_compat_l; [exact H | reflexivity]. Qed.

Lemma pow2_inject (n : Z) : (0 <= n)%Z -> 2 ^ n == inject_Z (2 ^ n).
Proof. intros H. symmetry. apply (Zpower_Qpower 2 n H). Qed.


Lemma Qlog2_spec (q : Q) : 0 < q -> 2 ^ Qlog2 q <= q /\ q < 2 ^ (Qlog2 q + 1).
Proof.
  intros Hq. destruct q as [n d]. unfold Qlog2. cbn [Qnum Qden].
  assert (Hn : (0 < n)%Z).
  { unfold Qlt in Hq. simpl in Hq. lia. }
  set (a := Z.log2 n). set (b := Z.log2 (Z.pos d)).
  destruct (Z.log2_spec n Hn) as [Ha0 Ha1].
  destruct (Z.log2_spec (Z.pos d) (Pos2Z.is_pos d)) as [Hb0 Hb1].
  fold a in Ha0, Ha1. fold b in Hb0, Hb1.
  assert (Ha : (0 <= a)%Z) by apply Z.log2_nonneg.
  assert (Hb : (0 <= b)%Z) by apply Z.log2_nonneg.
  assert (Qa0 : 2 ^ a <= inject_Z n).
  { rewrite pow2_inject by exact Ha. rewrite <- Zle_Qle. exact Ha0. }
  assert (Qa1 : inject_Z n < 2 ^ (a + 1)).
  { rewrite pow2_inject by lia. rewrite <- Zlt_Qlt. rewrite <- Z.add_1_r in Ha1. exact Ha1. }
  assert (Qb0 : 2 ^ b <= inject_Z (Z.pos d)).
  { rewrite pow2_inject by exact Hb. rewrite <- Zle_Qle. exact Hb0. }
  assert (Qb1 : inject_Z (Z.pos d) < 2 ^ (b + 1)).
  { rewrite pow2_inject by lia. rewrite <- Zlt_Qlt. rewrite <- Z.add_1_r in Hb1. exact Hb1. }
  assert (Hnd : (n # d) * inject_Z (Z.pos d) == inject_Z n).
  { rewrite (Qmake_Qdiv n d). field. discriminate. }
  assert (Hd : 0 < inject_Z (Z.pos d)) by reflexivity.
  set (k := (a - b)%Z).
  assert (Hk : 2 ^ a == 2 ^ k * 2 ^ b).
  { rewrite <- pow2_plus. replace (k + b)%Z with a by (unfold k; lia). reflexivity. }
  pose proof (pow2_pos k) as Pk. pose proof (pow2_pos b) as Pb.
  pose proof (pow2_pos a) as Pa.
  rewrite pow2_succ in Qa1. rewrite pow2_succ in Qb1.
  assert (Hlow : 2 ^ k < 2 * (n # d)).
  { apply (Qmult_lt_r _ _ (inject_Z (Z.pos d)) Hd).
    apply Qlt_le_trans with (2 ^ k * (2 * 2 ^ b)).
    - apply Qmult_lt_l; assumption.
    - setoid_replace (2 * (n # d) * inject_Z (Z.pos d)) with (2 * inject_Z n)
        by (rewrite <- Hnd; ring).
      setoid_replace (2 ^ k * (2 * 2 ^ b)) with (2 * 2 ^ a) by (rewrite Hk; ring).
      lra. }
  assert (Hhigh : (n # d) < 2 * 2 ^ k).
  { apply (Qmult_lt_r _ _ (inject_Z (Z.pos d)) Hd).
    rewrite Hnd.
    apply Qlt_le_trans with (2 * 2 ^ a); [exact Qa1|].
    rewrite Hk.
    setoid_replace (2 * (2 ^ k * 2 ^ b)) with (2 * 2 ^ k * 2 ^ b) by ring.
    apply Qmult_le_l; [lra | exact Qb0]. }
  destruct (Qle_bool (2 ^ k) (n # d)) eqn:E.
  - apply Qle_bool_iff in E. rewrite pow2_succ. split; assumption.
  - assert (Hlt : (n # d) < 2 ^ k).
    { apply Qnot_le_lt. intros H. apply Qle_bool_iff in H. congruence. }
    replace (k - 1 + 1)%Z with k by lia. split; [|exact Hlt].
    assert (H1 : 2 ^ k == 2 * 2 ^ (k - 1)).
    { rewrite <- pow2_succ. replace (k - 1 + 1)%Z with k by lia. reflexivity. }
    lra.
Qed.

(** The exponent is determined by the binade. *)
Lemma Qlog2_unique (q : Q) (e : Z) : 2 ^ e <= q -> q < 2 ^ (e + 1) -> Qlog2 q = e.
Proof.
  intros H0 H1.
  assert (Hq : 0 < q) by (pose proof (pow2_pos e); lra).
  destruct (Qlog2_spec q Hq) as [L0 L1].
  destruct (Z.lt_trichotomy (Qlog2 q) e) as [H | [H | H]]; [|exact H|].
  - exfalso. assert (2 ^ (Qlog2 q + 1) <= 2 ^ e) by (apply pow2_le; lia). lra.
  - exfalso. assert (2 ^ (e + 1) <= 2 ^ Qlog2 q) by (apply pow2_le; lia). lra.
Qed.

Lemma Qlog2_lt (q : Q) (k : Z) : 0 < q -> q < 2 ^ k -> (Qlog2 q < k)%Z.
Proof.
  intros Hq H. destruct (Qlog2_spec q Hq) as [L0 _].
  destruct (Z.lt_ge_cases (Qlog2 q) k) as [Hlt | Hge]; [exact Hlt|].
  exfalso. assert (2 ^ k <= 2 ^ Qlog2 q) by (apply pow2_le; lia). lra.
Qed.

Lemma Qlog2_ge (q : Q) (k : Z) : 2 ^ k <= q -> (k <= Qlog2 q)%Z.
Proof.
  intros H.
  assert (Hq : 0 < q) by (pose proof (pow2_pos k); lra).
  destruct (Qlog2_spec q Hq) as [_ L1].
  destruct (Z.le_gt_cases k (Qlog2 q)) as [Hle | Hgt]; [exact Hle|].
  exfalso. assert (2 ^ (Qlog2 q + 1) <= 2 ^ k) by (apply pow2_le; lia). lra.
Qed.

(** *** Rounding a scaled value to an integer *)

Lemma nearest_even_near (s : Q) :
  inject_Z (nearest_even s) - s <= 1 # 2 /\ s - inject_Z (nearest_even s) <= 1 # 2.
Proof.
  unfold nearest_even.
  pose proof (Qfloor_le s) as H0. pose proof (Qlt_floor s) as H1.
  rewrite inject_Z_plus in H1. change (inject_Z 1) with 1 in H1.
  destruct (s - inject_Z (Qfloor s) ?= 1 # 2) eqn:E.
  - apply Qeq_alt in E. destruct (Z.even (Qfloor s)); [lra|].
    rewrite inject_Z_plus. change (inject_Z 1) with 1. lra.
  - apply Qlt_alt in E. lra.
  - apply Qgt_alt in E. rewrite inject_Z_plus. change (inject_Z 1) with 1. lra.
Qed.

Lemma nearest_even_le (s : Q) (K : Z) : s <= inject_Z K -> (nearest_even s <= K)%Z.
Proof.
  intros H. unfold nearest_even.
  pose proof (Qfloor_le s) as H0.
  assert (Hf : (Qfloor s <= K)%Z).
  { rewrite <- (Qfloor_Z K). now apply Qfloor_resp_le. }
  destruct (Z.eq_dec (Qfloor s) K) as [-> | Hne].
  - assert (E : (s - inject_Z K ?= 1 # 2) = Lt).
    { apply (proj1 (Qlt_alt _ _)). lra. }
    rewrite E. lia.
  - destruct (s - inject_Z (Qfloor s) ?= 1 # 2); try destruct (Z.even (Qfloor s)); lia.
Qed.

Lemma nearest_even_ge (s : Q) (K : Z) : inject_Z K <= s -> (K <= nearest_even s)%Z.
Proof.
  intros H. unfold nearest_even.
  assert (Hf : (K <= Qfloor s)%Z).
  { rewrite <- (Qfloor_Z K). now apply Qfloor_resp_le. }
  destruct (s - inject_Z (Qfloor s) ?= 1 # 2); try destruct (Z.even (Qfloor s)); lia.
Qed.

Lemma nearest_even_exact (s : Q) (K : Z) : s == inject_Z K -> nearest_even s = K.
Proof.
  intros H. apply Z.le_antisymm.
  - apply nearest_even_le. lra.
  - apply nearest_even_ge. lra.
Qed.


(** *** Rounding a positive rational *)

Lemma round_pos_eq (q : Q) :
  round_pos q ==
  inject_Z (nearest_even (q / 2 ^ ulp_exponent q)) * 2 ^ ulp_exponent q.
Proof. unfold round_pos. apply Qred_correct. Qed.

Lemma scaled_grid (K : Z) (E F : Z) :
  (E <= F)%Z -> inject_Z K * 2 ^ F == inject_Z (K * 2 ^ (F - E)) * 2 ^ E.
Proof.
  intros H. rewrite inject_Z_mult, <- pow2_inject by lia.
  rewrite <- Qmult_assoc, <- pow2_plus.
  replace (F - E + E)%Z with F by lia. reflexivity.
Qed.

Lemma round_pos_le_grid (q : Q) (K F : Z) :
  (ulp_exponent q <= F)%Z -> q <= inject_Z K * 2 ^ F ->
  round_pos q <= inject_Z K * 2 ^ F.
Proof.
  intros HE H. set (E := ulp_exponent q) in *.
  rewrite round_pos_eq. fold E. rewrite (scaled_grid K E F HE) in *.
  pose proof (pow2_pos E) as PE.
  apply Qmult_le_compat_r; [|lra].
  rewrite <- Zle_Qle. apply nearest_even_le.
  apply Qle_shift_div_r; assumption.
Qed.

Lemma round_pos_ge_grid (q : Q) (K F : Z) :
  (ulp_exponent q <= F)%Z -> inject_Z K * 2 ^ F <= q ->
  inject_Z K * 2 ^ F <= round_pos q.
Proof.
  intros HE H. set (E := ulp_exponent q) in *.
  rewrite round_pos_eq. fold E. rewrite (scaled_grid K E F HE) in *.
  pose proof (pow2_pos E) as PE.
  apply Qmult_le_compat_r; [|lra].
  rewrite <- Zle_Qle. apply nearest_even_ge.
  apply Qle_shift_div_l; assumption.
Qed.

Lemma round_pos_exact_grid (q : Q) (K F : Z) :
  (ulp_exponent q <= F)%Z -> q == inject_Z K * 2 ^ F -> round_pos q == q.
Proof.
  intros HE H. apply Qle_antisym.
  - rewrite H at 2. apply round_pos_le_grid; [exact HE | lra].
  - rewrite H at 1. apply round_pos_ge_grid; [exact HE | lra].
Qed.

Lemma round_pos_error (q : Q) :
  round_pos q - q <= 2 ^ ulp_exponent q * (1 # 2) /\
  q - round_pos q <= 2 ^ ulp_exponent q * (1 # 2).
Proof.
  set (E := ulp_exponent q). pose proof (pow2_pos E) as PE.
  destruct (nearest_even_near (q / 2 ^ E)) as [H1 H2].
  rewrite round_pos_eq. fold E.
  assert (Hq : q == q / 2 ^ E * 2 ^ E) by (field; lra).
  set (s := q / 2 ^ E) in *. set (m := inject_Z (nearest_even s)) in *.
  rewrite Hq. clearbody s m. clear Hq.
  split.
  - setoid_replace (m * 2 ^ E - s * 2 ^ E) with ((m - s) * 2 ^ E) by ring.
    rewrite (Qmult_comm (2 ^ E)). apply Qmult_le_compat_r; lra.
  - setoid_replace (s * 2 ^ E - m * 2 ^ E) with ((s - m) * 2 ^ E) by ring.
    rewrite (Qmult_comm (2 ^ E)). apply Qmult_le_compat_r; lra.
Qed.

Lemma ulp_exponent_lt (q : Q) (F : Z) :
  0 < q -> q < 2 ^ (F + 53) -> (-1074 <= F)%Z -> (ulp_exponent q <= F)%Z.
Proof.
  intros Hq H HF. pose proof (Qlog2_lt q _ Hq H). unfold ulp_exponent. lia.
Qed.

Lemma ulp_exponent_normal (q : Q) :
  2 ^ (-1022) <= q -> 2 ^ ulp_exponent q * (1 # 2) <= q * (1 # 9007199254740992).
Proof.
  intros H.
  assert (Hq : 0 < q) by (pose proof (pow2_pos (-1022)); lra).
  pose proof (Qlog2_ge q _ H) as He.
  destruct (Qlog2_spec q Hq) as [L0 _].
  unfold ulp_exponent. rewrite Z.max_l by lia.
  replace (Qlog2 q - 52)%Z with (Qlog2 q + -52)%Z by lia.
  rewrite pow2_plus. change (2 ^ (-52)) with (1 # 4503599627370496).
  pose proof (pow2_pos (Qlog2 q)). lra.
Qed.


(** *** Rounding to binary64 *)

Lemma round_proper (p q : Q) : p == q -> round p = round q.
Proof.
  intros H. unfold round.
  rewrite (Qred_complete p q H).
  assert (Hn : - p == - q) by (rewrite H; reflexivity).
  now rewrite (Qred_complete _ _ Hn).
Qed.

Lemma round_positive (q : Q) : 0 < q -> round q = round_pos (Qred q).
Proof.
  intros H. unfold round.
  assert (E : (0 ?= Qred q) = Lt).
  { apply (proj1 (Qlt_alt _ _)). now rewrite Qred_correct. }
  now rewrite E.
Qed.

Lemma round_le_grid (q : Q) (K F : Z) :
  0 < q -> q < 2 ^ (F + 53) -> (-1074 <= F)%Z ->
  q <= inject_Z K * 2 ^ F -> round q <= inject_Z K * 2 ^ F.
Proof.
  intros Hq Hlt HF H. rewrite (round_positive q Hq).
  apply round_pos_le_grid; [|now rewrite Qred_correct].
  apply ulp_exponent_lt; trivial; now rewrite Qred_correct.
Qed.

Lemma round_ge_grid (q : Q) (K F : Z) :
  0 < q -> q < 2 ^ (F + 53) -> (-1074 <= F)%Z ->
  inject_Z K * 2 ^ F <= q -> inject_Z K * 2 ^ F <= round q.
Proof.
  intros Hq Hlt HF H. rewrite (round_positive q Hq).
  apply round_pos_ge_grid; [|now rewrite Qred_correct].
  apply ulp_exponent_lt; trivial; now rewrite Qred_correct.
Qed.

Lemma round_le_int (q : Q) (K : Z) :
  0 < q -> q < 9007199254740992 -> q <= inject_Z K -> round q <= inject_Z K.
Proof.
  intros Hq Hlt H.
  assert (E : inject_Z K == inject_Z K * 2 ^ 0) by (change (2 ^ 0) with 1; ring).
  rewrite E. apply round_le_grid; trivial; [lia | now rewrite <- E].
Qed.

Lemma round_ge_int (q : Q) (K : Z) :
  0 < q -> q < 9007199254740992 -> inject_Z K <= q -> inject_Z K <= round q.
Proof.
  intros Hq Hlt H.
  assert (E : inject_Z K == inject_Z K * 2 ^ 0) by (change (2 ^ 0) with 1; ring).
  rewrite E. apply round_ge_grid; trivial; [lia | now rewrite <- E].
Qed.

Lemma round_exact_int (q : Q) (K : Z) :
  0 < q -> q < 9007199254740992 -> q == inject_Z K -> round q == q.
Proof.
  intros Hq Hlt H. apply Qle_antisym.
  - rewrite H at 2. apply round_le_int; trivial. lra.
  - rewrite H at 1. apply round_ge_int; trivial. lra.
Qed.

Lemma round_exact_grid (q : Q) (K F : Z) :
  0 < q -> q < 2 ^ (F + 53) -> (-1074 <= F)%Z ->
  q == inject_Z K * 2 ^ F -> round q == q.
Proof.
  intros Hq Hlt HF H. apply Qle_antisym.
  - rewrite H at 2. apply round_le_grid; trivial. lra.
  - rewrite H at 1. apply round_ge_grid; trivial. lra.
Qed.

(** A rounded value of the binade of [2^k] or above is a multiple of
    [2^(k-52)]. *)
Lemma round_on_grid (q : Q) (k : Z) :
  2 ^ k <= q -> exists K, round q == inject_Z K * 2 ^ (k - 52).
Proof.
  intros H.
  assert (Hq : 0 < q) by (pose proof (pow2_pos k); lra).
  rewrite (round_positive q Hq).
  assert (H' : 2 ^ k <= Qred q) by now rewrite Qred_correct.
  pose proof (Qlog2_ge _ _ H') as He.
  assert (HE : (k - 52 <= ulp_exponent (Qred q))%Z) by (unfold ulp_exponent; lia).
  eexists. rewrite round_pos_eq. apply (scaled_grid _ _ _ HE).
Qed.

(** The relative error of a rounding in the normal range is at most
    [2^-53]. *)
Lemma round_rel (q : Q) :
  2 ^ (-1022) <= q ->
  q - q * (1 # 9007199254740992) <= round q /\
  round q <= q + q * (1 # 9007199254740992).
Proof.
  intros H.
  assert (Hq : 0 < q) by (pose proof (pow2_pos (-1022)); lra).
  rewrite (round_positive q Hq).
  assert (H' : 2 ^ (-1022) <= Qred q) by now rewrite Qred_correct.
  pose proof (ulp_exponent_normal _ H') as Hu.
  destruct (round_pos_error (Qred q)) as [E1 E2].
  pose proof (Qred_correct q) as Hr. lra.
Qed.

Lemma rounded_finite (q : Q) :
  0 < q -> q < 9007199254740992 -> rounded q = Finite (round q).
Proof.
  intros Hq Hlt. unfold rounded.
  assert (H0 : 0 <= round q).
  { apply (round_ge_int q 0 Hq Hlt). unfold inject_Z. lra. }
  assert (H1 : round q <= 9007199254740992).
  { apply (round_le_int q 9007199254740992 Hq Hlt). unfold inject_Z. lra. }
  rewrite Qabs_pos by exact H0.
  destruct (Qle_bool (2 ^ 1024) (round q)) eqn:E; [|reflexivity].
  exfalso. apply Qle_bool_iff in E.
  assert (9007199254740992 < 2 ^ 1024).
  { change 9007199254740992 with (2 ^ 53). now apply pow2_lt. }
  lra.
Qed.

End Rounding.

Section Placing.
Open Scope Q_scope.

Lemma rounded_proper (p q : Q) : p == q -> rounded p = rounded q.
Proof. intros H. unfold rounded. now rewrite (round_proper p q H). Qed.

Lemma Qzero_false (q : Q) : 0 < q -> Qzero q = false.
Proof.
  intros H. unfold Qzero. destruct (Qeq_bool q 0) eqn:E; [|reflexivity].
  apply Qeq_bool_iff in E. lra.
Qed.

Lemma of_N_exact (n : N) :
  (0 < n)%N -> (n < 9007199254740992)%N ->
  exists q, of_N n = Finite q /\ q == inject_Z (Z.of_N n).
Proof.
  intros H0 H1. exists (round (inject_Z (Z.of_N n))).
  assert (P : 0 < inject_Z (Z.of_N n)).
  { change 0 with (inject_Z 0). rewrite <- Zlt_Qlt. lia. }
  assert (B : inject_Z (Z.of_N n) < 9007199254740992).
  { change 9007199254740992 with (inject_Z 9007199254740992). rewrite <- Zlt_Qlt. lia. }
  split.
  - unfold of_N. now apply rounded_finite.
  - apply (round_exact_int _ (Z.of_N n)); trivial. reflexivity.
Qed.

(** The quotient of two pixel sizes. *)
Lemma ratio_of_sizes (w h : N) :
  (0 < w)%N -> (w < 4294967296)%N -> (0 < h)%N -> (h < 4294967296)%N ->
  ndiv (of_N w) (of_N h) =
  Finite (round (inject_Z (Z.of_N w) / inject_Z (Z.of_N h))).
Proof.
  intros Hw0 Hw1 Hh0 Hh1.
  destruct (of_N_exact w Hw0) as (a & -> & Ea); [lia|].
  destruct (of_N_exact h Hh0) as (b & -> & Eb); [lia|].
  set (W := inject_Z (Z.of_N w)) in *. set (H := inject_Z (Z.of_N h)) in *.
  assert (PW : 1 <= W).
  { unfold W. change 1 with (inject_Z 1). rewrite <- Zle_Qle. lia. }
  assert (PH : 1 <= H).
  { unfold H. change 1 with (inject_Z 1). rewrite <- Zle_Qle. lia. }
  assert (BW : W <= 4294967296).
  { unfold W. change 4294967296 with (inject_Z 4294967296). rewrite <- Zle_Qle. lia. }
  simpl. rewrite Qzero_false by lra.
  assert (E : a / b == W / H) by (rewrite Ea, Eb; reflexivity).
  rewrite (rounded_proper _ _ E).
  apply rounded_finite.
  - apply Qlt_shift_div_l; lra.
  - apply Qlt_shift_div_r; lra.
Qed.


(** *** The arithmetic of the placement *)

Section Sizes.

Variables W H : Q.
Hypothesis W_low : 1 <= W.
Hypothesis W_high : W <= 4294967295.
Hypothesis H_low : 1 <= H.
Hypothesis H_high : H <= 4294967295.

Let r : Q := round (W / H).

Lemma ratio_error : W - W * (1 # 9007199254740992) <= r * H /\ r * H <= W + W * (1 # 9007199254740992) /\ 0 < r.
Proof.
  assert (P : 0 < W / H) by (apply Qlt_shift_div_l; lra).
  assert (N : 2 ^ (-1022) <= W / H).
  { apply Qle_trans with (2 ^ (-32)); [apply pow2_le; lia|].
    change (2 ^ (-32)) with (1 # 4294967296).
    apply Qle_shift_div_l; lra. }
  destruct (round_rel (W / H) N) as [R1 R2]. fold r in R1, R2.
  assert (E : W / H * H == W) by (field; lra).
  assert (L : (W / H - W / H * (1 # 9007199254740992)) * H <= r * H).
  { apply Qmult_le_compat_r; lra. }
  assert (U : r * H <= (W / H + W / H * (1 # 9007199254740992)) * H).
  { apply Qmult_le_compat_r; lra. }
  setoid_replace ((W / H - W / H * (1 # 9007199254740992)) * H)
    with (W - W * (1 # 9007199254740992)) in L by (field; lra).
  setoid_replace ((W / H + W / H * (1 # 9007199254740992)) * H)
    with (W + W * (1 # 9007199254740992)) in U by (field; lra).
  split; [exact L|]. split; [exact U|]. lra.
Qed.

Lemma ratio_range : 1 # 8589934592 <= r /\ r <= 8589934592.
Proof.
  destruct ratio_error as (L & U & P). split.
  - apply Qmult_le_r with H; [lra|].
    apply Qle_trans with (W - W * (1 # 9007199254740992)); [|exact L]. lra.
  - apply Qmult_le_r with H; [lra|].
    apply Qle_trans with (W + W * (1 # 9007199254740992)); [exact U|]. lra.
Qed.

(** The height derived from the content width. *)
Let q : Q := 190 / r.

Lemma derived_height_range : 0 < q /\ q < 9007199254740992 /\ 2 ^ (-1022) <= q.
Proof.
  destruct ratio_range as [L U]. destruct ratio_error as (_ & _ & P).
  assert (Q0 : 0 < q) by (apply Qlt_shift_div_l; lra).
  split; [exact Q0|]. split.
  - apply Qlt_shift_div_r; lra.
  - apply Qle_trans with (2 ^ (-26)); [apply pow2_le; lia|].
    change (2 ^ (-26)) with (1 # 67108864).
    apply Qle_shift_div_l; lra.
Qed.

Lemma wide_quotient : 190 * H + 1 <= 277 * W -> q <= 277.
Proof.
  intros A. destruct ratio_error as (L & U & P).
  apply Qle_shift_div_r; [exact P|].
  apply Qmult_le_r with H; [lra|].
  setoid_replace (277 * r * H) with (277 * (r * H)) by ring. lra.
Qed.

Lemma tall_product : 277 * W + 1 <= 190 * H -> 0 < 277 * r /\ 277 * r <= 190.
Proof.
  intros B. destruct ratio_error as (L & U & P). split; [lra|].
  apply Qmult_le_r with H; [lra|].
  setoid_replace (277 * r * H) with (277 * (r * H)) by ring. lra.
Qed.

(** A ratio above the content ratio is not too tall. *)
Lemma not_too_tall : 190 * H + 1 <= 277 * W -> round q <= 277.
Proof.
  intros A. destruct ratio_error as (L & U & P).
  destruct derived_height_range as (Q0 & Q1 & _).
  apply (round_le_int q 277 Q0 Q1). unfold inject_Z.
  apply Qle_shift_div_r; [exact P|].
  apply Qmult_le_r with H; [lra|].
  setoid_replace (277 * r * H) with (277 * (r * H)) by ring. lra.
Qed.

(** A ratio below the content ratio is too tall. *)
Lemma too_tall : 277 * W + 1 <= 190 * H -> 277 < round q.
Proof.
  intros B. destruct ratio_error as (L & U & P).
  destruct derived_height_range as (Q0 & Q1 & _).
  assert (G : 277 + (1 # 17592186044416) <= q).
  { apply Qle_shift_div_l; [exact P|].
    apply Qmult_le_r with H; [lra|].
    setoid_replace ((277 + (1 # 17592186044416)) * r * H)
      with ((277 + (1 # 17592186044416)) * (r * H)) by ring. lra. }
  destruct (Qlt_le_dec q 512) as [Small | Large].
  - assert (R : inject_Z 4873035534303233 * 2 ^ (-44) <= round q).
    { apply round_ge_grid; [exact Q0 | exact Small | lia |].
      change (inject_Z 4873035534303233 * 2 ^ (-44))
        with ((4873035534303233 # 1) * (1 # 17592186044416)). lra. }
    change (inject_Z 4873035534303233 * 2 ^ (-44))
      with ((4873035534303233 # 1) * (1 # 17592186044416)) in R. lra.
  - assert (R : inject_Z 512 <= round q).
    { apply round_ge_int; trivial. }
    unfold inject_Z in R. lra.
Qed.

(** The width derived from the content height fits the content width. *)
Lemma derived_width : 277 * W + 1 <= 190 * H ->
  0 < round (277 * r) /\ round (277 * r) <= 190 /\
  round (277 * r) * H - 277 * W <= 277 * W * (1 # 2251799813685248) /\
  277 * W - round (277 * r) * H <= 277 * W * (1 # 2251799813685248).
Proof.
  intros B. destruct ratio_error as (L & U & P).
  destruct ratio_range as [RL RU].
  assert (P0 : 0 < 277 * r) by lra.
  assert (P1 : 277 * r < 9007199254740992) by lra.
  assert (N : 2 ^ (-1022) <= 277 * r).
  { apply Qle_trans with (2 ^ (-33)); [apply pow2_le; lia|].
    change (2 ^ (-33)) with (1 # 8589934592). lra. }
  destruct (round_rel _ N) as [E1 E2].
  set (fw := round (277 * r)) in *.
  assert (T : 277 * r <= 190).
  { apply Qmult_le_r with H; [lra|].
    setoid_replace (277 * r * H) with (277 * (r * H)) by ring. lra. }
  assert (F1 : (277 * r - 277 * r * (1 # 9007199254740992)) * H <= fw * H).
  { apply Qmult_le_compat_r; lra. }
  assert (F2 : fw * H <= (277 * r + 277 * r * (1 # 9007199254740992)) * H).
  { apply Qmult_le_compat_r; lra. }
  setoid_replace ((277 * r - 277 * r * (1 # 9007199254740992)) * H)
    with (277 * (r * H) - 277 * (r * H) * (1 # 9007199254740992)) in F1 by ring.
  setoid_replace ((277 * r + 277 * r * (1 # 9007199254740992)) * H)
    with (277 * (r * H) + 277 * (r * H) * (1 # 9007199254740992)) in F2 by ring.
  split; [lra|]. split.
  - apply (round_le_int _ 190 P0 P1). unfold inject_Z. exact T.
  - split; lra.
Qed.

(** The derived height follows the ratio. *)
Lemma derived_height :
  0 < round q /\
  round q * W - 190 * H <= 190 * H * (1 # 2251799813685248) /\
  190 * H - round q * W <= 190 * H * (1 # 2251799813685248).
Proof.
  destruct ratio_error as (L & U & P).
  destruct derived_height_range as (Q0 & Q1 & N).
  destruct (round_rel _ N) as [E1 E2].
  set (fh := round q) in *.
  assert (Eq : q * r == 190) by (unfold q; field; lra).
  assert (F1 : (q - q * (1 # 9007199254740992)) * (r * H) <= fh * (r * H)).
  { apply Qmult_le_compat_r; [lra|]. lra. }
  assert (F2 : fh * (r * H) <= (q + q * (1 # 9007199254740992)) * (r * H)).
  { apply Qmult_le_compat_r; [lra|]. lra. }
  setoid_replace ((q - q * (1 # 9007199254740992)) * (r * H))
    with (q * r * H - q * r * H * (1 # 9007199254740992)) in F1 by ring.
  setoid_replace ((q + q * (1 # 9007199254740992)) * (r * H))
    with (q * r * H + q * r * H * (1 # 9007199254740992)) in F2 by ring.
  rewrite Eq in F1, F2.
  assert (Pf : 0 < fh) by lra.
  assert (G1 : fh * (W - W * (1 # 9007199254740992)) <= fh * (r * H)).
  { apply Qmult_le_l; lra. }
  assert (G2 : fh * (r * H) <= fh * (W + W * (1 # 9007199254740992))).
  { apply Qmult_le_l; lra. }
  setoid_replace (fh * (W - W * (1 # 9007199254740992)))
    with (fh * W - fh * W * (1 # 9007199254740992)) in G1 by ring.
  setoid_replace (fh * (W + W * (1 # 9007199254740992)))
    with (fh * W + fh * W * (1 # 9007199254740992)) in G2 by ring.
  split; [exact Pf|]. split; lra.
Qed.

End Sizes.


(** *** Centring *)

(** [(L - f) / 2] for a page length [L] and an image length [f] that
    leaves the margins free. *)
Lemma centred (L : Z) (f : Q) :
  (L <= 297)%Z -> 0 <= f -> f + 20 <= inject_Z L ->
  ndiv (nsub (num L) (Finite f)) (num 2) = Finite (centre_of L f) /\
  10 <= centre_of L f /\
  2 * centre_of L f + f - inject_Z L <= 1 # 8796093022208 /\
  inject_Z L - (2 * centre_of L f + f) <= 1 # 8796093022208.
Proof.
  intros HL Hf Hfit. unfold centre_of.
  assert (BL : inject_Z L <= 297).
  { change 297 with (inject_Z 297). now rewrite <- Zle_Qle. }
  remember (inject_Z L - f) as d eqn:Ed.
  assert (Ed' : d == inject_Z L - f) by (rewrite Ed; reflexivity).
  assert (D0 : 0 < d) by lra.
  assert (D1 : d < 9007199254740992) by lra.
  assert (DN : 2 ^ (-1022) <= d).
  { apply Qle_trans with (2 ^ 0); [apply pow2_le; lia|]. change (2 ^ 0) with 1. lra. }
  destruct (round_rel d DN) as [E1 E2].
  assert (G : 20 <= round d).
  { apply (round_ge_int d 20 D0 D1). unfold inject_Z. lra. }
  remember (round d) as D eqn:ED.
  remember (D / 2) as half eqn:Eh.
  assert (Eh' : half == D * (1 # 2)) by (rewrite Eh; field).
  assert (H0 : 0 < half) by lra.
  assert (H1 : half < 9007199254740992) by lra.
  assert (HN : 2 ^ (-1022) <= half).
  { apply Qle_trans with (2 ^ 0); [apply pow2_le; lia|]. change (2 ^ 0) with 1. lra. }
  destruct (round_rel half HN) as [F1 F2].
  assert (G2 : 10 <= round half).
  { apply (round_ge_int half 10 H0 H1). unfold inject_Z. lra. }
  split.
  - unfold nsub, num. rewrite <- Ed. rewrite (rounded_finite d D0 D1). rewrite <- ED.
    unfold ndiv. change (Qzero (inject_Z 2)) with false. cbv iota.
    change (inject_Z 2) with 2. rewrite <- Eh.
    exact (rounded_finite half H0 H1).
  - split; [exact G2|]. split; lra.
Qed.

(** The far side of a centred image whose length is a rounded value stays
    within the margin: exactly, not only up to rounding. *)
Lemma centred_far_side (L : Z) (g : Q) :
  (210 <= L)%Z -> (L <= 297)%Z -> 0 < g -> g < 512 ->
  round g + 20 <= inject_Z L ->
  centre_of L (round g) + round g <= inject_Z L - 10.
Proof.
  intros HL0 HL1 Hg0 Hg1 Hfit. unfold centre_of.
  assert (BL0 : 210 <= inject_Z L).
  { change 210 with (inject_Z 210). now rewrite <- Zle_Qle. }
  assert (BL1 : inject_Z L <= 297).
  { change 297 with (inject_Z 297). now rewrite <- Zle_Qle. }
  assert (F0 : 0 <= round g).
  { apply (round_ge_int g 0 Hg0); [lra | unfold inject_Z; lra]. }
  remember (round g) as f eqn:Ef.
  remember (inject_Z L - f) as d eqn:Ed.
  assert (Ed' : d == inject_Z L - f) by (rewrite Ed; reflexivity).
  assert (D0 : 0 < d) by lra.
  assert (D1 : d < 9007199254740992) by lra.
  assert (DN : 2 ^ (-1022) <= d).
  { apply Qle_trans with (2 ^ 0); [apply pow2_le; lia|]. change (2 ^ 0) with 1. lra. }
  destruct (Qlt_le_dec d 30) as [Near | Far].
  - (* the image nearly fills the length: nothing is rounded *)
    assert (G128 : 2 ^ 7 <= g).
    { change (2 ^ 7) with 128.
      destruct (Qlt_le_dec g 128) as [Hlt | Hge]; [|exact Hge]. exfalso.
      assert (f <= 128).
      { rewrite Ef. apply (round_le_int g 128 Hg0); [lra | unfold inject_Z; lra]. }
      lra. }
    destruct (round_on_grid g 7 G128) as [K HK]. rewrite <- Ef in HK.
    change (2 ^ (7 - 52)) with (1 # 35184372088832) in HK.
    assert (Gd : d == inject_Z (L * 35184372088832 - K) * 2 ^ (-45)).
    { change (2 ^ (-45)) with (1 # 35184372088832).
      unfold Z.sub. rewrite inject_Z_plus, inject_Z_mult, inject_Z_opp.
      change (inject_Z 35184372088832) with 35184372088832. rewrite Ed', HK. field. }
    assert (Rd : round d == d).
    { apply (round_exact_grid d (L * 35184372088832 - K) (-45) D0); [|lia|exact Gd].
      change (2 ^ (-45 + 53)) with 256. lra. }
    assert (Eh : round d / 2 == d * (1 # 2)) by (rewrite Rd; field).
    rewrite (round_proper _ _ Eh).
    assert (Gh : d * (1 # 2) == inject_Z (L * 35184372088832 - K) * 2 ^ (-46)).
    { rewrite Gd. change (2 ^ (-45)) with (1 # 35184372088832).
      change (2 ^ (-46)) with (1 # 70368744177664). field. }
    assert (Rh : round (d * (1 # 2)) == d * (1 # 2)).
    { apply (round_exact_grid _ (L * 35184372088832 - K) (-46)); [lra | | lia | exact Gh].
      change (2 ^ (-46 + 53)) with 128. lra. }
    rewrite Rh. lra.
  - (* room to spare *)
    destruct (round_rel d DN) as [E1 E2].
    remember (round d) as D eqn:ED.
    remember (D / 2) as half eqn:Eh.
    assert (Eh' : half == D * (1 # 2)) by (rewrite Eh; field).
    assert (HN : 2 ^ (-1022) <= half).
    { apply Qle_trans with (2 ^ 0); [apply pow2_le; lia|]. change (2 ^ 0) with 1. lra. }
    destruct (round_rel half HN) as [F1 F2]. lra.
Qed.

Lemma height_of_ratio (r : Q) :
  1 # 8589934592 <= r -> r <= 8589934592 ->
  ndiv pageWidth (Finite r) = Finite (round (190 / r)).
Proof.
  intros L U. change pageWidth with (Finite 190). unfold ndiv.
  rewrite Qzero_false by lra. apply rounded_finite.
  - apply Qlt_shift_div_l; lra.
  - apply Qlt_shift_div_r; lra.
Qed.

Lemma width_of_ratio (r : Q) :
  1 # 8589934592 <= r -> r <= 8589934592 ->
  nmul pageHeight (Finite r) = Finite (round (277 * r)).
Proof.
  intros L U. change pageHeight with (Finite 277). unfold nmul.
  apply rounded_finite; lra.
Qed.

Lemma size_as_rational (n : N) :
  (0 < n)%N -> (n < 4294967296)%N ->
  1 <= inject_Z (Z.of_N n) /\ inject_Z (Z.of_N n) <= 4294967295.
Proof.
  intros H0 H1. split.
  - change 1 with (inject_Z 1). rewrite <- Zle_Qle. lia.
  - change 4294967295 with (inject_Z 4294967295). rewrite <- Zle_Qle. lia.
Qed.

End Placing.

(* ================================================================== *)
(** * Properties *)
(* ================================================================== *)

(** ** The download file name *)

Section Filename.

Lemma substring_all (t : string) : substring 0 (String.length t) t = t.
Proof. induction t as [|c t IH]; simpl; [reflexivity | now rewrite IH]. Qed.

Lemma substring_skip_app (s t : string) :
  substring (String.length s) (String.length t) (s ++ t) = t.
Proof. induction s as [|c s IH]; simpl; [apply substring_all | exact IH]. Qed.

Lemma string_length_app (s t : string) :
  String.length (s ++ t) = (String.length s + String.length t)%nat.
Proof. induction s as [|c s IH]; simpl; [reflexivity | now rewrite IH]. Qed.

Lemma string_app_assoc (a b c : string) : (a ++ b) ++ c = a ++ (b ++ c).
Proof. induction a as [|ch a IH]; simpl; [reflexivity | now rewrite IH]. Qed.

Lemma string_app_nil_r (a : string) : a ++ EmptyString = a.
Proof. induction a as [|ch a IH]; simpl; [reflexivity | now rewrite IH]. Qed.

Lemma cut_at (s : string) :
  forall k, (k <= String.length s)%nat ->
    s = substring 0 k s ++ substring k (String.length s - k) s.
Proof.
  induction s as [|c s IH]; intros [|k] Hk; simpl in *.
  - reflexivity.
  - lia.
  - now rewrite substring_all.
  - f_equal. apply IH. lia.
Qed.

(** [endsWith] recognises exactly the strings that have the suffix. *)
Lemma endsWith_iff (s t : string) :
  endsWith s t = true <-> exists p, s = p ++ t.
Proof.
  unfold endsWith. split.
  - destruct (Nat.leb_spec (String.length t) (String.length s)) as [Hle|Hlt];
      [|discriminate].
    intros H. apply String.eqb_eq in H.
    exists (substring 0 (String.length s - String.length t) s).
    pose proof (cut_at s (String.length s - String.length t)) as Hc.
    replace (String.length s - (String.length s - String.length t))%nat
      with (String.length t) in Hc by lia.
    rewrite H in Hc. apply Hc. lia.
  - intros [p ->]. rewrite string_length_app.
    replace (String.length t <=? String.length p + String.length t)%nat with true
      by (symmetry; apply Nat.leb_le; lia).
    replace (String.length p + String.length t - String.length t)%nat
      with (String.length p) by lia.
    rewrite substring_skip_app. apply String.eqb_refl.
Qed.

Lemma endsWith_app (s t : string) : endsWith (s ++ t) t = true.
Proof. apply endsWith_iff. now exists s. Qed.

End Filename.

(** C7. For every user-entered file name [s], the download name is [s]
    itself when [s] already ends with ".pdf", and otherwise [s] followed by
    ".pdf" once; applying the mapping to its own output changes nothing. *)
Theorem finalPdfFilename_suffix_once (s : string) :
  ((exists p, s = p ++ ".pdf") -> finalPdfFilename s = s) /\
  (~ (exists p, s = p ++ ".pdf") -> finalPdfFilename s = s ++ ".pdf") /\
  finalPdfFilename (finalPdfFilename s) = finalPdfFilename s.
Proof.
  unfold finalPdfFilename.
  destruct (endsWith s ".pdf") eqn:E.
  - rewrite E. repeat split; trivial.
    intros H. exfalso. apply H. now apply endsWith_iff.
  - rewrite endsWith_app. repeat split; trivial.
    intros H. apply endsWith_iff in H. congruence.
Qed.

Lemma finalPdfFilename_examples :
  finalPdfFilename "report" = "report.pdf" /\
  finalPdfFilename "report.pdf" = "report.pdf" /\
  finalPdfFilename (finalPdfFilename "report") = finalPdfFilename "report".
Proof.
  destruct (finalPdfFilename_suffix_once "report") as (_ & Hno & Hidem).
  destruct (finalPdfFilename_suffix_once "report.pdf") as (Hyes & _ & _).
  split; [|split].
  - apply Hno. intros H. apply endsWith_iff in H. discriminate H.
  - apply Hyes. now exists "report".
  - exact Hidem.
Defined.

(** ** Resetting the session *)

Section StartOver.

Variable env : Env.

Lemma run_main_forEach_revoke (l : list ImageFile) (k : Proc unit) :
  forall st tr ps,
    run_main env (forEach l (fun img => revokeObjectURL (originalUrl img)) k) st tr ps =
    run_main env k st
      (tr ++ map (fun img => (MainTask, revokeObjectURL (originalUrl img))) l)%list ps.
Proof.
  induction l as [|img l IH]; intros st tr ps; simpl.
  - now rewrite app_nil_r.
  - unfold forEach in IH. rewrite IH. now rewrite <- app_assoc.
Qed.

Lemma revoked_app (t1 t2 : Trace) : revoked (t1 ++ t2)%list = (revoked t1 ++ revoked t2)%list.
Proof.
  induction t1 as [|[who a] t1 IH]; simpl; [reflexivity|].
  destruct a; simpl; now rewrite ?IH.
Qed.

Lemma revoked_map_revoke (l : list ImageFile) :
  revoked (map (fun img => (MainTask, revokeObjectURL (originalUrl img))) l) =
  map originalUrl l.
Proof. induction l as [|img l IH]; simpl; [reflexivity | now rewrite IH]. Qed.

End StartOver.

(** C8. "Start over", from any session, releases the display URL of every
    upload item and the output URL when there is one (a non-empty [pdfUrl]),
    each once: the released URLs are exactly the held ones, in order, so a
    resource that is held once is released exactly once. The handler returns
    and the session is back to [IDLE] with no upload, no output reference and
    empty progress and error texts. *)
Theorem startOver_releases_and_resets (env : Env) (s : Session) :
  let w := click_startOver env s in
  revoked (trace w) = held_resources s /\
  (forall u, count_occ string_dec (held_resources s) u = 1%nat ->
             count_occ string_dec (revoked (trace w)) u = 1%nat) /\
  main w = MainDone (inr tt) /\
  session (store w) =
    {| imageFiles := [];
       processingState := IDLE;
       pdfFilename := pdfFilename s;
       pdfUrl := None;
       progressMessage := EmptyString;
       errorMessage := EmptyString;
       showPdfPreview := false |}.
Proof.
  assert (H : let w := click_startOver env s in
              revoked (trace w) = held_resources s /\
              main w = MainDone (inr tt) /\
              session (store w) =
                {| imageFiles := [];
                   processingState := IDLE;
                   pdfFilename := pdfFilename s;
                   pdfUrl := None;
                   progressMessage := EmptyString;
                   errorMessage := EmptyString;
                   showPdfPreview := false |}).
  { unfold click_startOver, startOver, held_resources, held_output.
    rewrite run_main_forEach_revoke. unfold when_truthy.
    destruct (pdfUrl s) as [u|]; [destruct (truthy u)|]; simpl;
      rewrite !revoked_app, revoked_map_revoke; simpl; rewrite ?app_nil_r; auto. }
  cbv zeta in *. destruct H as (Hr & Hm & Hs).
  repeat split; trivial. intros u Hu. now rewrite Hr.
Qed.

Lemma startOver_sample :
  revoked (trace (click_startOver Sample.all_well Sample.finished)) =
    ["blob:a.jpg"; "blob:pdf"] /\
  count_occ string_dec
    (revoked (trace (click_startOver Sample.all_well Sample.finished))) "blob:pdf" = 1%nat /\
  processingState (session (store (click_startOver Sample.all_well Sample.finished))) = IDLE.
Proof.
  destruct (startOver_releases_and_resets Sample.all_well Sample.finished)
    as (Hr & Hc & _ & Hs).
  split; [exact Hr|]. split.
  - apply Hc. reflexivity.
  - now rewrite Hs.
Defined.

(** ** The empty upload sequence *)

(** C4. With an empty upload sequence the handler only sets the validation
    message and returns: no clean-up call, no call to the layout library, no
    promise left pending, and the status (so [IDLE], when it was [IDLE]) and
    every other cell of the session are what they were. No later turn of the
    event loop changes anything. *)
Theorem empty_upload_is_rejected (env : Env) (s : Session) :
  imageFiles s = [] ->
  let w := click_process env s in
  trace w = [(MainTask, setErrorMessage "Please upload at least one image.")] /\
  calls (trace w) = [] /\
  filter (fun x => is_layout (snd x)) (trace w) = [] /\
  promises w = [] /\
  main w = MainDone (inr tt) /\
  doc (store w) = None /\
  session (store w) =
    {| imageFiles := [];
       processingState := processingState s;
       pdfFilename := pdfFilename s;
       pdfUrl := pdfUrl s;
       progressMessage := progressMessage s;
       errorMessage := "Please upload at least one image.";
       showPdfPreview := showPdfPreview s |} /\
  (processingState s = IDLE -> processingState (session (store w)) = IDLE) /\
  forall sched, run env w sched = w.
Proof.
  intros He w. subst w. unfold click_process, handleProcessImages.
  rewrite He. simpl. rewrite ?He. do 8 (split; [auto|]).
  intros sched. induction sched as [|tk sched IH]; [reflexivity|].
  simpl. destruct tk as [i|]; simpl.
  - destruct i; exact IH.
  - exact IH.
Qed.

Lemma empty_upload_sample :
  processingState (session (store (click_process Sample.all_well initial_session))) = IDLE /\
  errorMessage (session (store (click_process Sample.all_well initial_session))) =
    "Please upload at least one image." /\
  calls (trace (click_process Sample.all_well initial_session)) = [].
Proof.
  destruct (empty_upload_is_rejected Sample.all_well initial_session eq_refl)
    as (_ & Hc & _ & _ & _ & _ & Hs & Hidle & _).
  split; [apply Hidle; reflexivity|]. split; [now rewrite Hs | exact Hc].
Defined.
(** ** Fitting an image on the page *)

Section Geometry.

Open Scope Q_scope.

(** The rectangle of an image whose sizes are positive and below [2^32]:
    which dimension is fixed, how far the derived one and the centring are
    from the exact values, and that the image keeps within the margins. *)
Lemma place_analysis (imgData : string) (w h : N) :
  (0 < w)%N -> (w < 4294967296)%N -> (0 < h)%N -> (h < 4294967296)%N ->
  let W := inject_Z (Z.of_N w) in
  let H := inject_Z (Z.of_N h) in
  exists x y fw fh,
    place imgData w h =
      {| p_data := imgData; p_format := "JPEG";
         p_x := Finite x; p_y := Finite y; p_w := Finite fw; p_h := Finite fh |} /\
    ((190 * h <= 277 * w)%N ->
       fw == 190 /\ x == 10 /\ fh <= 277 /\
       fh * W - 190 * H <= 190 * H * (1 # 2251799813685248) /\
       190 * H - fh * W <= 190 * H * (1 # 2251799813685248)) /\
    ((277 * w < 190 * h)%N ->
       fh == 277 /\ y == 10 /\ fw <= 190 /\
       fw * H - 277 * W <= 277 * W * (1 # 2251799813685248) /\
       277 * W - fw * H <= 277 * W * (1 # 2251799813685248)) /\
    0 < fw /\ 0 < fh /\ 10 <= x /\ 10 <= y /\
    2 * x + fw - 210 <= 1 # 8796093022208 /\
    210 - (2 * x + fw) <= 1 # 8796093022208 /\
    2 * y + fh - 297 <= 1 # 8796093022208 /\
    297 - (2 * y + fh) <= 1 # 8796093022208 /\
    x + fw <= 200 /\ y + fh <= 287.
Proof.
  intros Hw0 Hw1 Hh0 Hh1 W H.
  destruct (size_as_rational w Hw0 Hw1) as [W_low W_high].
  destruct (size_as_rational h Hh0 Hh1) as [H_low H_high].
  fold W in W_low, W_high. fold H in H_low, H_high.
  unfold place. rewrite (ratio_of_sizes w h Hw0 Hw1 Hh0 Hh1). fold W H.
  destruct (Z.lt_trichotomy (190 * Z.of_N h) (277 * Z.of_N w)) as [Wide | [Same | Tall]].
  - (* wider than the content rectangle *)
    assert (A : 190 * H + 1 <= 277 * W).
    { unfold W, H. change 190 with (inject_Z 190). change 277 with (inject_Z 277).
      change 1 with (inject_Z 1).
      rewrite <- !inject_Z_mult, <- inject_Z_plus, <- Zle_Qle. lia. }
    destruct (ratio_range W H W_low W_high H_low H_high) as [RL RU].
    pose proof (not_too_tall W H W_low W_high H_low H_high A) as NT.
    destruct (derived_height W H W_low W_high H_low H_high) as (Pf & R1 & R2).
    set (r := round (W / H)) in *.
    rewrite (height_of_ratio r RL RU).
    set (fh := round (190 / r)) in *.
    assert (E : ngt (Finite fh) pageHeight = false).
    { change pageHeight with (Finite 277). unfold ngt.
      apply negb_false_iff, Qle_bool_iff. exact NT. }
    rewrite E.
    destruct (centred 297 fh) as (Ey & Gy & Cy1 & Cy2); [lia | lra | unfold inject_Z; lra |].
    assert (My : centre_of 297 fh + fh <= 287).
    { assert (Qw : 190 / r <= 277) by (apply wide_quotient; assumption).
      destruct (derived_height_range W H W_low W_high H_low H_high) as (Q0 & _ & _).
      apply (centred_far_side 297 (190 / r)); [lia | lia | exact Q0 | | ].
      - lra.
      - fold fh. unfold inject_Z. lra. }
    set (y := centre_of 297 fh) in *.
    fold A4_HEIGHT in Ey. rewrite Ey.
    exists 10, y, 190, fh. split; [reflexivity|].
    unfold inject_Z in Cy1, Cy2.
    split; [intros _; repeat split; try reflexivity; assumption|].
    split; [intros B; exfalso; lia|].
    repeat split; try assumption; try reflexivity; try discriminate.
  - (* the ratio of the content rectangle *)
    assert (E : W / H == 190 # 277).
    { assert (S : 190 * H == 277 * W).
      { unfold W, H. change 190 with (inject_Z 190). change 277 with (inject_Z 277).
        rewrite <- !inject_Z_mult. now rewrite Same. }
      apply Qmult_inj_r with H; [lra|].
      setoid_replace (W / H * H) with W by (field; lra). lra. }
    rewrite (round_proper _ _ E).
    exists 10, 10, 190, 277. split; [vm_compute; reflexivity|].
    assert (S : 190 * H == 277 * W).
    { unfold W, H. change 190 with (inject_Z 190). change 277 with (inject_Z 277).
      rewrite <- !inject_Z_mult. now rewrite Same. }
    split; [intros _; repeat split; try reflexivity; try discriminate; lra|].
    split; [intros B; exfalso; lia|].
    repeat split; try reflexivity; try discriminate.
  - (* taller than the content rectangle *)
    assert (B : 277 * W + 1 <= 190 * H).
    { unfold W, H. change 190 with (inject_Z 190). change 277 with (inject_Z 277).
      change 1 with (inject_Z 1).
      rewrite <- !inject_Z_mult, <- inject_Z_plus, <- Zle_Qle. lia. }
    destruct (ratio_range W H W_low W_high H_low H_high) as [RL RU].
    pose proof (too_tall W H W_low W_high H_low H_high B) as TT.
    destruct (derived_width W H W_low W_high H_low H_high B) as (Pf & Fit & R1 & R2).
    set (r := round (W / H)) in *.
    rewrite (height_of_ratio r RL RU).
    assert (E : ngt (Finite (round (190 / r))) pageHeight = true).
    { change pageHeight with (Finite 277). unfold ngt.
      apply negb_true_iff. destruct (Qle_bool (round (190 / r)) 277) eqn:Q; [|reflexivity].
      apply Qle_bool_iff in Q. lra. }
    rewrite E. rewrite (width_of_ratio r RL RU).
    set (fw := round (277 * r)) in *.
    destruct (centred 210 fw) as (Ex & Gx & Cx1 & Cx2); [lia | lra | unfold inject_Z; lra |].
    assert (Mx : centre_of 210 fw + fw <= 200).
    { assert (T : 0 < 277 * r /\ 277 * r <= 190) by (apply tall_product; assumption).
      destruct T as [T0 T1].
      apply (centred_far_side 210 (277 * r)); [lia | lia | exact T0 | lra |].
      fold fw. unfold inject_Z. lra. }
    set (x := centre_of 210 fw) in *.
    fold A4_WIDTH in Ex. rewrite Ex.
    exists x, 10, fw, 277. split; [reflexivity|].
    unfold inject_Z in Cx1, Cx2.
    split; [intros A; exfalso; lia|].
    split; [intros _; repeat split; try reflexivity; assumption|].
    repeat split; try assumption; try reflexivity; try discriminate.
Qed.

End Geometry.

(** C5, as the code has it. The numbers of the code are binary64 numbers, so
    the derived dimension and the centring are exact up to rounding only.
    For an image of [w] by [h] pixels, both positive and below [2^32]: when
    its aspect ratio is at least that of the content rectangle (190/277),
    the image is drawn 190 wide, at [x = 10], with a height of at most 277
    that is within a relative [2^-51] of the height that keeps the ratio;
    when the ratio is smaller, it is drawn 277 high, at [y = 10], with a
    width of at most 190 that is within a relative [2^-51] of the width that
    keeps the ratio. In both cases the free space left of the image differs
    from the free space right of it by at most [2^-43], and likewise above
    and below. *)
Theorem place_fits_and_centres (imgData : string) (w h : N) :
  (0 < w < 4294967296)%N -> (0 < h < 4294967296)%N ->
  let W := inject_Z (Z.of_N w) in
  let H := inject_Z (Z.of_N h) in
  exists x y fw fh : Q,
    place imgData w h =
      {| p_data := imgData; p_format := "JPEG";
         p_x := Finite x; p_y := Finite y; p_w := Finite fw; p_h := Finite fh |} /\
    ((190 * h <= 277 * w)%N ->
       (fw == 190 /\ x == 10 /\ 0 < fh /\ fh <= 277 /\
        Qabs (fh * W - 190 * H) <= (1 # 2251799813685248) * (190 * H))%Q) /\
    ((277 * w < 190 * h)%N ->
       (fh == 277 /\ y == 10 /\ 0 < fw /\ fw <= 190 /\
        Qabs (fw * H - 277 * W) <= (1 # 2251799813685248) * (277 * W))%Q) /\
    (Qabs (x - (210 - (x + fw))) <= 1 # 8796093022208)%Q /\
    (Qabs (y - (297 - (y + fh))) <= 1 # 8796093022208)%Q.
Proof.
  intros [Hw0 Hw1] [Hh0 Hh1] W H.
  destruct (place_analysis imgData w h Hw0 Hw1 Hh0 Hh1)
    as (x & y & fw & fh & E & Wide & Tall & Pw & Ph & _ & _ & Cx1 & Cx2 & Cy1 & Cy2 & _).
  fold W H in Wide, Tall.
  exists x, y, fw, fh. split; [exact E|].
  split; [|split; [|split]].
  - intros A. destruct (Wide A) as (Ew & Ex & Fit & R1 & R2).
    repeat split; trivial.
    apply Qabs_Qle_condition. split; lra.
  - intros B. destruct (Tall B) as (Eh & Ey & Fit & R1 & R2).
    repeat split; trivial.
    apply Qabs_Qle_condition. split; lra.
  - apply Qabs_Qle_condition. split; lra.
  - apply Qabs_Qle_condition. split; lra.
Qed.

Lemma place_landscape_and_portrait :
  (exists fw, p_w (place "data:," 300 200) = Finite fw /\ (fw == 190)%Q) /\
  (exists fh, p_h (place "data:," 100 200) = Finite fh /\ (fh == 277)%Q).
Proof.
  destruct (place_fits_and_centres "data:," 300 200) as (x & y & fw & fh & E & A & _);
    [lia | lia |].
  destruct (place_fits_and_centres "data:," 100 200) as (x' & y' & fw' & fh' & E' & _ & B & _);
    [lia | lia |].
  split.
  - exists fw. rewrite E. split; [reflexivity|]. apply A. lia.
  - exists fh'. rewrite E'. split; [reflexivity|]. apply B. lia.
Defined.

(** C5 as stated fails: for an image of 300 by 200 pixels the height that is
    drawn is not the height that the ratio gives (190 divided by 3/2 is no
    binary64 number), and the free space above the image is not the free
    space below it. *)
Lemma place_centre_is_rounded :
  exists y fh : Q,
    p_y (place "data:," 300 200) = Finite y /\
    p_h (place "data:," 300 200) = Finite fh /\
    p_w (place "data:," 300 200) = Finite 190 /\
    ~ (fh * (300 # 200) == 190)%Q /\
    ~ (y == 297 - (y + fh))%Q.
Proof.
  exists (2996535689565525 # 35184372088832)%Q, (8913374262504107 # 70368744177664)%Q.
  split; [vm_compute; reflexivity|]. split; [vm_compute; reflexivity|].
  split; [vm_compute; reflexivity|].
  split; intros H; vm_compute in H; discriminate.
Qed.

(** [place] gives the rectangle that the primitive binary64 numbers give,
    on the sample sizes. *)
Lemma place_agrees_with_binary64 :
  forallb (fun '(w, h) => agree w h) sample_sizes = true.
Proof. vm_compute. reflexivity. Qed.

(** An image without width or without height: the quotient is zero or
    infinite, and the rectangle has no area. *)
Lemma place_degenerate (imgData : string) :
  place imgData 0 200 =
    {| p_data := imgData; p_format := "JPEG";
       p_x := Finite 105; p_y := Finite 10; p_w := Finite 0; p_h := Finite 277 |} /\
  place imgData 200 0 =
    {| p_data := imgData; p_format := "JPEG";
       p_x := Finite 10; p_y := Finite (297 # 2); p_w := Finite 190; p_h := Finite 0 |} /\
  p_h (place imgData 0 0) = NaN.
Proof. repeat split; vm_compute; reflexivity. Qed.

(** The operations on [Number] give what the primitive binary64 operations
    give, on the sample values: rounding to nearest with ties to even,
    subnormal results, overflow to infinity, and the rules for the
    infinities and NaN. *)
Lemma operations_agree_with_binary64 :
  forallb (fun '(f, g) => operations_agree f g) (list_prod sample_floats sample_floats)
  = true.
Proof. vm_compute. reflexivity. Qed.

(** ** The layout loop *)

Section Layout.

Variable env : Env.

Lemma step_done (w : World) (r : Thrown + unit) :
  main w = MainDone r -> step env w TMain = w.
Proof. intros H. unfold step. now rewrite H. Qed.

Lemma run_app (w : World) (s1 s2 : list Tick) :
  run env w (s1 ++ s2)%list = run env (run env w s1) s2.
Proof. apply fold_left_app. Qed.








Hypothesis no_faults : no_fault env.


End Layout.





(** ** The clean-up service *)

Section CleanImage.

Variable env : Env.
Variable who : Actor.

(** How a thrown value leaves the [catch] block of [cleanImage]. *)
Lemma cleanImage_try_outcome (f : File) :
  outcome env who (cleanImage_try f) =
  match reader_outcome env who f with
  | onerror => inl NonError
  | onload result =>
      match parse_data_url result with
      | inl e => inl e
      | inr (m, d) =>
          match model_outcome env who m d with
          | inl e => inl e
          | inr response => read_response response
          end
      end
  end.
Proof.
  unfold outcome, cleanImage_try, fileToBase64. simpl.
  destruct (reader_outcome env who f) as [result|]; simpl; [|reflexivity].
  destruct (parse_data_url result) as [e|[m d]]; simpl; [reflexivity|].
  destruct (model_outcome env who m d) as [e|response]; simpl; [reflexivity|].
  destruct (read_response response); reflexivity.
Qed.

Lemma cleanImage_outcome (f : File) :
  outcome env who (cleanImage f) =
  match outcome env who (cleanImage_try f) with
  | inr uri => inr uri
  | inl (ErrorObj message) =>
      inl (ErrorObj ("Failed to process image with AI. " ++ message))
  | inl NonError =>
      inl (ErrorObj "Failed to process image with AI. An unknown error occurred.")
  end.
Proof.
  rewrite cleanImage_try_outcome.
  unfold outcome, cleanImage, cleanImage_try, fileToBase64. simpl.
  destruct (reader_outcome env who f) as [result|]; simpl; [|reflexivity].
  destruct (parse_data_url result) as [e|[m d]]; simpl.
  { destruct e; reflexivity. }
  destruct (model_outcome env who m d) as [e|response]; simpl.
  { destruct e; reflexivity. }
  destruct (read_response response) as [e|uri]; simpl; [|reflexivity].
  destruct e; reflexivity.
Qed.

End CleanImage.

Section Response.

Lemma truthy_iff (s : string) : truthy s = true <-> s <> EmptyString.
Proof. destruct s; simpl; split; congruence. Qed.

Lemma find_part_parts (pred : Part -> bool) (c : Candidate) :
  find_part pred c = find pred (parts_of c).
Proof.
  unfold find_part, parts_of.
  destruct (content c) as [[[ps|]]|]; reflexivity.
Qed.

Lemma first_candidate_none (r : GenerateContentResponse) :
  first_candidate r = None <-> no_candidate r.
Proof.
  unfold first_candidate, no_candidate.
  destruct (candidates r) as [[|c l]|]; split; intros H; auto;
    try discriminate; destruct H; discriminate.
Qed.

Lemma abnormal_finish_some (c : Candidate) (fr : string) :
  abnormal_finish c = Some fr <->
  finishReason c = Some fr /\ fr <> EmptyString /\ fr <> "STOP".
Proof.
  unfold abnormal_finish. destruct (finishReason c) as [x|]; [|split; [discriminate|]].
  - destruct (truthy x) eqn:Et, (String.eqb_spec x "STOP") as [Es|Es]; simpl; split.
    + discriminate.
    + intros (E & _ & Hn). injection E as ->. contradiction.
    + intros E. injection E as ->. apply truthy_iff in Et. auto.
    + intros (E & _). exact E.
    + discriminate.
    + intros (E & Hn & _). injection E as ->. apply truthy_iff in Hn. congruence.
    + discriminate.
    + intros (E & Hn & _). injection E as ->. apply truthy_iff in Hn. congruence.
  - intros (E & _). discriminate.
Qed.

Lemma abnormal_finish_none (c : Candidate) :
  abnormal_finish c = None <-> ~ stopped_abnormally c.
Proof.
  split.
  - intros H (fr & Hfr). apply abnormal_finish_some in Hfr. congruence.
  - intros H. destruct (abnormal_finish c) as [fr|] eqn:E; [|reflexivity].
    exfalso. apply H. exists fr. now apply abnormal_finish_some.
Qed.

Lemma find_image (c : Candidate) :
  (exists p d, find has_inlineData (parts_of c) = Some p /\ inlineData p = Some d) <->
  carries_image c.
Proof.
  split.
  - intros (p & d & Hf & Hd). apply find_some in Hf as [Hin _]. now exists p, d.
  - intros (p & d & Hin & Hd).
    destruct (find has_inlineData (parts_of c)) as [q|] eqn:Ef.
    + apply find_some in Ef as Hq. destruct Hq as [_ Hq].
      unfold has_inlineData in Hq. destruct (inlineData q) as [dq|] eqn:Eq; [|discriminate].
      now exists q, dq.
    + apply (find_none _ _ Ef) in Hin. unfold has_inlineData in Hin.
      rewrite Hd in Hin. discriminate.
Qed.

Lemma find_text (c : Candidate) :
  (exists p t, find has_text (parts_of c) = Some p /\ text p = Some t /\ t <> EmptyString) <->
  carries_text c.
Proof.
  split.
  - intros (p & t & Hf & Ht & Hne). apply find_some in Hf as [Hin _]. now exists p, t.
  - intros (p & t & Hin & Ht & Hne).
    destruct (find has_text (parts_of c)) as [q|] eqn:Ef.
    + apply find_some in Ef as Hq. destruct Hq as [_ Hq].
      unfold has_text, truthy_opt in Hq. destruct (text q) as [tq|] eqn:Eq; [|discriminate].
      apply truthy_iff in Hq. now exists q, tq.
    + apply (find_none _ _ Ef) in Hin. unfold has_text, truthy_opt in Hin.
      rewrite Ht in Hin. apply truthy_iff in Hne. congruence.
Qed.

Lemma find_image_none (c : Candidate) :
  ~ carries_image c -> find has_inlineData (parts_of c) = None.
Proof.
  intros H. destruct (find has_inlineData (parts_of c)) as [q|] eqn:Ef; [|reflexivity].
  exfalso. apply H. apply find_image.
  apply find_some in Ef as Hq. destruct Hq as [_ Hq].
  unfold has_inlineData in Hq. destruct (inlineData q) as [dq|] eqn:Eq; [|discriminate].
  now exists q, dq.
Qed.

Lemma find_text_none (c : Candidate) :
  ~ carries_text c -> find has_text (parts_of c) = None.
Proof.
  intros H. destruct (find has_text (parts_of c)) as [q|] eqn:Ef; [|reflexivity].
  exfalso. apply H. apply find_text.
  apply find_some in Ef as Hq. destruct Hq as [_ Hq].
  unfold has_text, truthy_opt in Hq. destruct (text q) as [tq|] eqn:Eq; [|discriminate].
  apply truthy_iff in Hq. now exists q, tq.
Qed.

Lemma read_response_no_candidate (r : GenerateContentResponse) :
  no_candidate r ->
  read_response r = inl (ErrorObj "API response did not contain any candidates.").
Proof.
  intros H. apply first_candidate_none in H. unfold read_response. now rewrite H.
Qed.

Lemma read_response_stopped (r : GenerateContentResponse) (c : Candidate) (fr : string) :
  first_candidate r = Some c ->
  finishReason c = Some fr -> fr <> EmptyString -> fr <> "STOP" ->
  read_response r = inl (ErrorObj (stop_reason fr (safetyRatings c))).
Proof.
  intros Hc Hfr Hne Hstop. unfold read_response. rewrite Hc.
  assert (H : abnormal_finish c = Some fr) by now apply abnormal_finish_some.
  now rewrite H.
Qed.

Lemma read_response_image (r : GenerateContentResponse) (c : Candidate) :
  first_candidate r = Some c -> ~ stopped_abnormally c -> carries_image c ->
  exists p img,
    find has_inlineData (parts_of c) = Some p /\ inlineData p = Some img /\
    read_response r =
      inr ("data:" ++ interpolate (mimeType img) ++ ";base64," ++ interpolate (data img)).
Proof.
  intros Hc Hn Hi. apply find_image in Hi as (p & img & Hf & Hd).
  exists p, img. repeat split; trivial.
  unfold read_response. rewrite Hc.
  apply abnormal_finish_none in Hn. rewrite Hn, find_part_parts, Hf.
  destruct p as [i t]. simpl in Hd. now rewrite Hd.
Qed.

Lemma read_response_text (r : GenerateContentResponse) (c : Candidate) :
  first_candidate r = Some c -> text_only c ->
  exists p t,
    find has_text (parts_of c) = Some p /\ text p = Some t /\
    read_response r =
      inl (ErrorObj ("API returned text instead of an image: " ++ dquote ++ t ++ dquote)).
Proof.
  intros Hc (Hn & Hi & Ht). apply find_text in Ht as (p & t & Hf & Ht & Hne).
  exists p, t. repeat split; trivial.
  unfold read_response. rewrite Hc.
  apply abnormal_finish_none in Hn. rewrite Hn, !find_part_parts.
  rewrite (find_image_none c Hi), Hf.
  destruct p as [i t']. simpl in Ht. rewrite Ht.
  apply truthy_iff in Hne. now rewrite Hne.
Qed.

Lemma read_response_empty (r : GenerateContentResponse) (c : Candidate) :
  first_candidate r = Some c -> empty_reply c ->
  read_response r =
    inl (ErrorObj "API did not return an image. The response was empty or malformed.").
Proof.
  intros Hc (Hn & Hi & Ht).
  unfold read_response. rewrite Hc.
  apply abnormal_finish_none in Hn. rewrite Hn, !find_part_parts.
  now rewrite (find_image_none c Hi), (find_text_none c Ht).
Qed.

(** The image and the text tests are decidable, so the cases are
    exhaustive. *)
Lemma response_cases (r : GenerateContentResponse) :
  failure_case r \/
  exists c, first_candidate r = Some c /\ ~ stopped_abnormally c /\ carries_image c.
Proof.
  destruct (first_candidate r) as [c|] eqn:Hc.
  - destruct (abnormal_finish c) as [fr|] eqn:Ha.
    + left. right. exists c. split; [exact Hc|]. left.
      exists fr. now apply abnormal_finish_some.
    + apply abnormal_finish_none in Ha.
      destruct (find has_inlineData (parts_of c)) as [p|] eqn:Ei.
      * right. exists c. repeat split; trivial. apply find_image.
        apply find_some in Ei as Hp. destruct Hp as [_ Hp].
        unfold has_inlineData in Hp. destruct (inlineData p) as [d|] eqn:Ed; [|discriminate].
        now exists p, d.
      * assert (Hni : ~ carries_image c).
        { intros H. apply find_image in H as (p & d & Hf & _). congruence. }
        left. right. exists c. split; [exact Hc|]. right.
        destruct (find has_text (parts_of c)) as [p|] eqn:Et.
        -- left. repeat split; trivial. apply find_text.
           apply find_some in Et as Hp. destruct Hp as [_ Hp].
           unfold has_text, truthy_opt in Hp.
           destruct (text p) as [t|] eqn:Etx; [|discriminate].
           apply truthy_iff in Hp. now exists p, t.
        -- right. repeat split; trivial.
           intros H. apply find_text in H as (p & t & Hf & _). congruence.
  - left. left. now apply first_candidate_none.
Qed.

Lemma stop_reason_mentions (fr : string) (ratings : option (list SafetyRating)) :
  occurs_in fr (stop_reason fr ratings) /\
  forall rs, ratings = Some rs -> rs <> [] ->
             occurs_in (JSON_stringify rs) (stop_reason fr ratings).
Proof.
  unfold stop_reason, occurs_in. split.
  - destruct ratings as [[|x rs]|].
    + exists "Image generation stopped. Reason: ", ".". reflexivity.
    + exists "Image generation stopped. Reason: ",
        ("." ++ " Safety Ratings: " ++ JSON_stringify (x :: rs)).
      now rewrite !string_app_assoc.
    + exists "Image generation stopped. Reason: ", ".". reflexivity.
  - intros rs -> Hne. destruct rs as [|x rs]; [congruence|].
    exists (("Image generation stopped. Reason: " ++ fr ++ ".") ++ " Safety Ratings: "),
      EmptyString.
    now rewrite string_app_nil_r, !string_app_assoc.
Qed.

End Response.

(** C9, as the code has it. [cleanImage] fails before any response exists
    when the file reader reports an error, when the data URL of the file
    cannot be parsed and when the request is rejected. Once the file has
    been read and the request has returned a response, it fails in exactly
    four cases, each message following the fixed prefix: (1) no candidate;
    (2) a completion reason that is present and is not STOP, the message
    containing the reason and, when there are any, the safety ratings as
    JSON; (3) after a normal completion, text but no image, the message
    quoting the first text; (4) neither image nor text, the malformed-response
    message. Otherwise it returns the data URI made of the mime type and
    the base64 payload of the first image part. *)
Theorem cleanImage_failure_cases (env : Env) (who : Actor) (f : File) :
  let res := outcome env who (cleanImage f) in
  (reader_outcome env who f = onerror ->
   res = inl (ErrorObj "Failed to process image with AI. An unknown error occurred.")) /\
  (forall result e,
     reader_outcome env who f = onload result -> parse_data_url result = inl e ->
     res = inl (ErrorObj
       "Failed to process image with AI. Failed to parse base64 string from file.")) /\
  (forall result m d e,
     reader_outcome env who f = onload result -> parse_data_url result = inr (m, d) ->
     model_outcome env who m d = inl e ->
     res = inl (ErrorObj ("Failed to process image with AI. " ++
                            match e with
                            | ErrorObj description => description
                            | NonError => "An unknown error occurred."
                            end))) /\
  (forall result m d response,
     reader_outcome env who f = onload result -> parse_data_url result = inr (m, d) ->
     model_outcome env who m d = inr response ->
     ((exists e, res = inl e) <-> failure_case response) /\
     (no_candidate response ->
      res = inl (ErrorObj
        "Failed to process image with AI. API response did not contain any candidates.")) /\
     (forall c, first_candidate response = Some c ->
        (forall fr, finishReason c = Some fr -> fr <> EmptyString -> fr <> "STOP" ->
           exists msg,
             res = inl (ErrorObj ("Failed to process image with AI. " ++ msg)) /\
             occurs_in fr msg /\
             forall rs, safetyRatings c = Some rs -> rs <> [] ->
                        occurs_in (JSON_stringify rs) msg) /\
        (text_only c ->
           exists p t,
             find has_text (parts_of c) = Some p /\ text p = Some t /\
             res = inl (ErrorObj
               ("Failed to process image with AI. API returned text instead of an image: "
                  ++ dquote ++ t ++ dquote))) /\
        (empty_reply c ->
           res = inl (ErrorObj
             ("Failed to process image with AI. "
                ++ "API did not return an image. The response was empty or malformed."))) /\
        (~ stopped_abnormally c -> carries_image c ->
           exists p img,
             find has_inlineData (parts_of c) = Some p /\ inlineData p = Some img /\
             res = inr ("data:" ++ interpolate (mimeType img)
                          ++ ";base64," ++ interpolate (data img))))).
Proof.
  intros res. subst res.
  rewrite cleanImage_outcome, cleanImage_try_outcome.
  split; [|split; [|split]].
  - intros ->. reflexivity.
  - intros result e -> Hp. rewrite Hp.
    unfold parse_data_url in Hp.
    destruct (nth_error (split ":" (nth 0 (split ";base64," result) EmptyString)) 1)
      as [m|]; [destruct (nth_error (split ";base64," result) 1) as [d|]|].
    + destruct (truthy m && truthy d); [discriminate|]. now injection Hp as <-.
    + now injection Hp as <-.
    + now injection Hp as <-.
  - intros result m d e -> -> ->. destruct e; reflexivity.
  - intros result m d response -> -> ->.
    split; [|split].
    + split.
      * intros [e He].
        destruct (response_cases response) as [Hf | (c & Hc & Hn & Hi)]; [exact Hf|].
        destruct (read_response_image response c Hc Hn Hi) as (p & img & _ & _ & Hr).
        rewrite Hr in He. discriminate.
      * intros [Hno | (c & Hc & [(fr & Hfr & Hne & Hstop) | [Ht | He]])].
        -- rewrite (read_response_no_candidate _ Hno). eauto.
        -- rewrite (read_response_stopped _ _ _ Hc Hfr Hne Hstop). eauto.
        -- destruct (read_response_text _ _ Hc Ht) as (p & t & _ & _ & Hr).
           rewrite Hr. eauto.
        -- rewrite (read_response_empty _ _ Hc He). eauto.
    + intros Hno. now rewrite (read_response_no_candidate _ Hno).
    + intros c Hc. split; [|split; [|split]].
      * intros fr Hfr Hne Hstop.
        rewrite (read_response_stopped _ _ _ Hc Hfr Hne Hstop).
        exists (stop_reason fr (safetyRatings c)).
        split; [reflexivity|]. apply stop_reason_mentions.
      * intros Ht. destruct (read_response_text _ _ Hc Ht) as (p & t & Hf & Htx & Hr).
        exists p, t. rewrite Hr. auto.
      * intros He. now rewrite (read_response_empty _ _ Hc He).
      * intros Hn Hi.
        destruct (read_response_image _ _ Hc Hn Hi) as (p & img & Hf & Hd & Hr).
        exists p, img. rewrite Hr. auto.
Qed.

Lemma cleanImage_sample_outcomes :
  outcome Sample.all_well (MapCallback 0) (cleanImage {| name := "a.jpg" |}) =
    inr "data:image/png;base64,QUJD" /\
  outcome Sample.blocked_env (MapCallback 0) (cleanImage {| name := "a.jpg" |}) =
    inl (ErrorObj ("Failed to process image with AI. "
                     ++ "Image generation stopped. Reason: SAFETY. Safety Ratings: [{}]")).
Proof.
  split.
  - destruct (cleanImage_failure_cases Sample.all_well (MapCallback 0) {| name := "a.jpg" |})
      as (_ & _ & _ & H).
    destruct (H _ "image/jpeg" "a.jpg" Sample.image_response eq_refl eq_refl eq_refl)
      as (_ & _ & Hc).
    destruct (Hc _ eq_refl) as (_ & _ & _ & Himg).
    destruct Himg as (p & img & Hf & Hd & Hr).
    + intros (fr & Hfr & _ & Hstop). injection Hfr as <-. congruence.
    + eexists _, _. split; [left; reflexivity | reflexivity].
    + injection Hf as <-. injection Hd as <-. exact Hr.
  - destruct (cleanImage_failure_cases Sample.blocked_env (MapCallback 0) {| name := "a.jpg" |})
      as (_ & _ & _ & H).
    destruct (H _ "image/jpeg" "a.jpg" Sample.blocked_response eq_refl eq_refl eq_refl)
      as (_ & _ & Hc).
    destruct (Hc _ eq_refl) as (Hstop & _).
    destruct (Hstop "SAFETY" eq_refl) as (msg & Hr & _); [discriminate | discriminate |].
    reflexivity.
Defined.

(** C9 as stated fails: the file reader of an empty file yields a data URL
    without payload; [cleanImage] fails although the service would answer
    every request with a clean image, so that no response is in any of the
    four cases. *)
Lemma cleanImage_fails_without_response :
  ~ (forall e,
       outcome Sample.empty_file_env (MapCallback 0) (cleanImage {| name := "a.jpg" |}) = inl e ->
       exists m d response,
         model_outcome Sample.empty_file_env (MapCallback 0) m d = inr response /\
         failure_case response).
Proof.
  intros H.
  destruct (H (ErrorObj
    "Failed to process image with AI. Failed to parse base64 string from file.") eq_refl)
    as (m & d & response & Hr & Hf).
  simpl in Hr. injection Hr as <-.
  destruct Hf as [[Hn | Hn] | (c & Hc & Hcase)]; try discriminate.
  injection Hc as <-.
  assert (Himg : carries_image
    {| finishReason := Some "STOP"; safetyRatings := None;
       content := Some {| parts := Some [
         {| inlineData := Some {| mimeType := Some "image/png"; data := Some "QUJD" |};
            text := None |} ] |} |}).
  { eexists _, _. split; [left; reflexivity | reflexivity]. }
  destruct Hcase as [(fr & Hfr & _ & Hstop) | [(_ & Hni & _) | (_ & Hni & _)]].
  - injection Hfr as <-. congruence.
  - contradiction.
  - contradiction.
Qed.

(** C10. Whenever [cleanImage] fails, whatever the cause (the reader, the
    parsing of the data URL, a rejected request or one of the response
    cases), the value it throws is an [Error] whose message starts with
    "Failed to process image with AI."; the rest is a space and the message
    of the cause when the cause is an [Error], and a fixed text otherwise. *)
Theorem cleanImage_error_prefix (env : Env) (who : Actor) (f : File) (e : Thrown) :
  outcome env who (cleanImage f) = inl e ->
  exists cause rest,
    outcome env who (cleanImage_try f) = inl cause /\
    e = ErrorObj ("Failed to process image with AI." ++ rest) /\
    match cause with
    | ErrorObj description => rest = " " ++ description
    | NonError => rest = " An unknown error occurred."
    end.
Proof.
  rewrite cleanImage_outcome.
  destruct (outcome env who (cleanImage_try f)) as [[description|]|uri]; intros H.
  - injection H as <-. exists (ErrorObj description), (" " ++ description). auto.
  - injection H as <-. exists NonError, " An unknown error occurred.". auto.
  - discriminate.
Qed.

Lemma cleanImage_error_prefix_sample :
  exists rest,
    outcome Sample.empty_file_env (MapCallback 0) (cleanImage {| name := "a.jpg" |}) =
      inl (ErrorObj ("Failed to process image with AI." ++ rest)) /\
    rest = " Failed to parse base64 string from file.".
Proof.
  destruct (cleanImage_error_prefix Sample.empty_file_env (MapCallback 0)
              {| name := "a.jpg" |} _ eq_refl) as (cause & rest & Hc & He & Hrest).
  exists rest. split.
  - injection He as He. now rewrite <- He.
  - vm_compute in Hc. injection Hc as <-. exact Hrest.
Defined.

(** ** The event loop after the click *)

Section Quiet.

Variable env : Env.

Lemma only_bind {C B A A'} (ok : Action -> bool) (p : Async C B A) (f : A -> Async C B A') :
  only ok p -> (forall a, only ok (f a)) -> only ok (bind p f).
Proof.
  intros Hp Hf.
  induction p as [a|e|act k IH|R c k IH|R req k IH|cs k IHk kerr IHe]; simpl in *; auto.
  destruct Hp. auto.
Qed.

Lemma only_try_catch {C B A} (ok : Action -> bool) (p : Async C B A)
  (h : Thrown -> Async C B A) :
  only ok p -> (forall e, only ok (h e)) -> only ok (try_catch p h).
Proof.
  intros Hp Hh.
  induction p as [a|e|act k IH|R c k IH|R req k IH|cs k IHk kerr IHe]; simpl in *; auto.
  destruct Hp. auto.
Qed.

Lemma only_on_settle {C B A} (ok : Action -> bool) (p : Async C B A)
  (log : Thrown + A -> Action) :
  only ok p -> (forall r, ok (log r) = true) -> only ok (on_settle p log).
Proof.
  intros Hp Hl.
  induction p as [a|e|act k IH|R c k IH|R req k IH|cs k IHk kerr IHe]; simpl in *; auto.
  destruct Hp. auto.
Qed.

Lemma silent_not_call (a : Action) : silent a = true -> not_call a = true.
Proof. destruct a; simpl; intros H; try discriminate; reflexivity. Qed.

Lemma silent_keeps_store (a : Action) (st : Store) :
  silent a = true -> apply_action a st = st.
Proof. destruct a; simpl; intros H; try discriminate; reflexivity. Qed.

Lemma trace_only_app (ok : Action -> bool) (t1 t2 : Trace) :
  trace_only ok t1 -> trace_only ok t2 -> trace_only ok (t1 ++ t2)%list.
Proof. intros H1 H2. apply Forall_app. now split. Qed.

Lemma trace_only_weaken (ok1 ok2 : Action -> bool) (tr : Trace) :
  (forall a, ok1 a = true -> ok2 a = true) -> trace_only ok1 tr -> trace_only ok2 tr.
Proof. intros Hw H. eapply Forall_impl; [|exact H]. intros x Hx. auto. Qed.

(** A job that performs only [ok] actions leaves only [ok] actions in the
    trace, and what remains of it does the same. *)
Lemma run_job_only {A} (ok : Action -> bool) (who : Actor) (p : Job A) :
  only ok p ->
  forall st st' tr t,
    run_job env who p st = (st', tr, t) ->
    trace_only ok tr /\ task_only ok t.
Proof.
  induction p as [a|e|act k IH|R c k IH|R req k IH|cs k IHk kerr IHe];
    simpl; intros Hp st st' tr t E.
  - injection E as <- <- <-. split; [constructor | exact I].
  - injection E as <- <- <-. split; [constructor | exact I].
  - destruct Hp as [Ha Hk].
    destruct (run_job env who k (apply_action act st)) as [[st1 tr1] t1] eqn:E1.
    injection E as <- <- <-.
    destruct (IH Hk _ _ _ _ E1) as [Htr Ht].
    split; [constructor; [exact Ha | exact Htr] | exact Ht].
  - eapply IH; [apply Hp | exact E].
  - injection E as <- <- <-. split; [constructor | exact Hp].
  - contradiction.
Qed.

Lemma run_job_silent {A} (who : Actor) (p : Job A) :
  only silent p ->
  forall st st' tr t, run_job env who p st = (st', tr, t) -> st' = st.
Proof.
  induction p as [a|e|act k IH|R c k IH|R req k IH|cs k IHk kerr IHe];
    simpl; intros Hp st st' tr t E.
  - now injection E as <- <- <-.
  - now injection E as <- <- <-.
  - destruct Hp as [Ha Hk].
    destruct (run_job env who k (apply_action act st)) as [[st1 tr1] t1] eqn:E1.
    injection E as <- <- <-.
    rewrite (IH Hk _ _ _ _ E1). now apply silent_keeps_store.
  - eapply IH; [apply Hp | exact E].
  - now injection E as <- <- <-.
  - contradiction.
Qed.

(** The main function, when it starts no promise: the promises are left as
    they are and the trace grows by [ok] actions. *)
Lemma run_main_only (ok : Action -> bool) (p : Proc unit) :
  only ok p ->
  forall st tr ps,
    exists tr',
      trace (run_main env p st tr ps) = (tr ++ tr')%list /\
      trace_only ok tr' /\
      promises (run_main env p st tr ps) = ps /\
      main_only ok (main (run_main env p st tr ps)).
Proof.
  induction p as [a|e|act k IH|R c k IH|R req k IH|cs k IHk kerr IHe];
    simpl; intros Hp st tr ps.
  - exists []. rewrite app_nil_r. repeat split; constructor.
  - exists []. rewrite app_nil_r. repeat split; constructor.
  - destruct Hp as [Ha Hk].
    destruct (IH Hk (apply_action act st) (tr ++ [(MainTask, act)])%list ps)
      as (tr' & Ht & Ho & Hps & Hm).
    exists ((MainTask, act) :: tr'). rewrite Ht, <- app_assoc.
    repeat split; trivial. constructor; assumption.
  - apply IH, Hp.
  - exists []. rewrite app_nil_r. repeat split; trivial. constructor.
  - contradiction.
Qed.

Lemma Forall_replace_nth {A} (P : A -> Prop) (i : nat) (x : A) (l : list A) :
  P x -> Forall P l -> Forall P (replace_nth i x l).
Proof.
  intros Hx Hl. revert i. induction Hl as [|y l Hy Hl IH]; intros [|i]; simpl;
    constructor; auto.
Qed.

Lemma replace_nth_length {A} (i : nat) (x : A) (l : list A) :
  length (replace_nth i x l) = length l.
Proof. revert i. induction l as [|y l IH]; intros [|i]; simpl; auto. Qed.

Lemma nth_error_replace_nth {A} (i : nat) (x y : A) (l : list A) :
  nth_error l i = Some y -> nth_error (replace_nth i x l) i = Some x.
Proof.
  revert i. induction l as [|z l IH]; intros [|i]; simpl; intros H;
    try discriminate; auto.
Qed.

(** One turn of the event loop keeps the world settled down and adds no
    clean-up call to the trace. *)
Lemma step_settled_down (w : World) (tk : Tick) :
  settled_down w ->
  exists tr',
    trace (step env w tk) = (trace w ++ tr')%list /\
    trace_only not_call tr' /\
    settled_down (step env w tk).
Proof.
  intros [Hps Hm].
  assert (Hsame : exists tr', trace w = (trace w ++ tr')%list /\
                              trace_only not_call tr' /\ settled_down w).
  { exists []. rewrite app_nil_r. repeat split; trivial. constructor. }
  destruct tk as [i|]; simpl.
  - destruct (nth_error (promises w) i) as [[r|R req k]|] eqn:En; trivial.
    assert (Hk : forall r, only silent (k r)).
    { apply nth_error_In in En. rewrite Forall_forall in Hps. apply (Hps _ En). }
    destruct (run_job env (MapCallback i) (k (answer env (MapCallback i) req)) (store w))
      as [[st' tr'] t] eqn:Er.
    destruct (run_job_only silent _ _ (Hk _) _ _ _ _ Er) as [Htr Ht].
    apply (trace_only_weaken _ _ _ silent_not_call) in Htr.
    assert (Hps' : Forall (task_only silent) (replace_nth i t (promises w)))
      by now apply Forall_replace_nth.
    assert (Hwait : exists tr'0,
      (trace w ++ tr')%list = (trace w ++ tr'0)%list /\ trace_only not_call tr'0 /\
      settled_down {| store := st'; trace := (trace w ++ tr')%list;
                      promises := replace_nth i t (promises w); main := main w |}).
    { exists tr'. repeat split; trivial. }
    assert (Hgo : forall p, only not_call p ->
      exists tr'0,
        trace (run_main env p st' (trace w ++ tr')%list (replace_nth i t (promises w))) =
          (trace w ++ tr'0)%list /\
        trace_only not_call tr'0 /\
        settled_down (run_main env p st' (trace w ++ tr')%list
                        (replace_nth i t (promises w)))).
    { intros p Hp.
      destruct (run_main_only not_call p Hp st' (trace w ++ tr')%list
                  (replace_nth i t (promises w))) as (tr2 & Ht2 & Ho2 & Hp2 & Hm2).
      exists (tr' ++ tr2)%list. rewrite Ht2, app_assoc.
      repeat split; trivial.
      - now apply trace_only_app.
      - now rewrite Hp2. }
    destruct (main w) as [r|R' req' k'|from k' kerr] eqn:Em; trivial.
    destruct (from <=? i)%nat; trivial.
    destruct Hm as [Hk' Hkerr].
    destruct t as [[e|v]|R2 req2 k2]; trivial.
    + apply Hgo, Hkerr.
    + destruct (all_fulfilled (skipn from (replace_nth i (Settled (inr v)) (promises w))))
        as [vs|]; trivial.
      apply Hgo, Hk'.
  - destruct (main w) as [r|R' req' k'|from k' kerr] eqn:Em; trivial.
    destruct (run_main_only not_call _ (Hm (answer env MainTask req'))
                (store w) (trace w) (promises w)) as (tr2 & Ht2 & Ho2 & Hp2 & Hm2).
    exists tr2. repeat split; trivial. now rewrite Hp2.
Qed.

Lemma run_settled_down (sched : list Tick) :
  forall w, settled_down w ->
  exists tr',
    trace (run env w sched) = (trace w ++ tr')%list /\
    trace_only not_call tr' /\
    settled_down (run env w sched).
Proof.
  induction sched as [|tk sched IH]; intros w Hw; simpl.
  - exists []. rewrite app_nil_r. repeat split; trivial; try apply Hw. constructor.
  - destruct (step_settled_down w tk Hw) as (tr1 & Ht1 & Ho1 & Hs1).
    destruct (IH _ Hs1) as (tr2 & Ht2 & Ho2 & Hs2).
    exists (tr1 ++ tr2)%list. rewrite Ht2, Ht1, app_assoc.
    repeat split; trivial; try apply Hs2. now apply trace_only_app.
Qed.

End Quiet.

(** ** How a promise settles *)

Section Settling.

Variable env : Env.

Lemma call_free_bind {C B A A'} (p : Async C B A) (f : A -> Async C B A') :
  call_free p -> (forall a, call_free (f a)) -> call_free (bind p f).
Proof.
  intros Hp Hf.
  induction p as [a|e|act k IH|R c k IH|R req k IH|cs k IHk kerr IHe]; simpl in *; auto.
Qed.

Lemma call_free_try_catch {C B A} (p : Async C B A) (h : Thrown -> Async C B A) :
  call_free p -> (forall e, call_free (h e)) -> call_free (try_catch p h).
Proof.
  intros Hp Hh.
  induction p as [a|e|act k IH|R c k IH|R req k IH|cs k IHk kerr IHe]; simpl in *; auto.
Qed.

Lemma call_free_on_settle {C B A} (p : Async C B A) (log : Thrown + A -> Action) :
  call_free p -> call_free (on_settle p log).
Proof.
  intros Hp.
  induction p as [a|e|act k IH|R c k IH|R req k IH|cs k IHk kerr IHe]; simpl in *; auto.
Qed.

(** Without synchronous calls, the store has no influence on the result. *)
Lemma finish_job_store {A} (who : Actor) (p : Job A) :
  call_free p ->
  forall st1 st2, snd (finish_job env who p st1) = snd (finish_job env who p st2).
Proof.
  induction p as [a|e|act k IH|R c k IH|R req k IH|cs k IHk kerr IHe];
    simpl; intros Hp st1 st2; trivial; try contradiction.
  - specialize (IH Hp (apply_action act st1) (apply_action act st2)).
    destruct (finish_job env who k (apply_action act st1)) as [[? ?] r1].
    destruct (finish_job env who k (apply_action act st2)) as [[? ?] r2].
    exact IH.
  - apply IH, Hp.
Qed.

Lemma outcome_do {A} (who : Actor) (act : Action) (k : Job A) :
  call_free k -> outcome env who (Do act k) = outcome env who k.
Proof.
  intros Hk. unfold outcome. simpl.
  pose proof (finish_job_store who k Hk (apply_action act blank_store) blank_store) as H.
  destruct (finish_job env who k (apply_action act blank_store)) as [[? ?] r1].
  exact H.
Qed.

(** Running a job up to its next [await] does not change what its promise
    settles to. *)
Lemma run_job_faithful {A} (who : Actor) (p : Job A) :
  call_free p ->
  forall st st' tr t,
    run_job env who p st = (st', tr, t) ->
    task_call_free t /\ task_result env who t = outcome env who p.
Proof.
  induction p as [a|e|act k IH|R c k IH|R req k IH|cs k IHk kerr IHe];
    simpl; intros Hp st st' tr t E; try contradiction.
  - injection E as <- <- <-. split; [exact I | reflexivity].
  - injection E as <- <- <-. split; [exact I | reflexivity].
  - destruct (run_job env who k (apply_action act st)) as [[st1 tr1] t1] eqn:E1.
    injection E as <- <- <-.
    destruct (IH Hp _ _ _ _ E1) as [Hf Hr].
    split; [exact Hf|]. now rewrite Hr, outcome_do.
  - injection E as <- <- <-. split; [exact Hp | reflexivity].
Qed.

Lemma cleanImage_try_call_free (f : File) : call_free (cleanImage_try f).
Proof.
  unfold cleanImage_try, fileToBase64. simpl. intros [result|]; simpl; [|exact I].
  destruct (parse_data_url result) as [e|[m d]]; simpl; [exact I|].
  intros [e|response]; [exact I|].
  destruct (read_response response); exact I.
Qed.

Lemma cleanImage_call_free (f : File) : call_free (cleanImage f).
Proof.
  change (call_free (on_settle (try_catch (cleanImage_try f) cleanImage_catch)
                       (cleanImage_settled f))).
  apply call_free_on_settle, call_free_try_catch.
  - apply cleanImage_try_call_free.
  - intros [m|]; exact I.
Qed.

Lemma clean_callback_call_free (n : nat) (img : ImageFile) (i : nat) :
  call_free (clean_callback n img i).
Proof.
  change (call_free (bind (cleanImage (file img))
                       (fun cleanedUrl => Return (with_cleanedUrl img (Some cleanedUrl))))).
  apply call_free_bind.
  - apply cleanImage_call_free.
  - intros a. exact I.
Qed.

(** The promise of a callback is rejected exactly as the call of
    [cleanImage] it awaits. *)
Lemma clean_callback_outcome (who : Actor) (n : nat) (img : ImageFile) (i : nat) :
  outcome env who (clean_callback n img i) =
  match outcome env who (cleanImage (file img)) with
  | inl e => inl e
  | inr uri => inr (with_cleanedUrl img (Some uri))
  end.
Proof.
  unfold outcome, clean_callback, cleanImage, cleanImage_try, fileToBase64. simpl.
  destruct (reader_outcome env who (file img)) as [result|]; simpl; [|reflexivity].
  destruct (parse_data_url result) as [e|[m d]]; simpl.
  { destruct e; reflexivity. }
  destruct (model_outcome env who m d) as [e|response]; simpl.
  { destruct e; reflexivity. }
  destruct (read_response response) as [e|uri]; simpl; [|reflexivity].
  destruct e; reflexivity.
Qed.

End Settling.

(** ** The click on the primary action *)

Section Click.

Variable env : Env.

(** A guarded call does what the guarded code does, or throws. *)
Lemma only_library {C B A} (ok : Action -> bool) (c : LibCall) (k : Async C B A) :
  only ok k -> only ok (library c k).
Proof. intros H [e|]; [exact I | exact H]. Qed.

Lemma layout_from_not_call (l : list ImageFile) :
  forall i (rest : Proc unit),
    only not_call rest -> only not_call (layout_from i l rest).
Proof.
  induction l as [|im l IH]; intros i rest Hrest; cbn [layout_from]; [exact Hrest|].
  destruct (cleanedUrl im) as [imgData|]; [|now apply IH].
  destruct (truthy imgData); [|now apply IH].
  assert (Hload : only not_call
    (Await (image_onload imgData) (fun '(imgWidth, imgHeight) =>
       library (addImage_call i (place imgData imgWidth imgHeight))
         (doc_addImage (place imgData imgWidth imgHeight) ;;
          layout_from (S i) l rest)))).
  { intros [wd ht]. apply only_library. split; [reflexivity|]. now apply IH. }
  destruct (0 <? i)%nat; [|exact Hload].
  apply only_library. split; [reflexivity | exact Hload].
Qed.

Lemma cleanImage_try_silent (f : File) : only silent (cleanImage_try f).
Proof.
  unfold cleanImage_try, fileToBase64. simpl. intros [result|]; simpl; [|exact I].
  destruct (parse_data_url result) as [e|[m d]]; simpl; [exact I|].
  intros [e|response]; [exact I|].
  destruct (read_response response); exact I.
Qed.

Lemma cleanImage_catch_silent (e : Thrown) : only silent (cleanImage_catch e).
Proof. destruct e; simpl; auto. Qed.

(** A callback of [imageFiles.map] sets the progress text, calls
    [cleanImage] and is suspended on the file reader; what remains of it is
    silent. *)
Lemma callback_start (n : nat) (img : ImageFile) (i : nat) (st : Store) :
  exists k,
    run_job env (MapCallback i) (clean_callback n img i) st =
      (apply_action (setProgressMessage (cleaning_message i n)) st,
       [(MapCallback i, setProgressMessage (cleaning_message i n));
        (MapCallback i, cleanImage_called (file img))],
       Suspended (readAsDataURL (file img)) k) /\
    (forall r, only silent (k r)) /\
    task_call_free (Suspended (readAsDataURL (file img)) k) /\
    task_result env (MapCallback i) (Suspended (readAsDataURL (file img)) k) =
      outcome env (MapCallback i) (clean_callback n img i).
Proof.
  eexists. split; [reflexivity|]. split;
    [|eapply (run_job_faithful env (MapCallback i) (clean_callback n img i)
                (clean_callback_call_free n img i) st); reflexivity].
  intros r.
  pose proof (only_bind silent
    (on_settle (try_catch (cleanImage_try (file img)) cleanImage_catch)
       (cleanImage_settled (file img)))
    (fun cleanedUrl => Return (with_cleanedUrl img (Some cleanedUrl)))) as H.
  apply H.
  - apply only_on_settle; [|reflexivity].
    apply only_try_catch; [apply cleanImage_try_silent | apply cleanImage_catch_silent].
  - intros a. exact I.
Qed.

Lemma spawn_callbacks (n : nat) (l : list ImageFile) :
  forall i st,
    exists st' ts,
      spawn env i (map_indexed (clean_callback n) i l) st = (st', started_trace n i l, ts) /\
      Forall (task_only silent) ts /\
      Forall is_suspended ts /\
      length ts = length l /\
      forall j img t,
        nth_error l j = Some img -> nth_error ts j = Some t ->
        task_call_free t /\
        task_result env (MapCallback (i + j)) t =
          outcome env (MapCallback (i + j)) (clean_callback n img (i + j)).
Proof.
  induction l as [|img l IH]; intros i st.
  - exists st, []. simpl. repeat split; try constructor.
    all: destruct j; discriminate.
  - destruct (callback_start n img i st) as (k & Hk & Hsil & Hcf & Hres).
    destruct (IH (S i) (apply_action (setProgressMessage (cleaning_message i n)) st))
      as (st' & ts & Hsp & Hts & Hsus & Hlen & Hfaith).
    exists st', (Suspended (readAsDataURL (file img)) k :: ts).
    cbn [map_indexed spawn]. rewrite Hk, Hsp.
    split; [reflexivity|]. split; [constructor; trivial|].
    split; [constructor; [exact I | trivial]|].
    split; [simpl; now rewrite Hlen|].
    intros [|j] img' t Hi Ht; simpl in Hi, Ht.
    + injection Hi as <-. injection Ht as <-. rewrite Nat.add_0_r. now split.
    + rewrite Nat.add_succ_r. apply (Hfaith j img' t Hi Ht).
Qed.

Lemma first_rejected_suspended {A} (ts : list (Task A)) :
  Forall is_suspended ts -> first_rejected ts = None.
Proof.
  induction 1 as [|t ts Ht Hts IH]; [reflexivity|].
  destruct t; [contradiction | exact IH].
Qed.

Lemma join_pending {A} (ts : list (Task A)) :
  Forall is_suspended ts -> ts <> [] -> join ts = JoinPending.
Proof.
  intros H Hne. unfold join. rewrite (first_rejected_suspended ts H).
  destruct ts as [|t ts]; [congruence|].
  inversion H as [|? ? Ht _]; subst. destruct t; [contradiction | reflexivity].
Qed.

Lemma publish_not_call : only not_call publish.
Proof.
  unfold publish. apply only_library. intros d. apply only_library. intros u.
  cbn. auto.
Qed.

Lemma assemble_not_call (vs : list ImageFile) : only not_call (assemble vs).
Proof.
  unfold assemble. apply only_try_catch; [|intros e; cbn; auto].
  split; [reflexivity|]. split; [reflexivity|].
  apply only_library, only_library. split; [reflexivity|].
  apply layout_from_not_call, publish_not_call.
Qed.

Lemma report_not_call (e : Thrown) : only not_call (report e).
Proof. cbn. auto. Qed.

(** The world right after the click on a non-empty upload sequence. *)
Lemma click_world (s : Session) :
  imageFiles s <> [] ->
  exists st ts k kerr,
    click_process env s =
      {| store := st;
         trace := ([(MainTask, setProcessingState PROCESSING);
                    (MainTask, setErrorMessage EmptyString)]
                   ++ started_trace (length (imageFiles s)) 0 (imageFiles s))%list;
         promises := ts;
         main := MainJoining 0 k kerr |} /\
    Forall (task_only silent) ts /\
    Forall is_suspended ts /\
    (forall vs, only not_call (k vs)) /\
    (forall e, only not_call (kerr e)) /\
    reports_error env kerr /\
    faithful env s ts.
Proof.
  intros Hne.
  destruct (spawn_callbacks (length (imageFiles s)) (imageFiles s) 0
    (apply_action (setErrorMessage EmptyString)
       (apply_action (setProcessingState PROCESSING)
          {| session := s; doc := None |})))
    as (st' & ts & Hsp & Hsil & Hsus & Hlen & Hfaith).
  assert (Hts : ts <> []).
  { intros ->. destruct (imageFiles s); [congruence | discriminate]. }
  exists st', ts, assemble, report.
  split; [|split; [|split; [|split; [|split; [|split]]]]].
  - unfold click_process, handleProcessImages, await_all.
    destruct (length (imageFiles s) =? 0)%nat eqn:E.
    { apply Nat.eqb_eq in E. destruct (imageFiles s); [congruence | discriminate]. }
    cbn [run_main try_catch bind]. cbn [length].
    rewrite Hsp, (join_pending ts Hsus Hts). reflexivity.
  - exact Hsil.
  - exact Hsus.
  - exact assemble_not_call.
  - exact report_not_call.
  - intros e st tr ps. cbn. auto.
  - split; [exact Hlen|]. intros i img t Hi Ht. apply (Hfaith i img t Hi Ht).
Qed.

Lemma click_settled_down (s : Session) :
  imageFiles s <> [] -> settled_down (click_process env s).
Proof.
  intros Hne. destruct (click_world s Hne) as (st & ts & k & kerr & -> & Hsil & _ & Hk & He & _).
  split; simpl; auto.
Qed.

Lemma click_faithful (s : Session) :
  imageFiles s <> [] -> faithful env s (promises (click_process env s)).
Proof.
  intros Hne.
  destruct (click_world s Hne) as (st & ts & k & kerr & -> & _ & _ & _ & _ & _ & Hf).
  exact Hf.
Qed.

Lemma click_joining (s : Session) :
  imageFiles s <> [] -> joining env (click_process env s).
Proof.
  intros Hne. destruct (click_world s Hne) as (st & ts & k & kerr & -> & _ & Hsus & _ & _ & Hr & _).
  exists k, kerr. simpl. split; [reflexivity|]. split; [exact Hr|].
  now apply first_rejected_suspended.
Qed.

(** *** The calls recorded in a trace *)

Lemma calls_after_quiet (tr : Trace) :
  trace_only not_call tr -> forall prev, calls_after prev tr = [].
Proof.
  induction 1 as [|[who a] tr Ha Htr IH]; intros prev; simpl; [reflexivity|].
  destruct a; simpl in *; try apply IH. discriminate.
Qed.

Lemma calls_after_app (t1 t2 : Trace) :
  trace_only not_call t2 ->
  forall prev, calls_after prev (t1 ++ t2)%list = calls_after prev t1.
Proof.
  intros H2. induction t1 as [|[who a] t1 IH]; intros prev; simpl.
  - now apply calls_after_quiet.
  - destruct a; simpl; rewrite IH; reflexivity.
Qed.

Lemma calls_started (n : nat) (l : list ImageFile) :
  forall i prev,
    calls_after prev (started_trace n i l) =
    map_indexed (fun img index =>
        (Some (setProgressMessage (cleaning_message index n)), file img)) i l.
Proof.
  induction l as [|img l IH]; intros i prev; simpl; [reflexivity|].
  now rewrite IH.
Qed.

(** Whatever the schedule, the calls of [cleanImage] are those made by the
    callbacks during the click. *)
Lemma calls_along_run (s : Session) (sched : list Tick) :
  imageFiles s <> [] ->
  calls (trace (run env (click_process env s) sched)) =
  map_indexed (fun img index =>
      (Some (setProgressMessage (cleaning_message index (length (imageFiles s)))),
       file img)) 0 (imageFiles s).
Proof.
  intros Hne.
  destruct (run_settled_down env sched _ (click_settled_down s Hne)) as (tr' & -> & Hq & _).
  unfold calls. rewrite calls_after_app by exact Hq.
  destruct (click_world s Hne) as (st & ts & k & kerr & -> & _).
  simpl. apply calls_started.
Qed.

End Click.

(** ** Rejections and the state of [Promise.all] *)

Section Phases.

Variable env : Env.

Lemma first_rejected_nth {A} (ps : list (Task A)) :
  forall k e, nth_error ps k = Some (Settled (inl e)) -> first_rejected ps <> None.
Proof.
  induction ps as [|t ps IH]; intros [|k] e H; simpl in *; try discriminate.
  - injection H as ->. discriminate.
  - destruct t as [[e'|v]|R req kk]; try discriminate; eapply IH; eassumption.
Qed.

Lemma first_rejected_replace_none {A} (ps : list (Task A)) (t : Task A) :
  (forall e, t <> Settled (inl e)) ->
  forall i, first_rejected ps = None -> first_rejected (replace_nth i t ps) = None.
Proof.
  intros Ht. induction ps as [|h ps IH]; intros [|i] H; simpl in *; trivial.
  - destruct h as [[e'|v]|R req kk]; try discriminate;
      destruct t as [[e|v']|R' req' k']; trivial; exfalso; now apply (Ht e).
  - destruct h as [[e'|v]|R req kk]; try discriminate; now apply IH.
Qed.

Lemma first_rejected_replace_some {A} (ps : list (Task A)) (t : Task A) :
  forall i R (req : Request R) k,
    nth_error ps i = Some (Suspended req k) ->
    first_rejected ps <> None -> first_rejected (replace_nth i t ps) <> None.
Proof.
  induction ps as [|h ps IH]; intros [|i] R req k Hn H; simpl in *; try discriminate.
  - injection Hn as ->. simpl in H.
    destruct t as [[e|v']|R' req' k']; trivial. discriminate.
  - destruct h as [[e'|v]|R' req' kk]; try discriminate; eapply IH; eassumption.
Qed.

Lemma all_fulfilled_settled {A} (ps : list (Task A)) :
  forall vs, all_fulfilled ps = Some vs -> Forall is_settled ps.
Proof.
  induction ps as [|h ps IH]; intros vs H; [constructor|].
  simpl in H. destruct h as [[e|v]|R req k]; try discriminate.
  destruct (all_fulfilled ps) as [vs'|]; [|discriminate].
  constructor; [exact I | now apply (IH vs')].
Qed.

Lemma settled_not_suspended {A} (ps : list (Task A)) (i : nat) R (req : Request R) k :
  Forall is_settled ps -> nth_error ps i <> Some (Suspended req k).
Proof.
  intros H E. apply nth_error_In in E. rewrite Forall_forall in H.
  apply (H _ E).
Qed.

(** What one turn does to the promises: nothing, or the promise that was
    resumed takes its new state. *)
Lemma step_promises (w : World) (tk : Tick) :
  settled_down w ->
  promises (step env w tk) = promises w \/
  exists i R (req : Request R) k st' tr' t,
    tk = TChild i /\
    nth_error (promises w) i = Some (Suspended req k) /\
    run_job env (MapCallback i) (k (answer env (MapCallback i) req)) (store w) =
      (st', tr', t) /\
    promises (step env w tk) = replace_nth i t (promises w).
Proof.
  intros [Hps Hm]. destruct tk as [i|]; simpl.
  - destruct (nth_error (promises w) i) as [[r|R req k]|] eqn:En; auto.
    destruct (run_job env (MapCallback i) (k (answer env (MapCallback i) req)) (store w))
      as [[st' tr'] t] eqn:Er.
    right. exists i, R, req, k, st', tr', t. repeat split; trivial.
    destruct (main w) as [r|R' req' k'|from k' kerr]; trivial.
    destruct Hm as [Hk Hkerr].
    destruct (from <=? i)%nat; trivial.
    destruct t as [[e|v]|R2 req2 k2]; trivial.
    + destruct (run_main_only env not_call _ (Hkerr e) st' (trace w ++ tr')%list
                  (replace_nth i (Settled (inl e)) (promises w))) as (? & _ & _ & Hp & _).
      exact Hp.
    + destruct (all_fulfilled (skipn from (replace_nth i (Settled (inr v)) (promises w))))
        as [vs|]; trivial.
      destruct (run_main_only env not_call _ (Hk vs) st' (trace w ++ tr')%list
                  (replace_nth i (Settled (inr v)) (promises w))) as (? & _ & _ & Hp & _).
      exact Hp.
  - left. destruct (main w) as [r|R' req' k'|from k' kerr]; trivial.
    destruct (run_main_only env not_call _ (Hm (answer env MainTask req'))
                (store w) (trace w) (promises w)) as (? & _ & _ & Hp & _).
    exact Hp.
Qed.

(** While the main function waits in [Promise.all]: a turn either leaves it
    waiting, or rejects a promise, or fulfils the last one. *)
Lemma step_joining (w : World) (tk : Tick) :
  settled_down w -> joining env w -> phase env (step env w tk).
Proof.
  intros [Hps Hm] (k0 & kerr & Hmain & Hrep & Hnone).
  assert (Hsame : phase env w).
  { left. exists k0, kerr. auto. }
  destruct tk as [i|]; simpl; [|now rewrite Hmain].
  destruct (nth_error (promises w) i) as [[r|R req k]|] eqn:En; trivial.
  destruct (run_job env (MapCallback i) (k (answer env (MapCallback i) req)) (store w))
    as [[st' tr'] t] eqn:Er.
  rewrite Hmain. rewrite Hmain in Hm. destruct Hm as [Hk Hkerr]. simpl.
  destruct t as [[e|v]|R2 req2 k2].
  - (* rejected *)
    right. left.
    destruct (Hrep e st' (trace w ++ tr')%list
                (replace_nth i (Settled (inl e)) (promises w))) as (_ & Hp & _).
    rewrite Hp. eapply first_rejected_nth.
    eapply nth_error_replace_nth. exact En.
  - (* fulfilled *)
    destruct (all_fulfilled (replace_nth i (Settled (inr v)) (promises w)))
      as [vs|] eqn:Ea.
    + right. right.
      destruct (run_main_only env not_call _ (Hk vs) st' (trace w ++ tr')%list
                  (replace_nth i (Settled (inr v)) (promises w))) as (? & _ & _ & Hp & _).
      rewrite Hp. now apply (all_fulfilled_settled _ vs).
    + left. exists k0, kerr. simpl. split; [reflexivity|]. split; [exact Hrep|].
      apply first_rejected_replace_none; [discriminate | exact Hnone].
  - left. exists k0, kerr. simpl. split; [reflexivity|]. split; [exact Hrep|].
    apply first_rejected_replace_none; [discriminate | exact Hnone].
Qed.

Lemma step_phase (w : World) (tk : Tick) :
  settled_down w -> phase env w -> phase env (step env w tk).
Proof.
  intros Hs [Hj | [Hr | Ha]].
  - now apply step_joining.
  - right. left.
    destruct (step_promises w tk Hs) as [-> | (i & R & req & k & st' & tr' & t & _ & En & _ & ->)];
      trivial.
    eapply first_rejected_replace_some; eassumption.
  - right. right.
    destruct (step_promises w tk Hs) as [-> | (i & R & req & k & st' & tr' & t & _ & En & _ & _)];
      trivial.
    exfalso. eapply settled_not_suspended; eassumption.
Qed.

Lemma run_phase (sched : list Tick) :
  forall w, settled_down w -> phase env w ->
            settled_down (run env w sched) /\ phase env (run env w sched).
Proof.
  induction sched as [|tk sched IH]; intros w Hs Hp; simpl; [now split|].
  apply IH.
  - destruct (step_settled_down env w tk Hs) as (? & _ & _ & H). exact H.
  - now apply step_phase.
Qed.

(** The turn in which a promise is rejected while the main function waits:
    the handler reports the error and returns. *)
Lemma step_rejects (w : World) (k : nat) (e : Thrown) :
  settled_down w -> phase env w ->
  first_rejected (promises w) = None ->
  nth_error (promises (step env w (TChild k))) k = Some (Settled (inl e)) ->
  let w' := step env w (TChild k) in
  main w' = MainDone (inr tt) /\
  processingState (session (store w')) = ERROR /\
  errorMessage (session (store w')) = caught_message e /\
  pdfUrl (session (store w')) = pdfUrl (session (store w)).
Proof.
  intros [Hps Hm] Hph Hnone Hk.
  assert (Habs : nth_error (promises w) k <> Some (Settled (inl e))).
  { intros E. now apply first_rejected_nth in E. }
  destruct Hph as [(k0 & kerr & Hmain & Hrep & _) | [Hr | Ha]]; [|contradiction|].
  - revert Hk. simpl.
    destruct (nth_error (promises w) k) as [[r|R req kk]|] eqn:En;
      [intros E; rewrite En in E; contradiction| |intros E; rewrite En in E; discriminate].
    assert (Hsil : forall r, only silent (kk r)).
    { apply nth_error_In in En. rewrite Forall_forall in Hps. apply (Hps _ En). }
    destruct (run_job env (MapCallback k) (kk (answer env (MapCallback k) req)) (store w))
      as [[st' tr'] t] eqn:Er.
    assert (Hst : st' = store w) by (eapply run_job_silent; [apply Hsil | exact Er]).
    rewrite Hmain. rewrite Hmain in Hm. destruct Hm as [Hk0 Hkerr]. simpl.
    assert (Hnth : forall x, nth_error (replace_nth k x (promises w)) k = Some x).
    { intros x. eapply nth_error_replace_nth. exact En. }
    destruct t as [[e'|v]|R2 req2 k2].
    + destruct (Hrep e' st' (trace w ++ tr')%list
                  (replace_nth k (Settled (inl e')) (promises w)))
        as (Hd & Hp & Hs & He & Hu).
      rewrite Hp, Hnth. intros E. injection E as <-. subst st'. auto.
    + destruct (all_fulfilled (replace_nth k (Settled (inr v)) (promises w))) as [vs|].
      * destruct (run_main_only env not_call _ (Hk0 vs) st' (trace w ++ tr')%list
                    (replace_nth k (Settled (inr v)) (promises w))) as (? & _ & _ & Hp & _).
        rewrite Hp, Hnth. discriminate.
      * simpl. rewrite Hnth. discriminate.
    + simpl. rewrite Hnth. discriminate.
  - revert Hk. simpl.
    destruct (nth_error (promises w) k) as [[r|R req kk]|] eqn:En.
    + intros E. rewrite En in E. contradiction.
    + exfalso. eapply settled_not_suspended; eassumption.
    + intros E. rewrite En in E. discriminate.
Qed.

(** Once the handler has returned, no turn changes the session. *)
Lemma step_after_return (w : World) (tk : Tick) (r : Thrown + unit) :
  settled_down w -> main w = MainDone r ->
  store (step env w tk) = store w /\ main (step env w tk) = MainDone r.
Proof.
  intros [Hps _] Hmain. destruct tk as [i|]; simpl; [|now rewrite Hmain].
  destruct (nth_error (promises w) i) as [[x|R req kk]|] eqn:En; auto.
  assert (Hsil : forall r, only silent (kk r)).
  { apply nth_error_In in En. rewrite Forall_forall in Hps. apply (Hps _ En). }
  destruct (run_job env (MapCallback i) (kk (answer env (MapCallback i) req)) (store w))
    as [[st' tr'] t] eqn:Er.
  rewrite Hmain. simpl. split; [|reflexivity].
  eapply run_job_silent; [apply Hsil | exact Er].
Qed.

Lemma run_after_return (sched : list Tick) :
  forall w r, settled_down w -> main w = MainDone r ->
    store (run env w sched) = store w /\ main (run env w sched) = MainDone r.
Proof.
  induction sched as [|tk sched IH]; intros w r Hs Hm; simpl; [now split|].
  destruct (step_after_return w tk r Hs Hm) as [Hst Hmain].
  destruct (step_settled_down env w tk Hs) as (? & _ & _ & Hs').
  destruct (IH _ r Hs' Hmain) as [H1 H2]. rewrite H1, Hst. now split.
Qed.

(** *** The promises stay those of the callbacks *)

Lemma nth_error_replace_nth_other {A} (i j : nat) (x : A) (l : list A) :
  i <> j -> nth_error (replace_nth i x l) j = nth_error l j.
Proof.
  revert i j. induction l as [|y l IH]; intros [|i] [|j] H; simpl; trivial;
    try congruence. apply IH. congruence.
Qed.

Lemma step_faithful (s : Session) (w : World) (tk : Tick) :
  settled_down w ->
  faithful env s (promises w) -> faithful env s (promises (step env w tk)).
Proof.
  intros Hs [Hlen Hf].
  destruct (step_promises w tk Hs)
    as [-> | (i & R & req & k & st' & tr' & t & _ & En & Er & ->)]; [now split|].
  split; [now rewrite replace_nth_length|].
  intros j img t' Hj Ht'.
  destruct (Nat.eq_dec i j) as [<-|Hij].
  - rewrite (nth_error_replace_nth _ _ _ _ En) in Ht'. injection Ht' as <-.
    destruct (Hf i img _ Hj En) as [Hcf Hres].
    destruct (run_job_faithful env (MapCallback i) _ (Hcf _) _ _ _ _ Er) as [Hcf' Hres'].
    split; [exact Hcf'|]. now rewrite Hres', <- Hres.
  - rewrite nth_error_replace_nth_other in Ht' by exact Hij.
    apply (Hf j img t' Hj Ht').
Qed.

Lemma run_faithful (s : Session) (sched : list Tick) :
  forall w, settled_down w -> faithful env s (promises w) ->
            faithful env s (promises (run env w sched)).
Proof.
  induction sched as [|tk sched IH]; intros w Hs Hf; simpl; [exact Hf|].
  apply IH.
  - destruct (step_settled_down env w tk Hs) as (? & _ & _ & H). exact H.
  - now apply step_faithful.
Qed.

(** A rejected promise is the rejection of the clean-up of its item. *)
Lemma rejected_promise (s : Session) (ps : list (Task ImageFile)) (k : nat) (e : Thrown) :
  faithful env s ps ->
  nth_error ps k = Some (Settled (inl e)) ->
  exists img,
    nth_error (imageFiles s) k = Some img /\
    outcome env (MapCallback k) (cleanImage (file img)) = inl e.
Proof.
  intros [Hlen Hf] Hk.
  destruct (nth_error (imageFiles s) k) as [img|] eqn:Ei.
  - exists img. split; [reflexivity|].
    destruct (Hf k img _ Ei Hk) as [_ Hres]. simpl in Hres.
    rewrite clean_callback_outcome in Hres.
    destruct (outcome env (MapCallback k) (cleanImage (file img))); congruence.
  - apply nth_error_None in Ei. rewrite <- Hlen in Ei.
    assert (nth_error ps k <> None) by congruence.
    apply nth_error_Some in H. lia.
Qed.

(** *** Positions in a trace *)

Lemma position_none (test : Actor * Action -> bool) (tr : Trace) :
  Forall (fun x => test x = false) tr -> position test tr = None.
Proof.
  induction 1 as [|x tr Hx Htr IH]; simpl; [reflexivity|]. now rewrite Hx, IH.
Qed.

Lemma position_app_left (test : Actor * Action -> bool) (t1 t2 : Trace) :
  Forall (fun x => test x = false) t2 ->
  forall a, position test (t1 ++ t2)%list = Some a -> (a < length t1)%nat.
Proof.
  intros H2. induction t1 as [|x t1 IH]; simpl; intros a H.
  - rewrite (position_none _ _ H2) in H. discriminate.
  - destruct (test x); [injection H as <-; lia|].
    destruct (position test (t1 ++ t2)%list) as [a'|]; [|discriminate].
    injection H as <-. specialize (IH _ eq_refl). lia.
Qed.

Lemma position_app_right (test : Actor * Action -> bool) (t1 t2 : Trace) :
  Forall (fun x => test x = false) t1 ->
  forall b, position test (t1 ++ t2)%list = Some b -> (length t1 <= b)%nat.
Proof.
  induction 1 as [|x t1 Hx Ht1 IH]; simpl; intros b H; [lia|].
  rewrite Hx in H.
  destruct (position test (t1 ++ t2)%list) as [b'|]; [|discriminate].
  injection H as <-. specialize (IH _ eq_refl). lia.
Qed.

Lemma started_trace_no_settle (n : nat) (l : list ImageFile) (j : nat) :
  forall i, Forall (fun x => settle_of j x = false) (started_trace n i l).
Proof.
  induction l as [|img l IH]; intros i; simpl; repeat constructor. apply IH.
Qed.

Lemma quiet_no_call (tr : Trace) (i : nat) :
  trace_only not_call tr -> Forall (fun x => call_of i x = false) tr.
Proof.
  intros H. eapply Forall_impl; [|exact H].
  intros [who a] Ha. simpl in *. destruct who; [reflexivity|].
  destruct a; try reflexivity. discriminate.
Qed.

Lemma map_indexed_length {A B} (f : A -> nat -> B) (l : list A) :
  forall i, length (map_indexed f i l) = length l.
Proof. induction l as [|x l IH]; intros i; simpl; [reflexivity | now rewrite IH]. Qed.

End Phases.

(** ** The clean-up calls of an assembly *)

(** C1. For a non-empty upload sequence of length [n], and whatever the
    environment answers and in whatever order, the trace of the assembly
    contains exactly [n] calls of [cleanImage], on the files in upload
    order, and the action immediately before the call for the item at
    position [index + 1] sets the progress text to
    "Cleaning image (index + 1) of n...". *)
Theorem cleanup_calls_in_upload_order (env : Env) (s : Session) (sched : list Tick) :
  imageFiles s <> [] ->
  let n := length (imageFiles s) in
  let w := run env (click_process env s) sched in
  calls (trace w) =
    map_indexed (fun img index =>
        (Some (setProgressMessage
                 ("Cleaning image " ++ of_nat (index + 1) ++ " of " ++ of_nat n ++ "...")),
         file img)) 0 (imageFiles s) /\
  length (calls (trace w)) = n.
Proof.
  intros Hne n w. subst n w.
  rewrite (calls_along_run env s sched Hne). split; [reflexivity|].
  apply map_indexed_length.
Qed.

Lemma cleanup_calls_of_two_uploads :
  calls (trace (run Sample.all_well
                  (click_process Sample.all_well Sample.two_uploads)
                  [TChild 1; TChild 0; TChild 0; TChild 1])) =
  [(Some (setProgressMessage "Cleaning image 1 of 2..."), {| name := "a.jpg" |});
   (Some (setProgressMessage "Cleaning image 2 of 2..."), {| name := "b.jpg" |})].
Proof.
  destruct (cleanup_calls_in_upload_order Sample.all_well Sample.two_uploads
              [TChild 1; TChild 0; TChild 0; TChild 1]) as [H _]; [discriminate|].
  exact H.
Defined.

(** C2 as stated fails: with two uploads, the call for the second item has
    started (position 5 of the trace) before the call for the first item
    settles (position 6). *)
Lemma cleanup_calls_overlap :
  ~ serialized (trace (run Sample.all_well
                         (click_process Sample.all_well Sample.two_uploads)
                         [TChild 0; TChild 0])).
Proof.
  intros H.
  specialize (H 0%nat 1%nat 6%nat 5%nat (Nat.lt_0_succ 0) eq_refl eq_refl). lia.
Qed.

(** C2, as the code has it. The callbacks of [imageFiles.map] all run up to
    their first [await] during the click: the [n] calls of [cleanImage] are
    made in that turn, every promise is still pending at its end and the
    handler waits for all of them in [Promise.all]. In the trace of any run,
    every call of [cleanImage] comes before the settling of any call: the
    clean-ups are in flight together. *)
Theorem cleanup_calls_start_together (env : Env) (s : Session) (sched : list Tick) :
  imageFiles s <> [] ->
  let w0 := click_process env s in
  let w := run env w0 sched in
  length (calls (trace w0)) = length (imageFiles s) /\
  Forall is_suspended (promises w0) /\
  (exists k kerr, main w0 = MainJoining 0 k kerr) /\
  forall i j a b,
    position (call_of i) (trace w) = Some a ->
    position (settle_of j) (trace w) = Some b ->
    (a < b)%nat.
Proof.
  intros Hne w0 w. subst w0 w.
  pose proof (calls_along_run env s [] Hne) as Hcalls. simpl in Hcalls.
  destruct (run_settled_down env sched _ (click_settled_down env s Hne)) as (tr' & Ht & Hq & _).
  rewrite Ht.
  destruct (click_world env s Hne) as (st & ts & k & kerr & Hw & _ & Hsus & _).
  rewrite Hw in *. cbn [trace promises main] in *.
  split; [|split; [|split]].
  - rewrite Hcalls. apply map_indexed_length.
  - exact Hsus.
  - eauto.
  - intros i j a b Ha Hb.
    apply position_app_left in Ha; [|now apply quiet_no_call].
    apply position_app_right in Hb; [lia|].
    apply Forall_app. split; [repeat constructor | apply started_trace_no_settle].
Qed.

Lemma cleanup_calls_start_together_sample :
  length (calls (trace (click_process Sample.all_well Sample.two_uploads))) = 2%nat /\
  Forall is_suspended (promises (click_process Sample.all_well Sample.two_uploads)).
Proof.
  destruct (cleanup_calls_start_together Sample.all_well Sample.two_uploads [])
    as (H1 & H2 & _); [discriminate|].
  split; [exact H1 | exact H2].
Defined.

(** C3 as stated fails: the request for the first of two uploads is
    rejected, and yet the call for the second upload has been made. *)
Lemma later_calls_are_made :
  ~ (forall e,
       nth_error (promises (run Sample.first_rejected_env
                              (click_process Sample.first_rejected_env Sample.two_uploads)
                              [TChild 0; TChild 0])) 0 = Some (Settled (inl e)) ->
       position (call_of 1)
         (trace (run Sample.first_rejected_env
                   (click_process Sample.first_rejected_env Sample.two_uploads)
                   [TChild 0; TChild 0])) = None).
Proof.
  intros H.
  specialize (H (ErrorObj "Failed to process image with AI. 503 Service Unavailable") eq_refl).
  discriminate H.
Qed.

(** C3, as the code has it. Take any run of the assembly in which no promise
    has been rejected so far, and a turn in which the promise of the callback
    for the item at position [k] is rejected with [e]. Then [e] is what the
    call of [cleanImage] on that item fails with and, whatever happens
    afterwards, the handler has returned, the status is [ERROR], the error
    text is the message of [e] (a fixed text when [e] is not an [Error]) and
    the output reference is left as it was. All [n] clean-up calls had been
    made before that turn, and none is made after it. *)
Theorem first_rejection_is_reported
  (env : Env) (s : Session) (sched1 sched2 : list Tick) (k : nat) (e : Thrown) :
  imageFiles s <> [] ->
  let w1 := run env (click_process env s) sched1 in
  first_rejected (promises w1) = None ->
  nth_error (promises (step env w1 (TChild k))) k = Some (Settled (inl e)) ->
  let w := run env (step env w1 (TChild k)) sched2 in
  processingState (session (store w)) = ERROR /\
  errorMessage (session (store w)) = caught_message e /\
  pdfUrl (session (store w)) = pdfUrl (session (store w1)) /\
  main w = MainDone (inr tt) /\
  length (calls (trace w1)) = length (imageFiles s) /\
  calls (trace w) = calls (trace w1) /\
  exists img,
    nth_error (imageFiles s) k = Some img /\
    outcome env (MapCallback k) (cleanImage (file img)) = inl e.
Proof.
  intros Hne w1 Hnone Hk w.
  assert (Hcall : exists img,
    nth_error (imageFiles s) k = Some img /\
    outcome env (MapCallback k) (cleanImage (file img)) = inl e).
  { apply (rejected_promise env s (promises (step env w1 (TChild k)))); [|exact Hk].
    replace (step env w1 (TChild k))
      with (run env (click_process env s) (sched1 ++ [TChild k])%list)
      by (subst w1; rewrite run_app; reflexivity).
    apply run_faithful; [now apply click_settled_down | now apply click_faithful]. }
  destruct (run_phase env sched1 _ (click_settled_down env s Hne)
              (or_introl (click_joining env s Hne))) as [Hs1 Hp1].
  fold w1 in Hs1, Hp1.
  destruct (step_rejects env w1 k e Hs1 Hp1 Hnone Hk) as (Hd & Hst & Hmsg & Hurl).
  destruct (step_settled_down env w1 (TChild k) Hs1) as (? & _ & _ & Hs2).
  destruct (run_after_return env sched2 _ _ Hs2 Hd) as [Hstore Hmain].
  fold w in Hstore, Hmain.
  rewrite Hstore. do 4 (split; trivial).
  subst w w1.
  replace (run env (step env (run env (click_process env s) sched1) (TChild k)) sched2)
    with (run env (click_process env s) (sched1 ++ TChild k :: sched2)%list)
    by (rewrite run_app; reflexivity).
  rewrite !(calls_along_run env s _ Hne).
  split; [apply map_indexed_length | split; [reflexivity | exact Hcall]].
Qed.

Lemma first_rejection_sample :
  processingState (session (store
    (run Sample.first_rejected_env
       (step Sample.first_rejected_env
          (run Sample.first_rejected_env
             (click_process Sample.first_rejected_env Sample.two_uploads) [TChild 0])
          (TChild 0))
       [TChild 1; TChild 1]))) = ERROR /\
  errorMessage (session (store
    (run Sample.first_rejected_env
       (step Sample.first_rejected_env
          (run Sample.first_rejected_env
             (click_process Sample.first_rejected_env Sample.two_uploads) [TChild 0])
          (TChild 0))
       [TChild 1; TChild 1]))) =
    "Failed to process image with AI. 503 Service Unavailable".
Proof.
  destruct (first_rejection_is_reported Sample.first_rejected_env Sample.two_uploads
              [TChild 0] [TChild 1; TChild 1] 0
              (ErrorObj "Failed to process image with AI. 503 Service Unavailable"))
    as (H1 & H2 & _); [discriminate | reflexivity | reflexivity |].
  split; [exact H1 | exact H2].
Defined.
(** ** The image and the margins *)

(** X1. An image of positive width and height (below [2^32] pixels) is
    drawn with a positive size of at most 190 by 277 that fills the content
    width or the content height, and it keeps at least 10 units away from
    every edge of the 210 by 297 page. These bounds hold of the binary64
    numbers that the code computes, exactly and not only up to rounding. *)
Theorem place_within_margins (imgData : string) (w h : N) :
  (0 < w < 4294967296)%N -> (0 < h < 4294967296)%N ->
  exists x y fw fh : Q,
    place imgData w h =
      {| p_data := imgData; p_format := "JPEG";
         p_x := Finite x; p_y := Finite y; p_w := Finite fw; p_h := Finite fh |} /\
    (0 < fw /\ fw <= 190)%Q /\
    (0 < fh /\ fh <= 277)%Q /\
    (10 <= x /\ x + fw <= 200)%Q /\
    (10 <= y /\ y + fh <= 287)%Q /\
    (fw == 190 \/ fh == 277)%Q.
Proof.
  intros [Hw0 Hw1] [Hh0 Hh1].
  destruct (place_analysis imgData w h Hw0 Hw1 Hh0 Hh1)
    as (x & y & fw & fh & E & Wide & Tall & Pw & Ph & Gx & Gy & _ & _ & _ & _ & Mx & My).
  exists x, y, fw, fh. split; [exact E|].
  destruct (N.le_gt_cases (190 * h) (277 * w)) as [A | B].
  - destruct (Wide A) as (Ew & _ & Fit & _).
    split; [split; [exact Pw | rewrite Ew; discriminate]|].
    split; [split; assumption|]. split; [split; assumption|].
    split; [split; assumption|]. now left.
  - destruct (Tall B) as (Eh & _ & Fit & _).
    split; [split; assumption|].
    split; [split; [exact Ph | rewrite Eh; discriminate]|].
    split; [split; assumption|]. split; [split; assumption|]. now right.
Qed.

Lemma place_within_margins_sample :
  exists x fw : Q,
    p_x (place "data:," 3024 4032) = Finite x /\
    p_w (place "data:," 3024 4032) = Finite fw /\
    (10 <= x /\ x + fw <= 200)%Q.
Proof.
  destruct (place_within_margins "data:," 3024 4032)
    as (x & y & fw & fh & E & _ & _ & Mx & _); [lia | lia |].
  exists x, fw. rewrite E. split; [reflexivity|]. split; [reflexivity | exact Mx].
Defined.

(** ** Removing and adding upload items *)

Section Uploads.

Variable env : Env.

Lemma filter_none {A} (f : A -> bool) (l : list A) :
  (forall x, In x l -> f x = false) -> filter f l = [].
Proof.
  induction l as [|x l IH]; intros H; [reflexivity|]. simpl.
  rewrite (H x (or_introl eq_refl)). apply IH. intros y Hy. apply H. now right.
Qed.

Lemma find_filter_unique (id0 : string) (l : list ImageFile) :
  NoDup (map id l) ->
  filter (has_id id0) l =
  match find (has_id id0) l with
  | Some img => [img]
  | None => []
  end.
Proof.
  induction l as [|img l IH]; intros Hnd; [reflexivity|].
  inversion Hnd as [|? ? Hnotin Hnd']; subst. simpl.
  destruct (has_id id0 img) eqn:E.
  - f_equal. apply filter_none. intros x Hx.
    unfold has_id in *. apply String.eqb_eq in E. apply String.eqb_neq.
    intros Ex. apply Hnotin. rewrite E, <- Ex. now apply in_map.
  - now apply IH.
Qed.

Lemma find_first_of_filter {A} (f : A -> bool) (l : list A) :
  firstn 1 (filter f l) = match find f l with Some x => [x] | None => [] end.
Proof.
  induction l as [|x l IH]; [reflexivity|]. simpl.
  destruct (f x); [reflexivity | exact IH].
Qed.

Lemma filter_all {A} (f : A -> bool) (l : list A) :
  (forall x, In x l -> f x = true) -> filter f l = l.
Proof.
  induction l as [|x l IH]; intros H; [reflexivity|]. simpl.
  rewrite (H x (or_introl eq_refl)). f_equal. apply IH. intros y Hy. apply H. now right.
Qed.

Lemma filter_split_length {A} (f : A -> bool) (l : list A) :
  (length (filter f l) + length (filter (fun x => negb (f x)) l) = length l)%nat.
Proof.
  induction l as [|x l IH]; [reflexivity|]. simpl.
  destruct (f x); simpl; lia.
Qed.

Lemma map_indexed_map {A B C} (f : A -> nat -> B) (g : B -> C) (h : A -> C) (l : list A) :
  (forall x i, g (f x i) = h x) ->
  forall i, map g (map_indexed f i l) = map h l.
Proof.
  intros H. induction l as [|x l IH]; intros i; simpl; [reflexivity|].
  now rewrite H, IH.
Qed.

End Uploads.

(** X2. [removeImage] removes every upload item that has the given id and
    keeps the others in order; it releases the display URL of the first
    removed item only. When the ids of the upload items are pairwise
    distinct, the released URLs are exactly those of the removed items, so
    that nothing that is dropped stays allocated. The other cells of the
    session are left as they are. *)
Theorem removeImage_releases_removed (env : Env) (s : Session) (id0 : string) :
  let w := handle env s (removeImage s id0) in
  let removed := filter (has_id id0) (imageFiles s) in
  main w = MainDone (inr tt) /\
  imageFiles (session (store w)) =
    filter (fun img => negb (has_id id0 img)) (imageFiles s) /\
  (length (imageFiles (session (store w))) + length removed = length (imageFiles s))%nat /\
  revoked (trace w) = map originalUrl (firstn 1 removed) /\
  (NoDup (map id (imageFiles s)) -> revoked (trace w) = map originalUrl removed) /\
  (processingState (session (store w)), pdfUrl (session (store w)),
   pdfFilename (session (store w)), errorMessage (session (store w))) =
  (processingState s, pdfUrl s, pdfFilename s, errorMessage s).
Proof.
  intros w removed. subst w removed.
  assert (Hrev : revoked (trace (handle env s (removeImage s id0))) =
                 map originalUrl (firstn 1 (filter (has_id id0) (imageFiles s)))).
  { rewrite find_first_of_filter. unfold handle, removeImage.
    destruct (find (has_id id0) (imageFiles s)); reflexivity. }
  assert (Hrest : forall x, x = handle env s (removeImage s id0) ->
    main x = MainDone (inr tt) /\
    imageFiles (session (store x)) =
      filter (fun img => negb (has_id id0 img)) (imageFiles s) /\
    (processingState (session (store x)), pdfUrl (session (store x)),
     pdfFilename (session (store x)), errorMessage (session (store x))) =
    (processingState s, pdfUrl s, pdfFilename s, errorMessage s)).
  { intros x ->. unfold handle, removeImage.
    destruct (find (has_id id0) (imageFiles s)); simpl; auto. }
  destruct (Hrest _ eq_refl) as (Hm & Hl & Hc).
  split; [exact Hm|]. split; [exact Hl|]. split.
  { rewrite Hl. pose proof (filter_split_length (has_id id0) (imageFiles s)). lia. }
  split; [exact Hrev|]. split; [|exact Hc].
  intros Hnd. rewrite Hrev, find_first_of_filter. now rewrite find_filter_unique.
Qed.

Lemma removeImage_sample :
  revoked (trace (handle Sample.all_well Sample.two_uploads
                    (removeImage Sample.two_uploads "a.jpg-1700000000000"))) =
    ["blob:a.jpg"] /\
  map originalUrl (imageFiles (session (store
    (handle Sample.all_well Sample.two_uploads
       (removeImage Sample.two_uploads "a.jpg-1700000000000"))))) = ["blob:b.jpg"].
Proof.
  destruct (removeImage_releases_removed Sample.all_well Sample.two_uploads
              "a.jpg-1700000000000") as (_ & Hl & _ & _ & Hr & _).
  split.
  - apply Hr. repeat constructor; simpl; intuition discriminate.
  - rewrite Hl. reflexivity.
Defined.

(** X3. [removeImage] with an id that no upload item has releases nothing
    and leaves the whole session as it is. *)
Theorem removeImage_unknown_id (env : Env) (s : Session) (id0 : string) :
  (forall img, In img (imageFiles s) -> id img <> id0) ->
  revoked (trace (handle env s (removeImage s id0))) = [] /\
  after env s (removeImage s id0) = s.
Proof.
  intros Hno.
  assert (Hf : find (has_id id0) (imageFiles s) = None).
  { destruct (find (has_id id0) (imageFiles s)) as [img|] eqn:E; [|reflexivity].
    apply find_some in E as [Hin Hid]. unfold has_id in Hid.
    apply String.eqb_eq in Hid. exfalso. now apply (Hno img). }
  assert (Hk : filter (fun img => negb (has_id id0 img)) (imageFiles s) = imageFiles s).
  { apply filter_all. intros img Hin. unfold has_id.
    apply negb_true_iff, String.eqb_neq. now apply Hno. }
  unfold after, handle, removeImage. rewrite Hf. simpl. rewrite Hk.
  split; [reflexivity | now destruct s].
Qed.

Lemma removeImage_unknown_id_sample :
  after Sample.all_well Sample.two_uploads (removeImage Sample.two_uploads "c.jpg-1") =
  Sample.two_uploads.
Proof.
  apply (removeImage_unknown_id Sample.all_well Sample.two_uploads "c.jpg-1").
  simpl. intros img [<- | [<- | []]]; discriminate.
Defined.

(** X4. A file selection appends one upload item per selected file, in
    selection order and without cleaned result, after the items that were
    there, which are kept. A change event without file list changes
    nothing. *)
Theorem handleFileChange_appends (env : Env) (b : Browser) (s : Session) (fs : list File) :
  let s' := after env s (handleFileChange b s (Some fs)) in
  firstn (length (imageFiles s)) (imageFiles s') = imageFiles s /\
  map file (skipn (length (imageFiles s)) (imageFiles s')) = fs /\
  Forall (fun img => cleanedUrl img = None) (skipn (length (imageFiles s)) (imageFiles s')) /\
  length (imageFiles s') = (length (imageFiles s) + length fs)%nat /\
  (processingState s', pdfUrl s', errorMessage s') =
    (processingState s, pdfUrl s, errorMessage s) /\
  after env s (handleFileChange b s None) = s.
Proof.
  intros s'. subst s'. unfold after, handle, handleFileChange. simpl.
  rewrite firstn_app, Nat.sub_diag, firstn_all, firstn_O, app_nil_r.
  rewrite skipn_app, Nat.sub_diag, skipn_all, skipn_O. simpl.
  rewrite List.length_app, map_indexed_length.
  split; [reflexivity|]. split.
  { rewrite (map_indexed_map (new_image b) file (fun f => f)) by reflexivity.
    apply map_id. }
  split.
  { generalize 0%nat. induction fs as [|f fs IH]; intros i; simpl; constructor; auto. }
  split; [reflexivity|]. split; [reflexivity|]. now destruct s.
Qed.

(** X5. Selecting one file and then removing the item made for it, when its
    id is not the id of an item that was already there, gives back the
    session as it was and releases exactly the URL that the selection
    created. *)
Theorem add_then_remove (env : Env) (b : Browser) (s : Session) (f : File) :
  let new_id := name f ++ "-" ++ of_nat (Date_now b 0) in
  let s1 := after env s (handleFileChange b s (Some [f])) in
  (forall img, In img (imageFiles s) -> id img <> new_id) ->
  revoked (trace (handle env s1 (removeImage s1 new_id))) = [objectURL b 0 f] /\
  after env s1 (removeImage s1 new_id) = s.
Proof.
  intros new_id s1 Hfresh. subst s1.
  assert (Hno : forall l, (forall img, In img l -> id img <> new_id) ->
    find (has_id new_id) (l ++ [new_image b f 0])%list = Some (new_image b f 0) /\
    filter (fun img => negb (has_id new_id img)) (l ++ [new_image b f 0])%list = l).
  { induction l as [|x l IH]; intros H; simpl.
    - unfold has_id. simpl. fold new_id. now rewrite String.eqb_refl.
    - assert (Hx : has_id new_id x = false).
      { unfold has_id. apply String.eqb_neq. apply H. now left. }
      rewrite Hx. simpl. destruct IH as [IH1 IH2].
      { intros img Hin. apply H. now right. }
      now rewrite IH1, IH2. }
  destruct (Hno _ Hfresh) as [Hfind Hfilter].
  unfold after, handle, removeImage, handleFileChange. simpl.
  rewrite Hfind. simpl. rewrite Hfilter.
  split; [reflexivity | now destruct s].
Qed.

Lemma add_then_remove_sample :
  after Sample.all_well
    (after Sample.all_well initial_session
       (handleFileChange {| Date_now := fun _ => 5%nat; objectURL := fun _ f => "blob:" ++ name f |}
          initial_session (Some [ {| name := "a.jpg" |} ])))
    (removeImage
       (after Sample.all_well initial_session
          (handleFileChange {| Date_now := fun _ => 5%nat; objectURL := fun _ f => "blob:" ++ name f |}
             initial_session (Some [ {| name := "a.jpg" |} ])))
       "a.jpg-5") = initial_session.
Proof.
  apply (add_then_remove Sample.all_well
           {| Date_now := fun _ => 5%nat; objectURL := fun _ f => "blob:" ++ name f |}
           initial_session {| name := "a.jpg" |}).
  intros img [].
Defined.

(** X6. Files selected before the assembly is started are cleaned after the
    items that were already uploaded, in selection order: whatever the
    schedule, the clean-up calls are on the files of the old items followed
    by the selected files. *)
Theorem selection_order_is_call_order
  (env : Env) (b : Browser) (s : Session) (fs : list File) (sched : list Tick) :
  fs <> [] ->
  let s1 := after env s (handleFileChange b s (Some fs)) in
  map snd (calls (trace (run env (click_process env s1) sched))) =
  (map file (imageFiles s) ++ fs)%list.
Proof.
  intros Hfs s1.
  assert (Hl : imageFiles s1 = (imageFiles s ++ map_indexed (new_image b) 0 fs)%list)
    by reflexivity.
  assert (Hne : imageFiles s1 <> []).
  { rewrite Hl. destruct fs; [congruence|]. now destruct (imageFiles s). }
  rewrite (calls_along_run env s1 sched Hne), Hl.
  rewrite (map_indexed_map _ snd file) by reflexivity.
  rewrite map_app. f_equal.
  rewrite (map_indexed_map (new_image b) file (fun f => f)) by reflexivity.
  apply map_id.
Qed.

Lemma selection_order_sample :
  map snd (calls (trace (run Sample.all_well
    (click_process Sample.all_well
       (after Sample.all_well Sample.two_uploads
          (handleFileChange {| Date_now := fun _ => 5%nat; objectURL := fun _ f => "blob:" ++ name f |}
             Sample.two_uploads (Some [ {| name := "c.jpg" |} ]))))
    [TChild 2; TChild 0]))) =
  [ {| name := "a.jpg" |}; {| name := "b.jpg" |}; {| name := "c.jpg" |} ].
Proof.
  apply (selection_order_is_call_order Sample.all_well
           {| Date_now := fun _ => 5%nat; objectURL := fun _ f => "blob:" ++ name f |}
           Sample.two_uploads [ {| name := "c.jpg" |} ] [TChild 2; TChild 0]).
  discriminate.
Defined.

(** ** The stages of an assembly *)

Section Stages.

Variable env : Env.

(** The store after the callbacks have been started: only the progress
    text has changed, and it is the text of the last callback. *)
Lemma spawn_store (n : nat) (l : list ImageFile) :
  forall i st st' tr ts,
    l <> [] ->
    spawn env i (map_indexed (clean_callback n) i l) st = (st', tr, ts) ->
    st' = apply_action (setProgressMessage (cleaning_message (i + length l - 1) n)) st.
Proof.
  induction l as [|img l IH]; intros i st st' tr ts Hne E; [congruence|].
  cbn [map_indexed spawn] in E.
  destruct (callback_start env n img i st) as (k & Hk & _). rewrite Hk in E.
  destruct (spawn env (S i) (map_indexed (clean_callback n) (S i) l)
              (apply_action (setProgressMessage (cleaning_message i n)) st))
    as [[st2 tr2] ts2] eqn:E2.
  injection E as <- _ _.
  destruct l as [|x l].
  - simpl in E2. injection E2 as <- _ _. simpl.
    replace (i + 1 - 1)%nat with i by lia. reflexivity.
  - rewrite (IH _ _ _ _ _ ltac:(discriminate) E2).
    replace (S i + length (x :: l) - 1)%nat with (i + length (img :: x :: l) - 1)%nat
      by (simpl; lia).
    reflexivity.
Qed.

Lemma all_fulfilled_suspended {A} (ts : list (Task A)) (i : nat) R (req : Request R) k :
  nth_error ts i = Some (Suspended req k) -> all_fulfilled ts = None.
Proof.
  revert i. induction ts as [|t ts IH]; intros [|i] H; simpl in *; try discriminate.
  - injection H as ->. reflexivity.
  - destruct t as [[e|v]|R' req' k']; trivial. now rewrite (IH i H).
Qed.

Lemma all_fulfilled_nth {A} (ts : list (Task A)) (vs : list A) :
  all_fulfilled ts = Some vs ->
  forall i, nth_error ts i = option_map (fun v => Settled (inr v)) (nth_error vs i).
Proof.
  revert vs. induction ts as [|t ts IH]; intros vs H i; simpl in H.
  - injection H as <-. now destruct i.
  - destruct t as [[e|v]|R req k]; try discriminate.
    destruct (all_fulfilled ts) as [vs'|] eqn:E; [|discriminate].
    injection H as <-. destruct i; [reflexivity|]. simpl. now apply IH.
Qed.

Lemma all_fulfilled_length {A} (ts : list (Task A)) (vs : list A) :
  all_fulfilled ts = Some vs -> length vs = length ts.
Proof.
  revert vs. induction ts as [|t ts IH]; intros vs H; simpl in H.
  - now injection H as <-.
  - destruct t as [[e|v]|R req k]; try discriminate.
    destruct (all_fulfilled ts) as [vs'|] eqn:E; [|discriminate].
    injection H as <-. simpl. now rewrite (IH vs').
Qed.

(** The world after the click: the handler waits in [Promise.all] with the
    rest of its [try] block and its [catch] block as continuations. *)
Lemma click_stage (s : Session) :
  imageFiles s <> [] -> Stage env s (click_process env s).
Proof.
  intros Hne.
  destruct (spawn env 0
    (map_indexed (clean_callback (length (imageFiles s))) 0 (imageFiles s))
    (apply_action (setErrorMessage EmptyString)
       (apply_action (setProcessingState PROCESSING) {| session := s; doc := None |})))
    as [[st' tr'] ts] eqn:Hsp.
  destruct (spawn_callbacks env (length (imageFiles s)) (imageFiles s) 0
    (apply_action (setErrorMessage EmptyString)
       (apply_action (setProcessingState PROCESSING) {| session := s; doc := None |})))
    as (st2 & ts2 & Hsp2 & _ & Hsus & Hlen & _).
  rewrite Hsp in Hsp2. injection Hsp2 as <- _ <-.
  assert (Hts : ts <> []).
  { intros ->. destruct (imageFiles s); [congruence | discriminate]. }
  pose proof (spawn_store _ _ _ _ _ _ _ Hne Hsp) as Hst.
  assert (Hw : click_process env s =
    {| store := st'; trace := ([(MainTask, setProcessingState PROCESSING);
                                (MainTask, setErrorMessage EmptyString)] ++ tr')%list;
       promises := ts; main := MainJoining 0 assemble report |}).
  { unfold click_process, handleProcessImages, await_all.
    destruct (length (imageFiles s) =? 0)%nat eqn:E.
    { apply Nat.eqb_eq in E. destruct (imageFiles s); [congruence | discriminate]. }
    cbn [run_main try_catch bind]. cbn [length].
    rewrite Hsp, (join_pending ts Hsus Hts). reflexivity. }
  rewrite Hw. apply Cleaning; simpl.
  - reflexivity.
  - rewrite Hst. reflexivity.
  - now apply first_rejected_suspended.
  - destruct ts as [|t ts]; [congruence|].
    inversion Hsus as [|? ? Ht _]; subst. destruct t; [contradiction | reflexivity].
Qed.

Lemma run_done_ticks (w : World) (r : Thrown + unit) (m : nat) :
  main w = MainDone r -> run env w (repeat TMain m) = w.
Proof.
  intros H. induction m as [|m IH]; [reflexivity|].
  change (run env (step env w TMain) (repeat TMain m) = w).
  rewrite (step_done env w r H). exact IH.
Qed.

Lemma run_ticks_succ (w : World) (m : nat) :
  step env (run env w (repeat TMain m)) TMain = run env w (repeat TMain (S m)).
Proof.
  change (repeat TMain (S m)) with (TMain :: repeat TMain m).
  rewrite repeat_cons, run_app. reflexivity.
Qed.

(** One turn takes a stage to a stage. *)
Lemma step_stage (s : Session) (w : World) (tk : Tick) :
  settled_down w -> Stage env s w -> Stage env s (step env w tk).
Proof.
  intros Hs [Hmain Hstore Hnone Hpend | k e Hmain Hstore Hk | vs tr m Hall Hw].
  - (* cleaning *)
    destruct tk as [i|]; simpl; [|rewrite Hmain; now apply Cleaning].
    destruct (nth_error (promises w) i) as [[r|R req kk]|] eqn:En;
      try (now apply Cleaning).
    assert (Hsil : forall r, only silent (kk r)).
    { destruct Hs as [Hps _]. apply nth_error_In in En.
      rewrite Forall_forall in Hps. apply (Hps _ En). }
    destruct (run_job env (MapCallback i) (kk (answer env (MapCallback i) req)) (store w))
      as [[st' tr'] t] eqn:Er.
    assert (Hst : st' = store w) by (eapply run_job_silent; [apply Hsil | exact Er]).
    subst st'. rewrite Hmain. cbn [Nat.leb skipn].
    assert (Hnth : nth_error (replace_nth i t (promises w)) i = Some t)
      by (eapply nth_error_replace_nth; exact En).
    destruct t as [[e|v]|R2 req2 k2].
    + apply (Failed env s _ i e); [reflexivity | | exact Hnth].
      simpl. rewrite Hstore. reflexivity.
    + destruct (all_fulfilled (replace_nth i (Settled (inr v)) (promises w)))
        as [vs|] eqn:Ea.
      * destruct (run_main_only env not_call _ (assemble_not_call vs) (store w)
                    (trace w ++ tr')%list (replace_nth i (Settled (inr v)) (promises w)))
          as (? & _ & _ & Hp & _).
        apply (LayingOut env s _ vs (trace w ++ tr')%list 0).
        -- now rewrite Hp.
        -- rewrite Hp, Hstore. reflexivity.
      * apply Cleaning; simpl; trivial.
        apply first_rejected_replace_none; [discriminate | exact Hnone].
    + apply Cleaning; simpl; trivial.
      * apply first_rejected_replace_none; [discriminate | exact Hnone].
      * eapply all_fulfilled_suspended. exact Hnth.
  - (* failed *)
    destruct tk as [i|]; simpl; [|rewrite Hmain; now apply (Failed env s w k e)].
    destruct (nth_error (promises w) i) as [[r|R req kk]|] eqn:En;
      try (now apply (Failed env s w k e)).
    assert (Hsil : forall r, only silent (kk r)).
    { destruct Hs as [Hps _]. apply nth_error_In in En.
      rewrite Forall_forall in Hps. apply (Hps _ En). }
    destruct (run_job env (MapCallback i) (kk (answer env (MapCallback i) req)) (store w))
      as [[st' tr'] t] eqn:Er.
    assert (Hst : st' = store w) by (eapply run_job_silent; [apply Hsil | exact Er]).
    subst st'. rewrite Hmain. simpl.
    apply (Failed env s _ k e); simpl; trivial.
    rewrite nth_error_replace_nth_other; [exact Hk|].
    intros <-. rewrite En in Hk. discriminate.
  - (* laying out *)
    destruct tk as [i|].
    + assert (Hsame : step env w (TChild i) = w).
      { simpl. rewrite (all_fulfilled_nth _ _ Hall i).
        destruct (nth_error vs i); reflexivity. }
      rewrite Hsame. now apply (LayingOut env s w vs tr m).
    + destruct (step_promises env w TMain Hs)
        as [Hp | (i & R & req & k & st' & tr' & t & Habs & _)]; [|discriminate].
      apply (LayingOut env s _ vs tr (S m)); rewrite Hp; [exact Hall|].
      rewrite <- run_ticks_succ. now rewrite <- Hw.
Qed.

Lemma run_stage (s : Session) (sched : list Tick) :
  imageFiles s <> [] -> Stage env s (run env (click_process env s) sched).
Proof.
  intros Hne.
  assert (H : forall w, settled_down w -> Stage env s w ->
                        Stage env s (run env w sched)).
  { induction sched as [|tk sched IH]; intros w Hs Hst; simpl; [exact Hst|].
    apply IH.
    - destruct (step_settled_down env w tk Hs) as (? & _ & _ & H). exact H.
    - now apply step_stage. }
  apply H; [now apply click_settled_down | now apply click_stage].
Qed.

End Stages.
(** ** The layout inside the handler *)

Section Assembling.

Variable env : Env.

(** A guarded call under the [catch] block: the exception is reported, or
    the guarded code runs. *)
Lemma library_under_catch (c : LibCall) (k : Proc unit) (st : Store) (tr : Trace)
  (ps : list (Task ImageFile)) :
  run_main env (try_catch (library c k) report) st tr ps =
  match library_fault env c with
  | Some e => run_main env (report e) st tr ps
  | None => run_main env (try_catch k report) st tr ps
  end.
Proof. cbn. destruct (library_fault env c); reflexivity. Qed.

(** The [catch] block returns with the error reported. *)
Lemma report_runs (e : Thrown) (st : Store) (tr : Trace) (ps : list (Task ImageFile))
  (m : nat) :
  let w := run env (run_main env (report e) st tr ps) (repeat TMain m) in
  main w = MainDone (inr tt) /\ session (store w) = failed (session st) e /\
  doc (store w) = doc st /\ promises w = ps.
Proof.
  cbv zeta. unfold report. cbn [run_main].
  rewrite (run_done_ticks env _ (inr tt) m) by reflexivity.
  repeat split.
Qed.

(** A thrown library call ends the layout with the error reported. *)
Lemma fault_outcome (c : LibCall) (e : Thrown) (st : Store) (tr : Trace)
  (ps : list (Task ImageFile)) (final : PdfDoc) (remaining m m' : nat) :
  library_fault env c = Some e ->
  layout_outcome env (session st) final remaining m'
    (run env (run_main env (report e) st tr ps) (repeat TMain m)).
Proof.
  intros Hc. destruct (report_runs e st tr ps m) as (Hm & Hs & _).
  split; [|intros _; exact Hm].
  right; right. exists c, e. auto.
Qed.

(** The end of the [try] block, for a document [d]. *)
Lemma publish_runs (st : Store) (tr : Trace) (ps : list (Task ImageFile)) (d : PdfDoc)
  (m : nat) :
  doc st = Some d ->
  layout_outcome env (session st) d 0 m
    (run env (run_main env (try_catch publish report) st tr ps) (repeat TMain m)).
Proof.
  intros Hd. unfold publish. rewrite library_under_catch.
  destruct (library_fault env output_call) as [e|] eqn:E1;
    [now apply (fault_outcome output_call)|].
  cbn [try_catch run_main answer_call]. rewrite Hd.
  rewrite library_under_catch.
  destruct (library_fault env (createObjectURL_call d)) as [e|] eqn:E2;
    [now apply (fault_outcome (createObjectURL_call d))|].
  cbn [try_catch run_main answer_call].
  rewrite (run_done_ticks env _ (inr tt) m) by reflexivity.
  split; [|reflexivity]. left. split; [reflexivity|].
  cbn [store]. unfold published. destruct st as [se dd]. simpl in Hd. subst dd.
  reflexivity.
Qed.

Lemma layout_outcome_more (se : Session) (final : PdfDoc) (remaining m : nat) (w : World) :
  layout_outcome env se final remaining m w ->
  layout_outcome env se final (S remaining) m w.
Proof.
  intros [[Hdone | [(Hb & Hse & Hm) | Hfail]] Hall]; split.
  - now left.
  - intros H. apply Hall. lia.
  - right; left. repeat split; trivial. lia.
  - intros H. apply Hall. lia.
  - now right; right.
  - intros H. apply Hall. lia.
Qed.

Lemma layout_outcome_later (se : Session) (final : PdfDoc) (remaining m : nat) (w : World) :
  layout_outcome env se final remaining m w ->
  layout_outcome env se final (S remaining) (S m) w.
Proof.
  intros [[Hdone | [(Hb & Hse & Hm) | Hfail]] Hall]; split.
  - now left.
  - intros H. apply Hall. lia.
  - right; left. repeat split; trivial. lia.
  - intros H. apply Hall. lia.
  - now right; right.
  - intros H. apply Hall. lia.
Qed.

(** The layout loop inside the [try] block, given [m] image loads. *)
Lemma layout_under_catch (l : list ImageFile) :
  forall i st tr ps d m,
    doc st = Some d ->
    layout_outcome env (session st) (layout_doc env i l d) (length l) m
      (run env (run_main env (try_catch (layout_from i l publish) report) st tr ps)
         (repeat TMain m)).
Proof.
  induction l as [|im l IH]; intros i st tr ps d m Hd.
  - cbn [layout_from layout_doc length]. now apply publish_runs.
  - cbn [layout_from layout_doc length].
    destruct (cleanedUrl im) as [imgData|];
      [|apply layout_outcome_more; now apply IH].
    destruct (truthy imgData); [|apply layout_outcome_more; now apply IH].
    (* the image is loaded and drawn on the current page of [d'] *)
    assert (Hload : forall st' tr' d',
      doc st' = Some d' ->
      layout_outcome env (session st')
        (layout_doc env (S i) l (addImage (placed env imgData) d')) (S (length l)) m
        (run env
           (run_main env
              (try_catch
                 (Await (image_onload imgData) (fun '(imgWidth, imgHeight) =>
                    library (addImage_call i (place imgData imgWidth imgHeight))
                      (doc_addImage (place imgData imgWidth imgHeight) ;;
                       layout_from (S i) l publish)))
                 report) st' tr' ps)
           (repeat TMain m))).
    { intros st' tr' d' Hd'. destruct m as [|m].
      - split; [|simpl; lia]. right; left. simpl. repeat split; eauto. lia.
      - cbn [try_catch run_main repeat]. change (run env ?w (TMain :: ?s))
          with (run env (step env w TMain) s).
        cbn [step main store trace promises answer]. unfold placed.
        destruct (image_size env MainTask imgData) as [wd ht].
        rewrite library_under_catch.
        destruct (library_fault env (addImage_call i (place imgData wd ht))) as [e|] eqn:E.
        + apply (fault_outcome (addImage_call i (place imgData wd ht))). exact E.
        + cbn [try_catch run_main].
          apply layout_outcome_later.
          assert (Hd2 : doc (apply_action (doc_addImage (place imgData wd ht)) st') =
                        Some (addImage (place imgData wd ht) d'))
            by (simpl; now rewrite Hd').
          exact (IH (S i) _ _ ps _ m Hd2). }
    destruct (0 <? i)%nat.
    + rewrite library_under_catch.
      destruct (library_fault env (addPage_call i)) as [e|] eqn:E;
        [now apply (fault_outcome (addPage_call i))|].
      cbn [try_catch run_main].
      assert (Hd2 : doc (apply_action doc_addPage st) = Some (addPage d))
        by (simpl; now rewrite Hd).
      exact (Hload _ _ _ Hd2).
    + now apply Hload.
Qed.

(** The same for the whole rest of the [try] block. *)
Lemma assemble_runs (s : Session) (vs : list ImageFile) (tr : Trace)
  (ps : list (Task ImageFile)) (m : nat) :
  let w := run env
             (run_main env (assemble vs)
                {| session := processing_session s; doc := None |} tr ps)
             (repeat TMain m) in
  ((main w = MainDone (inr tt) /\
    store w =
      {| session :=
           complete_session s vs (blob_url env (layout_doc env 0 vs jsPDF_new));
         doc := Some (layout_doc env 0 vs jsPDF_new) |})
   \/
   ((exists R (req : Request R) k, main w = MainBlocked req k) /\
    session (store w) = generating_session s vs /\ (m < length vs)%nat)
   \/
   (exists c e,
      library_fault env c = Some e /\
      main w = MainDone (inr tt) /\
      session (store w) = layout_error_session s vs e)) /\
  ((length vs <= m)%nat -> main w = MainDone (inr tt)).
Proof.
  cbv zeta. unfold assemble. cbn [try_catch run_main].
  set (st := apply_action (setProgressMessage "Generating PDF...")
               (apply_action (setImageFiles vs)
                  {| session := processing_session s; doc := None |})).
  assert (Hse : session st = generating_session s vs) by reflexivity.
  match goal with
  | |- context [run_main env ?p st ?tr1 ps] =>
      change p with (try_catch
        (library window_jspdf
           (library jsPDF_constructor (new_jsPDF ;; layout_from 0 vs publish))) report);
      set (tr0 := tr1)
  end.
  assert (Hout : layout_outcome env (generating_session s vs)
                   (layout_doc env 0 vs jsPDF_new) (length vs) m
                   (run env
                      (run_main env
                         (try_catch
                            (library window_jspdf
                               (library jsPDF_constructor
                                  (new_jsPDF ;; layout_from 0 vs publish))) report)
                         st tr0 ps)
                      (repeat TMain m))).
  { rewrite library_under_catch.
    destruct (library_fault env window_jspdf) as [e|] eqn:E1.
    { rewrite <- Hse. now apply (fault_outcome window_jspdf). }
    rewrite library_under_catch.
    destruct (library_fault env jsPDF_constructor) as [e|] eqn:E2.
    { rewrite <- Hse. now apply (fault_outcome jsPDF_constructor). }
    cbn [try_catch run_main].
    match goal with
    | |- context [run_main env _ ?st2 ?tr2 ps] =>
        exact (layout_under_catch vs 0 st2 tr2 ps jsPDF_new m eq_refl)
    end. }
  exact Hout.
Qed.

(** *** The document that the loop builds *)

Lemma addImage_last (im : Placed) (d : PdfDoc) (pg : Page) :
  addImage im (d ++ [pg])%list = (d ++ [(pg ++ [im])%list])%list.
Proof.
  induction d as [|x d IH]; [reflexivity|].
  change (addImage im (x :: (d ++ [pg])%list) = x :: (d ++ [(pg ++ [im])%list])%list).
  destruct (d ++ [pg])%list as [|y r] eqn:E.
  - destruct d; discriminate.
  - change (x :: addImage im (y :: r) = x :: (d ++ [(pg ++ [im])%list])%list).
    now rewrite IH.
Qed.

(** When every item has a result, every item gets a page of its own, in
    order. *)
Lemma layout_doc_later (l : list ImageFile) :
  forall i d,
    Forall (fun im => has_result im = true) l ->
    layout_doc env (S i) l d =
    (d ++ map (fun im => [placed env (interpolate (cleanedUrl im))]) l)%list.
Proof.
  induction l as [|im l IH]; intros i d Hall; simpl; [now rewrite app_nil_r|].
  inversion Hall as [|? ? Him Hl]; subst.
  unfold has_result, truthy_opt in Him.
  destruct (cleanedUrl im) as [u|]; [|discriminate]. rewrite Him.
  rewrite IH by exact Hl. unfold addPage. rewrite addImage_last. simpl.
  now rewrite <- app_assoc.
Qed.

Lemma layout_doc_all (l : list ImageFile) :
  l <> [] ->
  Forall (fun im => has_result im = true) l ->
  layout_doc env 0 l jsPDF_new =
  map (fun im => [placed env (interpolate (cleanedUrl im))]) l.
Proof.
  intros Hne Hall. destruct l as [|im l]; [congruence|].
  inversion Hall as [|? ? Him Hl]; subst. simpl.
  unfold has_result, truthy_opt in Him.
  destruct (cleanedUrl im) as [u|]; [|discriminate]. rewrite Him.
  now rewrite layout_doc_later.
Qed.

End Assembling.

(** ** What every turn of an assembly leaves *)

Section Outcomes.

Variable env : Env.

Lemma read_response_uri (r : GenerateContentResponse) (u : string) :
  read_response r = inr u -> exists m d, u = "data:" ++ m ++ ";base64," ++ d.
Proof.
  unfold read_response.
  repeat match goal with
         | |- context [match ?x with _ => _ end] => destruct x
         end;
    intros H; try discriminate; injection H as <-; do 2 eexists; reflexivity.
Qed.

(** A successful clean-up never gives an empty result. *)
Lemma cleanImage_result_truthy (who : Actor) (f : File) (u : string) :
  outcome env who (cleanImage f) = inr u -> truthy u = true.
Proof.
  rewrite cleanImage_outcome, cleanImage_try_outcome.
  destruct (reader_outcome env who f) as [result|]; [|discriminate].
  destruct (parse_data_url result) as [[?|]|[m d]]; try discriminate.
  destruct (model_outcome env who m d) as [[?|]|response]; try discriminate.
  destruct (read_response response) as [[?|]|uri] eqn:E; try discriminate.
  intros H. injection H as <-.
  apply read_response_uri in E as (m' & d' & ->). reflexivity.
Qed.

(** The values of [Promise.all] are the upload items with the results of
    their clean-ups. *)
Lemma cleaned_values (s : Session) (ps : list (Task ImageFile)) (vs : list ImageFile) :
  faithful env s ps ->
  all_fulfilled ps = Some vs ->
  length vs = length (imageFiles s) /\
  (forall i img,
     nth_error (imageFiles s) i = Some img ->
     exists uri,
       outcome env (MapCallback i) (cleanImage (file img)) = inr uri /\
       nth_error vs i = Some (with_cleanedUrl img (Some uri))) /\
  Forall (fun v => has_result v = true) vs.
Proof.
  intros [Hlen Hf] Hall.
  pose proof (all_fulfilled_length _ _ Hall) as Hl.
  assert (Hvals : forall i img,
     nth_error (imageFiles s) i = Some img ->
     exists uri,
       outcome env (MapCallback i) (cleanImage (file img)) = inr uri /\
       nth_error vs i = Some (with_cleanedUrl img (Some uri))).
  { intros i img Hi.
    destruct (nth_error vs i) as [v|] eqn:Ev.
    - pose proof (all_fulfilled_nth _ _ Hall i) as Hn. rewrite Ev in Hn. simpl in Hn.
      destruct (Hf i img _ Hi Hn) as [_ Hres]. simpl in Hres.
      rewrite clean_callback_outcome in Hres.
      destruct (outcome env (MapCallback i) (cleanImage (file img))) as [e|uri];
        [discriminate|].
      injection Hres as ->. now exists uri.
    - apply nth_error_None in Ev.
      assert (nth_error (imageFiles s) i <> None) by congruence.
      apply nth_error_Some in H. lia. }
  split; [lia|]. split; [exact Hvals|].
  apply Forall_forall. intros v Hv.
  apply In_nth_error in Hv as [i Hi].
  destruct (nth_error (imageFiles s) i) as [img|] eqn:Ei.
  - destruct (Hvals i img Ei) as (uri & Ho & Hv). rewrite Hi in Hv. injection Hv as ->.
    unfold has_result. simpl. now apply (cleanImage_result_truthy (MapCallback i) (file img)).
  - apply nth_error_None in Ei.
    assert (nth_error vs i <> None) by congruence.
    apply nth_error_Some in H. lia.
Qed.

Lemma run_click_faithful (s : Session) (sched : list Tick) :
  imageFiles s <> [] ->
  faithful env s (promises (run env (click_process env s) sched)).
Proof.
  intros Hne. apply run_faithful; [now apply click_settled_down | now apply click_faithful].
Qed.

End Outcomes.

(** X7. While some clean-up is still pending and none has failed, the
    session is the one the click left: status [PROCESSING], no error text,
    the upload items unchanged, and a progress text that already names the
    last image, "Cleaning image n of n...". No document exists yet. *)
Theorem session_while_cleaning (env : Env) (s : Session) (sched : list Tick) :
  imageFiles s <> [] ->
  let w := run env (click_process env s) sched in
  first_rejected (promises w) = None ->
  all_fulfilled (promises w) = None ->
  session (store w) =
    {| imageFiles := imageFiles s;
       processingState := PROCESSING;
       pdfFilename := pdfFilename s;
       pdfUrl := pdfUrl s;
       progressMessage :=
         "Cleaning image " ++ of_nat (length (imageFiles s) - 1 + 1) ++ " of "
           ++ of_nat (length (imageFiles s)) ++ "...";
       errorMessage := EmptyString;
       showPdfPreview := showPdfPreview s |} /\
  doc (store w) = None.
Proof.
  intros Hne w Hnone Hpend.
  pose proof (run_stage env s sched Hne) as Hstage.
  change (Stage env s w) in Hstage. clearbody w.
  destruct Hstage as [Hmain Hstore _ _ | k e _ _ Hk | vs tr m Hall _].
  - rewrite Hstore. split; reflexivity.
  - exfalso. now apply first_rejected_nth in Hk.
  - congruence.
Qed.

Lemma session_while_cleaning_sample :
  progressMessage (session (store
    (run Sample.all_well (click_process Sample.all_well Sample.two_uploads) [TChild 0]))) =
  "Cleaning image 2 of 2...".
Proof.
  destruct (session_while_cleaning Sample.all_well Sample.two_uploads [TChild 0])
    as [H _]; [discriminate | reflexivity | reflexivity |].
  now rewrite H.
Defined.

(** X8. Whenever the status is [ERROR] in a run of the assembly, the
    handler has returned and the output reference and the file name are
    those of the session in which the assembly was started. There are two
    causes. Either the clean-up of some upload item has failed: the error
    text is the message it failed with, no document has been created and the
    upload items are unchanged, so that nothing of the cleaned results is
    kept. Or every clean-up has succeeded and a call into the document
    library has thrown: the error text is the message of what it threw, and
    the upload items are the cleaned ones, which were stored before the
    document was begun. When no library call throws, the first is the only
    cause. *)
Theorem error_has_a_cause (env : Env) (s : Session) (sched : list Tick) :
  imageFiles s <> [] ->
  let w := run env (click_process env s) sched in
  processingState (session (store w)) = ERROR ->
  main w = MainDone (inr tt) /\
  pdfUrl (session (store w)) = pdfUrl s /\
  pdfFilename (session (store w)) = pdfFilename s /\
  ((exists k img e,
      nth_error (imageFiles s) k = Some img /\
      outcome env (MapCallback k) (cleanImage (file img)) = inl e /\
      errorMessage (session (store w)) = caught_message e /\
      doc (store w) = None /\
      imageFiles (session (store w)) = imageFiles s)
   \/
   (exists c e,
      library_fault env c = Some e /\
      errorMessage (session (store w)) = caught_message e /\
      length (imageFiles (session (store w))) = length (imageFiles s) /\
      forall i img,
        nth_error (imageFiles s) i = Some img ->
        exists uri,
          outcome env (MapCallback i) (cleanImage (file img)) = inr uri /\
          nth_error (imageFiles (session (store w))) i =
            Some (with_cleanedUrl img (Some uri)))) /\
  (no_fault env -> imageFiles (session (store w)) = imageFiles s).
Proof.
  intros Hne w Herr.
  pose proof (run_click_faithful env s sched Hne) as Hf.
  pose proof (run_stage env s sched Hne) as Hstage.
  change (Stage env s w) in Hstage. change (faithful env s (promises w)) in Hf.
  clearbody w.
  destruct Hstage as [_ Hstore _ _ | k e Hmain Hstore Hk | vs tr m Hall Hw].
  - rewrite Hstore in Herr. discriminate.
  - destruct (rejected_promise env s _ k e Hf Hk) as (img & Hi & Ho).
    rewrite Hstore. split; [exact Hmain|]. split; [reflexivity|]. split; [reflexivity|].
    split; [|reflexivity].
    left. exists k, img, e. repeat split; trivial.
  - destruct (cleaned_values env s _ vs Hf Hall) as (Hlen & Hvals & _).
    destruct (assemble_runs env s vs tr (promises w) m)
      as [[(_ & Hst) | [(_ & Hse & _) | (c & e & Hc & Hm & Hse)]] _];
      rewrite <- Hw in *.
    + rewrite Hst in Herr. discriminate.
    + rewrite Hse in Herr. discriminate.
    + rewrite Hse. split; [exact Hm|]. split; [reflexivity|]. split; [reflexivity|].
      split.
      * right. exists c, e. split; [exact Hc|]. split; [reflexivity|].
        split; [exact Hlen | exact Hvals].
      * intros Hnf. rewrite (Hnf c) in Hc. discriminate.
Qed.

Lemma error_has_a_cause_sample :
  main (run Sample.first_rejected_env
          (click_process Sample.first_rejected_env Sample.two_uploads)
          [TChild 1; TChild 0; TChild 0; TChild 1]) = MainDone (inr tt) /\
  imageFiles (session (store
    (run Sample.first_rejected_env
       (click_process Sample.first_rejected_env Sample.two_uploads)
       [TChild 1; TChild 0; TChild 0; TChild 1]))) = imageFiles Sample.two_uploads.
Proof.
  destruct (error_has_a_cause Sample.first_rejected_env Sample.two_uploads
              [TChild 1; TChild 0; TChild 0; TChild 1])
    as (Hm & _ & _ & _ & Hkeep); [discriminate | reflexivity |].
  split; [exact Hm|]. apply Hkeep. intros c. reflexivity.
Defined.

(** X9. Whenever the status is [COMPLETE] in a run of the assembly, every
    clean-up has succeeded; the upload items of the session are the original
    ones, in order, each with the result of its clean-up; the document has
    exactly one page per upload item, in upload order, holding the placed
    result of that item and nothing else; and the output reference is the
    URL of that document. The progress text says that the PDF is ready and
    the preview is shown. *)
Theorem complete_has_every_page (env : Env) (s : Session) (sched : list Tick) :
  imageFiles s <> [] ->
  let w := run env (click_process env s) sched in
  processingState (session (store w)) = COMPLETE ->
  exists cleaned pages,
    length cleaned = length (imageFiles s) /\
    (forall i img,
       nth_error (imageFiles s) i = Some img ->
       exists uri,
         outcome env (MapCallback i) (cleanImage (file img)) = inr uri /\
         nth_error cleaned i = Some (with_cleanedUrl img (Some uri)) /\
         nth_error pages i = Some [placed env uri]) /\
    length pages = length (imageFiles s) /\
    doc (store w) = Some pages /\
    session (store w) =
      {| imageFiles := cleaned;
         processingState := COMPLETE;
         pdfFilename := pdfFilename s;
         pdfUrl := Some (blob_url env pages);
         progressMessage := "Your PDF is ready!";
         errorMessage := EmptyString;
         showPdfPreview := true |} /\
    main w = MainDone (inr tt).
Proof.
  intros Hne w Hdone.
  pose proof (run_click_faithful env s sched Hne) as Hf.
  pose proof (run_stage env s sched Hne) as Hstage.
  change (Stage env s w) in Hstage. change (faithful env s (promises w)) in Hf.
  clearbody w.
  destruct Hstage as [_ Hstore _ _ | k e Hmain Hstore Hk | vs tr m Hall Hw].
  - rewrite Hstore in Hdone. discriminate.
  - rewrite Hstore in Hdone. discriminate.
  - destruct (cleaned_values env s _ vs Hf Hall) as (Hlen & Hvals & Hres).
    assert (Hvs : vs <> []).
    { intros ->. destruct (imageFiles s); [congruence | discriminate]. }
    destruct (assemble_runs env s vs tr (promises w) m)
      as [[(Hm & Hst) | [(_ & Hse & _) | (c & e & _ & _ & Hse)]] _];
      rewrite <- Hw in *; [| rewrite Hse in Hdone; discriminate ..].
    rewrite (layout_doc_all env vs Hvs Hres) in Hst.
      exists vs, (map (fun im => [placed env (interpolate (cleanedUrl im))]) vs).
      split; [exact Hlen|]. split.
      { intros i img Hi. destruct (Hvals i img Hi) as (uri & Ho & Hv).
        exists uri. repeat split; trivial.
        rewrite nth_error_map, Hv. reflexivity. }
      split; [now rewrite length_map|].
      rewrite Hst. repeat split; trivial.
Qed.

Lemma complete_has_every_page_sample :
  exists cleaned pages,
    length pages = 2%nat /\
    doc (store (run Sample.all_well (click_process Sample.all_well Sample.two_uploads)
                  [TChild 0; TChild 1; TChild 1; TChild 0; TMain; TMain])) = Some pages /\
    imageFiles (session (store
      (run Sample.all_well (click_process Sample.all_well Sample.two_uploads)
         [TChild 0; TChild 1; TChild 1; TChild 0; TMain; TMain]))) = cleaned.
Proof.
  destruct (complete_has_every_page Sample.all_well Sample.two_uploads
              [TChild 0; TChild 1; TChild 1; TChild 0; TMain; TMain])
    as (cleaned & pages & _ & _ & Hp & Hd & Hs & _); [discriminate | reflexivity |].
  exists cleaned, pages. split; [exact Hp|]. split; [exact Hd|]. now rewrite Hs.
Defined.

(** X10. In every turn of an assembly the status is [PROCESSING],
    [COMPLETE] or [ERROR]: it is [PROCESSING] exactly as long as the handler
    has not returned, and the handler never ends with an exception. As long
    as the status is not [COMPLETE], the output reference, the file name and
    the preview flag are those of the session in which the assembly was
    started. *)
Theorem assembly_status (env : Env) (s : Session) (sched : list Tick) :
  imageFiles s <> [] ->
  let w := run env (click_process env s) sched in
  processingState (session (store w)) <> IDLE /\
  (forall e, main w <> MainDone (inl e)) /\
  ((exists r, main w = MainDone r) <-> processingState (session (store w)) <> PROCESSING) /\
  (processingState (session (store w)) <> COMPLETE ->
   pdfUrl (session (store w)) = pdfUrl s /\
   pdfFilename (session (store w)) = pdfFilename s /\
   showPdfPreview (session (store w)) = showPdfPreview s).
Proof.
  intros Hne w.
  pose proof (run_stage env s sched Hne) as Hstage.
  change (Stage env s w) in Hstage. clearbody w.
  destruct Hstage as [Hmain Hstore _ _ | k e Hmain Hstore Hk | vs tr m Hall Hw].
  - rewrite Hstore, Hmain. simpl.
    split; [discriminate|]. split; [intros e0; discriminate|]. split.
    + split; [intros [r Hr]; discriminate Hr | intros Hx; exfalso; now apply Hx].
    + intros _. now repeat split.
  - rewrite Hstore, Hmain. simpl.
    split; [discriminate|]. split; [intros e0; discriminate|]. split.
    + split; [intros _; discriminate | intros _; eauto].
    + intros _. now repeat split.
  - destruct (assemble_runs env s vs tr (promises w) m)
      as [[(Hm & Hst) | [((R & req & kk & Hm) & Hse & _) | (c & e & _ & Hm & Hse)]] _];
      rewrite <- Hw in *.
    + rewrite Hst, Hm. simpl.
      split; [discriminate|]. split; [intros e0; discriminate|]. split.
      * split; [intros _; discriminate | intros _; eauto].
      * intros Hx. exfalso. now apply Hx.
    + rewrite Hse, Hm. simpl.
      split; [discriminate|]. split; [intros e0; discriminate|]. split.
      * split; [intros [r Hr]; discriminate Hr | intros Hx; exfalso; now apply Hx].
      * intros _. now repeat split.
    + rewrite Hse, Hm. simpl.
      split; [discriminate|]. split; [intros e0; discriminate|]. split.
      * split; [intros _; discriminate | intros _; eauto].
      * intros _. now repeat split.
Qed.

Lemma assembly_status_sample :
  processingState (session (store
    (run Sample.all_well (click_process Sample.all_well Sample.two_uploads)
       [TChild 0; TChild 1]))) <> IDLE /\
  pdfUrl (session (store
    (run Sample.all_well (click_process Sample.all_well Sample.two_uploads)
       [TChild 0; TChild 1]))) = None.
Proof.
  destruct (assembly_status Sample.all_well Sample.two_uploads [TChild 0; TChild 1])
    as (H1 & _ & _ & H2); [discriminate|].
  split; [exact H1|]. apply H2. discriminate.
Defined.

(** ** Delivering every outcome *)

Section Deliveries.

Variable env : Env.

Lemma run_job_awaits {A} (who : Actor) (p : Job A) :
  call_free p ->
  forall st st' tr t,
    run_job env who p st = (st', tr, t) ->
    task_awaits env who t = awaits env who p.
Proof.
  induction p as [a|e|act k IH|R c k IH|R req k IH|cs k IHk kerr IHe];
    simpl; intros Hp st st' tr t E; try contradiction.
  - now injection E as <- <- <-.
  - now injection E as <- <- <-.
  - destruct (run_job env who k (apply_action act st)) as [[st1 tr1] t1] eqn:E1.
    injection E as <- <- <-. now apply (IH Hp _ _ _ _ E1).
  - now injection E as <- <- <-.
Qed.

(** A callback waits for the file reader and, when the file could be
    parsed, for the response: at most two outcomes. *)
Lemma clean_callback_awaits (who : Actor) (n : nat) (img : ImageFile) (i : nat) :
  (awaits env who (clean_callback n img i) <= 2)%nat.
Proof.
  unfold clean_callback, cleanImage, cleanImage_try, fileToBase64. simpl.
  destruct (reader_outcome env who (file img)) as [result|]; simpl; [|lia].
  destruct (parse_data_url result) as [e|[m d]]; simpl.
  { destruct e; simpl; lia. }
  destruct (model_outcome env who m d) as [e|response]; simpl.
  { destruct e; simpl; lia. }
  destruct (read_response response) as [e|uri]; simpl; [|lia].
  destruct e; simpl; lia.
Qed.

Lemma spawn_bounded (n : nat) (l : list ImageFile) :
  forall i st st' tr ts,
    spawn env i (map_indexed (clean_callback n) i l) st = (st', tr, ts) ->
    forall j t, nth_error ts j = Some t ->
      task_call_free t /\ (task_awaits env (MapCallback (i + j)) t <= 2)%nat.
Proof.
  induction l as [|img l IH]; intros i st st' tr ts E j t Hj.
  - simpl in E. injection E as _ _ <-. destruct j; discriminate.
  - cbn [map_indexed spawn] in E.
    destruct (run_job env (MapCallback i) (clean_callback n img i) st)
      as [[st1 tr1] t1] eqn:E1.
    destruct (spawn env (S i) (map_indexed (clean_callback n) (S i) l) st1)
      as [[st2 tr2] ts2] eqn:E2.
    injection E as _ _ <-.
    destruct j as [|j]; simpl in Hj.
    + injection Hj as <-. rewrite Nat.add_0_r. split.
      * apply (run_job_faithful env _ _ (clean_callback_call_free n img i) _ _ _ _ E1).
      * rewrite (run_job_awaits _ _ (clean_callback_call_free n img i) _ _ _ _ E1).
        apply clean_callback_awaits.
    + rewrite Nat.add_succ_r. apply (IH (S i) _ _ _ _ E2 j t Hj).
Qed.

Lemma click_bounded (s : Session) :
  imageFiles s <> [] -> bounded env (fun _ => 2%nat) (promises (click_process env s)).
Proof.
  intros Hne.
  destruct (spawn env 0
    (map_indexed (clean_callback (length (imageFiles s))) 0 (imageFiles s))
    (apply_action (setErrorMessage EmptyString)
       (apply_action (setProcessingState PROCESSING) {| session := s; doc := None |})))
    as [[st' tr'] ts] eqn:Hsp.
  destruct (spawn_callbacks env (length (imageFiles s)) (imageFiles s) 0
    (apply_action (setErrorMessage EmptyString)
       (apply_action (setProcessingState PROCESSING) {| session := s; doc := None |})))
    as (st2 & ts2 & Hsp2 & _ & Hsus & Hlen & _).
  rewrite Hsp in Hsp2. injection Hsp2 as _ _ <-.
  assert (Hts : ts <> []).
  { intros ->. destruct (imageFiles s); [congruence | discriminate]. }
  assert (Hp : promises (click_process env s) = ts).
  { unfold click_process, handleProcessImages, await_all.
    destruct (length (imageFiles s) =? 0)%nat eqn:E.
    { apply Nat.eqb_eq in E. destruct (imageFiles s); [congruence | discriminate]. }
    cbn [run_main try_catch bind]. cbn [length].
    rewrite Hsp, (join_pending ts Hsus Hts). reflexivity. }
  rewrite Hp. intros i t Hi. apply (spawn_bounded _ _ _ _ _ _ _ Hsp i t Hi).
Qed.

(** A delivery to a suspended promise replaces it by what it runs to. *)
Lemma step_child_promises (w : World) (i : nat) R (req : Request R) (k : R -> Job ImageFile) :
  settled_down w ->
  nth_error (promises w) i = Some (Suspended req k) ->
  promises (step env w (TChild i)) =
  replace_nth i
    (snd (run_job env (MapCallback i) (k (answer env (MapCallback i) req)) (store w)))
    (promises w).
Proof.
  intros [Hps Hm] En. simpl. rewrite En.
  destruct (run_job env (MapCallback i) (k (answer env (MapCallback i) req)) (store w))
    as [[st' tr'] t] eqn:Er.
  cbn [snd].
  destruct (main w) as [r|R' req' k'|from k' kerr]; trivial.
  destruct Hm as [Hk Hkerr].
  destruct (from <=? i)%nat; trivial.
  destruct t as [[e|v]|R2 req2 k2]; trivial.
  - destruct (run_main_only env not_call _ (Hkerr e) st' (trace w ++ tr')%list
                (replace_nth i (Settled (inl e)) (promises w))) as (? & _ & _ & Hp & _).
    exact Hp.
  - destruct (all_fulfilled (skipn from (replace_nth i (Settled (inr v)) (promises w))))
      as [vs|]; trivial.
    destruct (run_main_only env not_call _ (Hk vs) st' (trace w ++ tr')%list
                (replace_nth i (Settled (inr v)) (promises w))) as (? & _ & _ & Hp & _).
    exact Hp.
Qed.

(** A delivery to a promise that is settled, or to none, changes nothing. *)
Lemma step_child_settled (w : World) (i : nat) :
  (forall R (req : Request R) k, nth_error (promises w) i <> Some (Suspended req k)) ->
  step env w (TChild i) = w.
Proof.
  intros H. simpl.
  destruct (nth_error (promises w) i) as [[r|R req k]|] eqn:En; trivial.
  exfalso. now apply (H R req k).
Qed.

(** One delivery to promise [i]: it needs one outcome less, and the other
    promises are as before. *)
Lemma step_child_bounded (w : World) (i : nat) (b : nat -> nat) :
  settled_down w -> bounded env b (promises w) ->
  bounded env (fun j => if (j =? i)%nat then pred (b j) else b j)
    (promises (step env w (TChild i))).
Proof.
  intros Hs Hb j t Hj.
  destruct (nth_error (promises w) i) as [[r|R req k]|] eqn:En.
  - rewrite step_child_settled in Hj by (intros; congruence).
    destruct (Hb j t Hj) as [Hcf Hle]. split; [exact Hcf|].
    destruct (Nat.eqb_spec j i) as [->|Hne]; [|exact Hle].
    rewrite En in Hj. injection Hj as <-. simpl. lia.
  - rewrite (step_child_promises w i R req k Hs En) in Hj.
    destruct (run_job env (MapCallback i) (k (answer env (MapCallback i) req)) (store w))
      as [[st' tr'] t'] eqn:Er.
    cbn [snd] in Hj.
    destruct (Hb i _ En) as [Hcf Hle]. simpl in Hcf, Hle.
    destruct (Nat.eqb_spec j i) as [->|Hne].
    + rewrite (nth_error_replace_nth _ _ _ _ En) in Hj. injection Hj as <-.
      split.
      * apply (run_job_faithful env _ _ (Hcf _) _ _ _ _ Er).
      * rewrite (run_job_awaits _ _ (Hcf _) _ _ _ _ Er). lia.
    + rewrite nth_error_replace_nth_other in Hj by congruence.
      apply (Hb j t Hj).
  - rewrite step_child_settled in Hj by (intros; congruence).
    destruct (Hb j t Hj) as [Hcf Hle]. split; [exact Hcf|].
    destruct (Nat.eqb_spec j i) as [->|Hne]; [|exact Hle].
    rewrite En in Hj. discriminate.
Qed.

Lemma bounded_zero_settled (b : nat -> nat) (ps : list (Task ImageFile)) (i : nat) t :
  bounded env b ps -> b i = 0%nat -> nth_error ps i = Some t -> is_settled t.
Proof.
  intros Hb Hz Hi. destruct (Hb i t Hi) as [_ Hle]. rewrite Hz in Hle.
  destruct t; [exact I | simpl in Hle; lia].
Qed.

Lemma bounded_weaken (b b' : nat -> nat) (ps : list (Task ImageFile)) :
  (forall j, (b j <= b' j)%nat) -> bounded env b ps -> bounded env b' ps.
Proof.
  intros Hle Hb j t Hj. destruct (Hb j t Hj) as [Hcf Hn].
  split; [exact Hcf|]. specialize (Hle j). lia.
Qed.

(** Along any schedule, every turn given to a promise takes one from the
    outcomes it still needs. *)
Lemma run_bounded (sched : list Tick) :
  forall w b,
    settled_down w -> bounded env b (promises w) ->
    bounded env (fun j => (b j - delivered j sched)%nat) (promises (run env w sched)).
Proof.
  induction sched as [|tk sched IH]; intros w b Hs Hb.
  - simpl. apply (bounded_weaken b); [intros j; lia | exact Hb].
  - change (run env w (tk :: sched)) with (run env (step env w tk) sched).
    destruct (step_settled_down env w tk Hs) as (? & _ & _ & Hs1).
    destruct tk as [i|].
    + pose proof (step_child_bounded w i b Hs Hb) as Hb1.
      refine (bounded_weaken _ _ _ _ (IH _ _ Hs1 Hb1)).
      intros j. cbn [delivered]. rewrite (Nat.eqb_sym i j).
      destruct (j =? i)%nat; lia.
    + assert (Hp : promises (step env w TMain) = promises w).
      { destruct (step_promises env w TMain Hs)
          as [Hp | (i & R & req & k & st' & tr' & t & Habs & _)];
          [exact Hp | discriminate]. }
      rewrite <- Hp in Hb. exact (IH _ _ Hs1 Hb).
Qed.

Lemma all_settled_cases {A} (ps : list (Task A)) :
  Forall is_settled ps ->
  first_rejected ps <> None \/ exists vs, all_fulfilled ps = Some vs.
Proof.
  induction 1 as [|t ps Ht Hps IH]; [right; now exists []|].
  destruct t as [[e|v]|R req k]; [left; discriminate | | contradiction].
  destruct IH as [IH | [vs IH]]; [left; exact IH|].
  right. exists (v :: vs). simpl. now rewrite IH.
Qed.

Lemma first_rejected_some {A} (ps : list (Task A)) :
  first_rejected ps <> None -> exists k e, nth_error ps k = Some (Settled (inl e)).
Proof.
  induction ps as [|t ps IH]; intros H; simpl in H; [congruence|].
  destruct t as [[e|v]|R req kk].
  - now exists 0%nat, e.
  - destruct (IH H) as (k & e & Hk). now exists (S k), e.
  - destruct (IH H) as (k & e & Hk). now exists (S k), e.
Qed.

End Deliveries.

Section Finishing.

Variable env : Env.

Lemma run_ticks_promises (m : nat) :
  forall w, settled_down w -> promises (run env w (repeat TMain m)) = promises w.
Proof.
  induction m as [|m IH]; intros w Hs; [reflexivity|].
  change (run env w (repeat TMain (S m)))
    with (run env (step env w TMain) (repeat TMain m)).
  destruct (step_settled_down env w TMain Hs) as (? & _ & _ & Hs1).
  rewrite (IH _ Hs1).
  destruct (step_promises env w TMain Hs)
    as [Hp | (i & R & req & k & st' & tr' & t & Habs & _)]; [exact Hp | discriminate].
Qed.

(** After two turns for every promise, all promises are settled. *)
Lemma deliveries_settle (s : Session) (sched : list Tick) :
  imageFiles s <> [] ->
  (forall i, (i < length (imageFiles s))%nat -> (2 <= delivered i sched)%nat) ->
  Forall is_settled (promises (run env (click_process env s) sched)).
Proof.
  intros Hne Hfair.
  pose proof (run_bounded env sched (click_process env s) (fun _ => 2%nat)
                (click_settled_down env s Hne) (click_bounded env s Hne)) as Hb.
  destruct (run_click_faithful env s sched Hne) as [Hlen _].
  apply Forall_forall. intros t Ht. apply In_nth_error in Ht as [j Hj].
  apply (bounded_zero_settled env _ _ j t Hb); [|exact Hj].
  assert (Hlt : (j < length (imageFiles s))%nat).
  { rewrite <- Hlen. apply nth_error_Some. congruence. }
  specialize (Hfair j Hlt). lia.
Qed.

End Finishing.

(** X11. Delivering every outcome finishes the assembly, in whatever order:
    after a schedule that gives every clean-up two turns (for the file and
    for the response), and one image load per upload item, every promise is
    settled, the handler has returned, and the status is [COMPLETE] or
    [ERROR]. It is [ERROR] if the clean-up of some item fails, and
    [COMPLETE] if the clean-up of every item succeeds and no call into the
    document library throws. *)
Theorem delivering_everything_finishes (env : Env) (s : Session) (sched : list Tick) :
  imageFiles s <> [] ->
  (forall i, (i < length (imageFiles s))%nat -> (2 <= delivered i sched)%nat) ->
  let n := length (imageFiles s) in
  let w := run env (click_process env s) (sched ++ repeat TMain n) in
  Forall is_settled (promises w) /\
  main w = MainDone (inr tt) /\
  (processingState (session (store w)) = COMPLETE \/
   processingState (session (store w)) = ERROR) /\
  ((forall i img,
      nth_error (imageFiles s) i = Some img ->
      exists uri, outcome env (MapCallback i) (cleanImage (file img)) = inr uri) ->
   no_fault env ->
   processingState (session (store w)) = COMPLETE) /\
  ((exists i img e,
      nth_error (imageFiles s) i = Some img /\
      outcome env (MapCallback i) (cleanImage (file img)) = inl e) ->
   processingState (session (store w)) = ERROR).
Proof.
  intros Hne Hfair n w. subst w. rewrite run_app.
  pose proof (deliveries_settle env s sched Hne Hfair) as Hset.
  pose proof (run_click_faithful env s sched Hne) as Hf.
  pose proof (run_stage env s sched Hne) as Hstage.
  destruct (run_settled_down env sched _ (click_settled_down env s Hne))
    as (? & _ & _ & Hs1).
  set (w1 := run env (click_process env s) sched) in *. clearbody w1.
  split; [now rewrite (run_ticks_promises env n w1 Hs1)|].
  destruct Hstage as [_ _ Hnone Hpend | k e Hmain Hstore Hk | vs tr m Hall Hw].
  - exfalso. destruct (all_settled_cases _ Hset) as [H | [vs H]]; congruence.
  - rewrite (run_done_ticks env w1 (inr tt) n Hmain).
    split; [exact Hmain|]. rewrite Hstore. simpl.
    split; [now right|]. split; [|reflexivity].
    intros Hok _. exfalso.
    destruct (rejected_promise env s _ k e Hf Hk) as (img & Hi & Ho).
    destruct (Hok k img Hi) as (uri & Hu). congruence.
  - destruct (cleaned_values env s _ vs Hf Hall) as (Hlen & Hvals & _).
    rewrite Hw, <- run_app, <- repeat_app.
    assert (Hno : (exists i img e,
                     nth_error (imageFiles s) i = Some img /\
                     outcome env (MapCallback i) (cleanImage (file img)) = inl e) ->
                  False).
    { intros (i & img & e & Hi & Ho).
      destruct (Hvals i img Hi) as (uri & Hu & _). congruence. }
    destruct (assemble_runs env s vs tr (promises w1) (m + n))
      as [[(Hm & Hst) | [(_ & _ & Hlt) | (c & e & Hc & Hm & Hse)]] Hdone];
      [| fold n in Hlen; lia |].
    + split; [exact Hm|]. rewrite Hst. simpl.
      split; [now left|]. split; [reflexivity|].
      intros Hbad. exfalso. now apply Hno.
    + split; [exact Hm|]. rewrite Hse. simpl.
      split; [now right|]. split; [|reflexivity].
      intros _ Hnf. rewrite (Hnf c) in Hc. discriminate.
Qed.

Lemma delivering_everything_sample :
  processingState (session (store
    (run Sample.all_well (click_process Sample.all_well Sample.two_uploads)
       ([TChild 1; TChild 0; TMain; TChild 0; TChild 1] ++ repeat TMain 2)))) = COMPLETE /\
  processingState (session (store
    (run Sample.first_rejected_env
       (click_process Sample.first_rejected_env Sample.two_uploads)
       ([TChild 1; TChild 0; TMain; TChild 0; TChild 1] ++ repeat TMain 2)))) = ERROR.
Proof.
  assert (Hfair : forall i, (i < 2)%nat ->
            (2 <= delivered i [TChild 1; TChild 0; TMain; TChild 0; TChild 1])%nat).
  { intros [|[|i]] Hi; simpl; lia. }
  split.
  - destruct (delivering_everything_finishes Sample.all_well Sample.two_uploads
                [TChild 1; TChild 0; TMain; TChild 0; TChild 1])
      as (_ & _ & _ & Hok & _); [discriminate | exact Hfair |].
    apply Hok; [|intros c; reflexivity].
    intros i img Hi. exists "data:image/png;base64,QUJD".
    destruct i as [|[|i]]; simpl in Hi.
    + now injection Hi as <-.
    + now injection Hi as <-.
    + destruct i; discriminate.
  - destruct (delivering_everything_finishes Sample.first_rejected_env Sample.two_uploads
                [TChild 1; TChild 0; TMain; TChild 0; TChild 1])
      as (_ & _ & _ & _ & Hbad); [discriminate | exact Hfair |].
    apply Hbad. exists 0%nat. eexists. eexists. split; reflexivity.
Defined.

(** ** Reading the data URL of a file *)

Section DataUrl.

Lemma prefix_other (a c : ascii) (sep s : string) :
  Ascii.eqb c a = false -> prefix (String a sep) (String c s) = false.
Proof.
  intros H. simpl. destruct (ascii_dec a c) as [->|Hne]; [|reflexivity].
  rewrite Ascii.eqb_refl in H. discriminate.
Qed.

Lemma prefix_app (sep s : string) : prefix sep (sep ++ s) = true.
Proof.
  induction sep as [|a sep IH]; simpl; [now destruct s|].
  destruct (ascii_dec a a); [exact IH | congruence].
Qed.

(** Stepping over the characters of a recognised separator. *)
Lemma split_go_skip (sep t : string) :
  forall cur s, split_go sep (String.length t) cur (t ++ s) = split_go sep 0 cur s.
Proof.
  induction t as [|c t IH]; intros cur s; [reflexivity|]. simpl. apply IH.
Qed.

(** A text without the first character of the separator is one piece. *)
Lemma split_go_plain (a : ascii) (sep s : string) :
  has_char a s = false ->
  forall cur, split_go (String a sep) 0 cur s = [cur ++ s].
Proof.
  induction s as [|c s IH]; intros H cur.
  - simpl. now rewrite string_app_nil_r.
  - simpl in H. destruct (Ascii.eqb c a) eqn:E; [discriminate|].
    cbn [split_go]. rewrite (prefix_other a c sep s E).
    rewrite (IH H). now rewrite string_app_assoc.
Qed.

(** The first separator after a text without its first character ends the
    piece. *)
Lemma split_go_first (a : ascii) (sep s rest : string) :
  has_char a s = false ->
  forall cur,
    split_go (String a sep) 0 cur (s ++ String a sep ++ rest) =
    (cur ++ s) :: split_go (String a sep) 0 EmptyString rest.
Proof.
  induction s as [|c s IH]; intros H cur.
  - cbn [append split_go].
    change (String a (sep ++ rest)) with (String a sep ++ rest).
    rewrite prefix_app, string_app_nil_r. f_equal.
    replace (String.length (String a sep) - 1)%nat with (String.length sep)
      by (simpl; lia).
    apply split_go_skip.
  - simpl in H. destruct (Ascii.eqb c a) eqn:E; [discriminate|].
    change ((String c s) ++ String a sep ++ rest) with (String c (s ++ String a sep ++ rest)).
    cbn [split_go]. rewrite (prefix_other a c sep _ E).
    rewrite (IH H). now rewrite string_app_assoc.
Qed.

(** A well-formed data URL is read as its mime type and payload. *)
Lemma parse_well_formed (mime payload : string) :
  mime <> EmptyString -> payload <> EmptyString ->
  has_char ":" mime = false -> has_char ";" mime = false ->
  has_char ";" payload = false ->
  parse_data_url (data_url mime payload) = inr (mime, payload).
Proof.
  intros Hm Hp Hcolon Hsemi Hpay.
  unfold parse_data_url, data_url, split.
  assert (H1 : split_go ";base64," 0 EmptyString ("data:" ++ mime ++ ";base64," ++ payload) =
               ["data:" ++ mime; payload]).
  { rewrite <- string_app_assoc.
    rewrite (split_go_first ";" "base64," ("data:" ++ mime) payload).
    - rewrite (split_go_plain ";" "base64," payload Hpay). reflexivity.
    - simpl. exact Hsemi. }
  rewrite H1. cbn [nth nth_error].
  assert (H2 : split_go ":" 0 EmptyString ("data:" ++ mime) = ["data"; mime]).
  { change ("data:" ++ mime) with ("data" ++ ":" ++ mime).
    rewrite (split_go_first ":" EmptyString "data" mime eq_refl).
    rewrite (split_go_plain ":" EmptyString mime Hcolon). reflexivity. }
  rewrite H2. cbn [nth_error].
  apply truthy_iff in Hm. apply truthy_iff in Hp. now rewrite Hm, Hp.
Qed.

End DataUrl.

(** X12. The parser of [fileToBase64] gives back the mime type and the
    payload of a data URL: for a non-empty mime type without ':' and ';' and
    a non-empty payload without ';' (base64 text has none), the data URL
    "data:<mime>;base64,<payload>" is read as the pair of the two. *)
Theorem parse_data_url_round_trip (mime payload : string) :
  mime <> EmptyString -> payload <> EmptyString ->
  has_char ":" mime = false -> has_char ";" mime = false ->
  has_char ";" payload = false ->
  parse_data_url ("data:" ++ mime ++ ";base64," ++ payload) = inr (mime, payload).
Proof. exact (parse_well_formed mime payload). Qed.

Lemma parse_data_url_round_trip_sample :
  parse_data_url "data:image/jpeg;base64,/9j/4AAQ" = inr ("image/jpeg", "/9j/4AAQ").
Proof.
  apply (parse_data_url_round_trip "image/jpeg" "/9j/4AAQ");
    first [discriminate | reflexivity].
Defined.

(** X13. A reader result that contains no ';' at all, such as the "data:"
    of an empty file, cannot be parsed: [cleanImage] then fails with the
    parse message behind its prefix, whatever the service would answer. *)
Theorem cleanImage_rejects_unparsable (env : Env) (who : Actor) (f : File) (result : string) :
  reader_outcome env who f = onload result ->
  has_char ";" result = false ->
  parse_data_url result = inl (ErrorObj "Failed to parse base64 string from file.") /\
  outcome env who (cleanImage f) =
    inl (ErrorObj "Failed to process image with AI. Failed to parse base64 string from file.").
Proof.
  intros Hr Hno.
  assert (Hp : parse_data_url result =
               inl (ErrorObj "Failed to parse base64 string from file.")).
  { unfold parse_data_url, split.
    rewrite (split_go_plain ";" "base64," result Hno). cbn [nth nth_error].
    match goal with
    | |- context [match ?x with _ => _ end] => destruct x
    end; reflexivity. }
  split; [exact Hp|].
  now rewrite cleanImage_outcome, cleanImage_try_outcome, Hr, Hp.
Qed.

Lemma cleanImage_rejects_unparsable_sample :
  outcome Sample.empty_file_env MainTask (cleanImage {| name := "empty.png" |}) =
    inl (ErrorObj "Failed to process image with AI. Failed to parse base64 string from file.").
Proof.
  apply (cleanImage_rejects_unparsable Sample.empty_file_env MainTask
           {| name := "empty.png" |} "data:"); reflexivity.
Defined.

(** X14. For a file that reads as a well-formed data URL, [cleanImage]
    settles as the answer of the service to the request carrying exactly the
    mime type and the payload of that URL dictates: the rejection of the
    request or the failure found in the response, behind the prefix, or the
    data URI read off the response. *)
Theorem cleanImage_asks_with_file_content
  (env : Env) (who : Actor) (f : File) (mime payload : string) :
  reader_outcome env who f = onload (data_url mime payload) ->
  mime <> EmptyString -> payload <> EmptyString ->
  has_char ":" mime = false -> has_char ";" mime = false ->
  has_char ";" payload = false ->
  outcome env who (cleanImage f) =
  match model_outcome env who mime payload with
  | inl (ErrorObj message) =>
      inl (ErrorObj ("Failed to process image with AI. " ++ message))
  | inl NonError =>
      inl (ErrorObj "Failed to process image with AI. An unknown error occurred.")
  | inr response =>
      match read_response response with
      | inl (ErrorObj message) =>
          inl (ErrorObj ("Failed to process image with AI. " ++ message))
      | inl NonError =>
          inl (ErrorObj "Failed to process image with AI. An unknown error occurred.")
      | inr uri => inr uri
      end
  end.
Proof.
  intros Hr Hm Hp Hc Hs Hpay.
  rewrite cleanImage_outcome, cleanImage_try_outcome, Hr.
  rewrite (parse_well_formed mime payload Hm Hp Hc Hs Hpay).
  destruct (model_outcome env who mime payload) as [[m|]|response]; reflexivity.
Qed.

Lemma cleanImage_asks_sample :
  outcome Sample.all_well MainTask (cleanImage {| name := "a.jpg" |}) =
  inr "data:image/png;base64,QUJD".
Proof.
  rewrite (cleanImage_asks_with_file_content Sample.all_well MainTask
             {| name := "a.jpg" |} "image/jpeg" "a.jpg");
    first [reflexivity | discriminate].
Defined.
(** ** What is rendered, and the sessions that can be *)

Section Rendering.

Lemma preview_modal_elements (s : Session) (el : Element) :
  In el (preview_modal s) ->
  showPdfPreview s = true /\
  exists url, pdfUrl s = Some url /\ (el = ClosePreviewButton \/ el = PdfFrame url).
Proof.
  unfold preview_modal, when_set. destruct (showPdfPreview s); [|intros []].
  destruct (pdfUrl s) as [u|]; [|intros []]. destruct (truthy u); [|intros []].
  intros [<- | [<- | []]]; split; eauto.
Qed.

Lemma result_panel_elements (s : Session) (el : Element) :
  In el (result_panel s) -> idle_element el = false.
Proof.
  unfold result_panel, when_set.
  destruct (processingState s); destruct (pdfUrl s) as [u|]; try destruct (truthy u);
    simpl; intuition (subst; reflexivity).
Qed.

(** The elements of the [IDLE] panel are rendered in the [IDLE] state only. *)
Lemma idle_element_rendered (s : Session) (el : Element) :
  In el (render s) -> idle_element el = true -> processingState s = IDLE.
Proof.
  unfold render. intros Hin Hidle. apply in_app_or in Hin as [Hin | Hin].
  - destruct (processingState s); [reflexivity | | |].
    + destruct Hin as [<- | []]. discriminate.
    + apply result_panel_elements in Hin. congruence.
    + apply result_panel_elements in Hin. congruence.
  - apply preview_modal_elements in Hin as (_ & url & _ & [-> | ->]); discriminate.
Qed.

(** The primary action is enabled only when something is uploaded. *)
Lemma process_button_enabled (s : Session) :
  In (ProcessButton false) (render s) ->
  processingState s = IDLE /\ imageFiles s <> [].
Proof.
  intros Hin. pose proof (idle_element_rendered s _ Hin eq_refl) as Hidle.
  split; [exact Hidle|]. intros Hnil.
  unfold render in Hin. rewrite Hidle in Hin. unfold idle_panel in Hin.
  rewrite Hnil in Hin. simpl in Hin.
  destruct Hin as [Hin | [Hin | Hin]]; try discriminate.
  apply in_app_or in Hin as [Hin | Hin].
  - apply in_app_or in Hin as [Hin | Hin].
    + destruct (truthy (errorMessage s)); simpl in Hin; intuition discriminate.
    + simpl in Hin. intuition discriminate.
  - apply preview_modal_elements in Hin as (_ & url & _ & [? | ?]); discriminate.
Qed.

Variable env : Env.

(** The sessions at the ends of the turns of an assembly. *)
Lemma run_click_session (s : Session) (sched : list Tick) :
  imageFiles s <> [] ->
  let s' := session (store (run env (click_process env s) sched)) in
  s' = processing_session s \/
  (exists k img e,
     nth_error (imageFiles s) k = Some img /\
     outcome env (MapCallback k) (cleanImage (file img)) = inl e /\
     s' = error_session s e) \/
  (exists vs, s' = generating_session s vs) \/
  (exists vs url, s' = complete_session s vs url) \/
  (exists vs c e,
     library_fault env c = Some e /\
     Forall (fun v => has_result v = true) vs /\
     s' = layout_error_session s vs e).
Proof.
  intros Hne.
  pose proof (run_click_faithful env s sched Hne) as Hf.
  pose proof (run_stage env s sched Hne) as Hstage.
  cbv zeta. set (w := run env (click_process env s) sched) in *. clearbody w.
  destruct Hstage as [_ Hstore _ _ | k e Hmain Hstore Hk | vs tr m Hall Hw].
  - left. now rewrite Hstore.
  - right; left. destruct (rejected_promise env s _ k e Hf Hk) as (img & Hi & Ho).
    exists k, img, e. rewrite Hstore. auto.
  - right; right.
    destruct (cleaned_values env s _ vs Hf Hall) as (_ & _ & Hres).
    destruct (assemble_runs env s vs tr (promises w) m)
      as [[(_ & Hst) | [(_ & Hse & _) | (c & e & Hc & _ & Hse)]] _]; rewrite <- Hw in *.
    + right; left. rewrite Hst. simpl. do 2 eexists. reflexivity.
    + left. rewrite Hse. eexists. reflexivity.
    + right; right. exists vs, c, e. auto.
Qed.

(** A failed clean-up leaves a message with the prefix of [cleanImage]. *)
Lemma cleanImage_failure_message (who : Actor) (f : File) (e : Thrown) :
  outcome env who (cleanImage f) = inl e ->
  exists rest, caught_message e = "Failed to process image with AI. " ++ rest.
Proof.
  rewrite cleanImage_outcome.
  destruct (outcome env who (cleanImage_try f)) as [[message|]|uri]; intros H;
    try discriminate; injection H as <-; simpl; eauto.
Qed.

End Rendering.

(** In the [IDLE] state, a change of the upload items alone keeps a session
    coherent when it brings no cleaned result. *)
Lemma coherent_uploads (s s' : Session) :
  coherent s ->
  processingState s = IDLE ->
  processingState s' = processingState s ->
  pdfUrl s' = pdfUrl s ->
  progressMessage s' = progressMessage s ->
  errorMessage s' = errorMessage s ->
  showPdfPreview s' = showPdfPreview s ->
  (Forall (fun img => cleanedUrl img = None) (imageFiles s) ->
   Forall (fun img => cleanedUrl img = None) (imageFiles s')) ->
  coherent s'.
Proof.
  unfold coherent. intros (I1 & I2 & I3 & I4 & I5 & I6) Hidle -> -> -> -> -> Hl.
  split; [exact I1|]. split; [exact I2|].
  split; [intros H; apply Hl, I3, H|].
  split; [exact I4|]. split; [congruence | exact I6].
Qed.

Lemma new_images_uncleaned (b : Browser) (fs : list File) (i : nat) :
  Forall (fun img => cleanedUrl img = None) (map_indexed (new_image b) i fs).
Proof.
  revert i. induction fs as [|f fs IH]; intros i; simpl; constructor; auto.
Qed.

(** Every session that is rendered is coherent. *)
Lemma reachable_coherent (s : Session) : reachable s -> coherent s.
Proof.
  induction 1 as [ | env b s files Hr IH Hin | env s id0 Hr IH Hin | s value Hr IH Hin
                   | env s sched Hr IH Hin | env s Hr IH Hin | env s Hr IH Hin ].
  - unfold coherent. simpl.
    repeat split; try discriminate; try congruence; auto.
  - pose proof (idle_element_rendered s _ Hin eq_refl) as Hidle.
    destruct files as [fs|].
    + apply (coherent_uploads s); try reflexivity; [exact IH | exact Hidle |].
      unfold after, handle, handleFileChange. simpl. intros Hl.
      apply Forall_app. split; [exact Hl | apply new_images_uncleaned].
    + apply (coherent_uploads s); try reflexivity; [exact IH | exact Hidle | auto].
  - pose proof (idle_element_rendered s _ Hin eq_refl) as Hidle.
    apply (coherent_uploads s); try exact IH; try exact Hidle;
      try (unfold after, handle, removeImage;
           destruct (find (has_id id0) (imageFiles s)); reflexivity).
    intros Hl.
    assert (E : imageFiles (after env s (removeImage s id0)) =
                filter (fun img => negb (has_id id0 img)) (imageFiles s)).
    { unfold after, handle, removeImage.
      destruct (find (has_id id0) (imageFiles s)); reflexivity. }
    rewrite E. apply Forall_forall. intros img Himg.
    apply filter_In in Himg as [Himg _].
    now apply (proj1 (Forall_forall _ _) Hl).
  - pose proof (idle_element_rendered s _ Hin eq_refl) as Hidle.
    apply (coherent_uploads s); try reflexivity; [exact IH | exact Hidle | auto].
  - destruct (process_button_enabled s Hin) as [Hidle Hne].
    destruct IH as (I1 & I2 & I3 & I4 & I5 & I6).
    assert (Hurl : pdfUrl s = None).
    { destruct (pdfUrl s) eqn:E; [|reflexivity].
      assert (processingState s = COMPLETE) by (apply I1; discriminate). congruence. }
    assert (Hshow : showPdfPreview s = false).
    { destruct (showPdfPreview s) eqn:E; [|reflexivity].
      assert (processingState s = COMPLETE) by (now apply I2). congruence. }
    destruct (run_click_session env s sched Hne)
      as [-> | [(k & img & e & Hk & Ho & ->) | [(vs & ->) | [(vs & url & ->)
          | (vs & c & e & Hc & Hres & ->)]]]];
      unfold coherent; simpl; rewrite ?Hurl, ?Hshow.
    + repeat split; try discriminate; try congruence; intuition discriminate.
    + split; [split; [congruence | discriminate]|].
      split; [discriminate|]. split; [discriminate|].
      split; [discriminate|]. split; [|discriminate].
      intros _. left. split; [|now apply I3].
      exact (cleanImage_failure_message env _ _ e Ho).
    + repeat split; try discriminate; try congruence; intuition discriminate.
    + repeat split; try discriminate; try congruence; intuition discriminate.
    + split; [split; [congruence | discriminate]|].
      split; [discriminate|]. split; [discriminate|].
      split; [discriminate|]. split; [|discriminate].
      intros _. right. split; [exact Hres | reflexivity].
  - unfold after, handle, startOver.
    rewrite run_main_forEach_revoke. unfold when_truthy.
    destruct (pdfUrl s) as [u|]; [destruct (truthy u)|]; unfold coherent; simpl;
      repeat split; try discriminate; try congruence; auto.
  - destruct IH as (I1 & I2 & I3 & I4 & I5 & I6).
    unfold after, handle, closePreview, coherent. simpl.
    split; [exact I1|]. split; [discriminate|]. split; [exact I3|].
    split; [exact I4|]. split; [exact I5 | exact I6].
Qed.

Lemma sample_selection_reachable : reachable sample_selection.
Proof.
  exact (reach_select Sample.all_well sample_browser initial_session
           (Some [ {| name := "a.jpg" |}; {| name := "b.jpg" |} ])
           reach_initial (or_introl eq_refl)).
Qed.

Lemma sample_run_reachable (env : Env) (sched : list Tick) :
  reachable (session (store (run env (click_process env sample_selection) sched))).
Proof.
  apply reach_process; [exact sample_selection_reachable|].
  vm_compute. tauto.
Qed.

Lemma idle_panel_elements (s : Session) (el : Element) :
  In el (idle_panel s) -> idle_element el = true \/ el = ErrorText (errorMessage s).
Proof.
  unfold idle_panel, when_set. intros [<- | Hin]; [now left|].
  apply in_app_or in Hin as [Hin | [<- | Hin]]; [| now left |].
  - apply in_flat_map in Hin as (img & _ & [<- | [<- | []]]); now left.
  - apply in_app_or in Hin as [Hin | [<- | []]]; [| now left].
    destruct (truthy (errorMessage s)); [|destruct Hin].
    destruct Hin as [<- | []]. now right.
Qed.

(** X15. In every session that can be rendered, there is an output
    reference exactly when the status is [COMPLETE]. The download link and
    the preview frame are rendered in that status only, both on the output
    reference of the session, and the link downloads under the file name
    with its [.pdf] suffix. *)
Theorem output_is_offered_when_complete (s : Session) :
  reachable s ->
  (pdfUrl s <> None <-> processingState s = COMPLETE) /\
  (forall href download,
     In (DownloadLink href download) (render s) ->
     processingState s = COMPLETE /\ pdfUrl s = Some href /\
     download = finalPdfFilename (pdfFilename s)) /\
  (forall src,
     In (PdfFrame src) (render s) ->
     processingState s = COMPLETE /\ pdfUrl s = Some src).
Proof.
  intros Hr. destruct (reachable_coherent s Hr) as (I1 & I2 & _).
  split; [exact I1|]. split.
  - intros href download Hin. unfold render in Hin.
    apply in_app_or in Hin as [Hin | Hin].
    + destruct (processingState s) eqn:Est.
      * apply idle_panel_elements in Hin as [Hin | Hin]; discriminate.
      * destruct Hin as [Hin | []]. discriminate.
      * unfold result_panel, when_set in Hin. rewrite Est in Hin.
        destruct (pdfUrl s) as [u|]; [destruct (truthy u)|]; simpl in Hin;
          try (intuition discriminate).
        destruct Hin as [Hin | [Hin | [Hin | []]]]; try discriminate.
        injection Hin as <- <-. auto.
      * unfold result_panel in Hin. rewrite Est in Hin. simpl in Hin.
        intuition discriminate.
    + apply preview_modal_elements in Hin as (_ & url & _ & [? | ?]); discriminate.
  - intros src Hin. unfold render in Hin.
    apply in_app_or in Hin as [Hin | Hin].
    + exfalso. destruct (processingState s) eqn:Est.
      * apply idle_panel_elements in Hin as [Hin | Hin]; discriminate.
      * destruct Hin as [Hin | []]. discriminate.
      * unfold result_panel, when_set in Hin. rewrite Est in Hin.
        destruct (pdfUrl s) as [u|]; [destruct (truthy u)|]; simpl in Hin;
          intuition discriminate.
      * unfold result_panel in Hin. rewrite Est in Hin. simpl in Hin.
        intuition discriminate.
    + apply preview_modal_elements in Hin as (Hshow & url & Hurl & [? | E]);
        [discriminate|]. injection E as ->. auto.
Qed.

Lemma output_is_offered_sample :
  processingState (session (store
    (run Sample.all_well (click_process Sample.all_well sample_selection)
       [TChild 0; TChild 1; TChild 1; TChild 0; TMain; TMain]))) = COMPLETE /\
  pdfUrl (session (store
    (run Sample.all_well (click_process Sample.all_well sample_selection)
       [TChild 0; TChild 1; TChild 1; TChild 0; TMain; TMain]))) = Some "blob:pdf".
Proof.
  destruct (output_is_offered_when_complete _
              (sample_run_reachable Sample.all_well
                 [TChild 0; TChild 1; TChild 1; TChild 0; TMain; TMain]))
    as (_ & _ & H).
  apply (H "blob:pdf"). vm_compute. tauto.
Defined.

(** X16. While the status is [PROCESSING], a session that can be rendered
    shows the progress text and nothing else: no file input, no remove
    button, no file name field and no button, so that the upload sequence
    and the file name cannot change during an assembly. There is no output
    reference and no preview. *)
Theorem no_control_while_processing (s : Session) :
  reachable s ->
  processingState s = PROCESSING ->
  render s = [ProgressText (progressMessage s)] /\
  pdfUrl s = None /\
  showPdfPreview s = false.
Proof.
  intros Hr Hst. destruct (reachable_coherent s Hr) as (I1 & I2 & _).
  assert (Hshow : showPdfPreview s = false).
  { destruct (showPdfPreview s); [|reflexivity].
    assert (processingState s = COMPLETE) by now apply I2. congruence. }
  assert (Hurl : pdfUrl s = None).
  { destruct (pdfUrl s) eqn:E; [|reflexivity].
    assert (processingState s = COMPLETE) by (apply I1; discriminate). congruence. }
  split; [|split; assumption].
  unfold render, preview_modal. now rewrite Hst, Hshow.
Qed.

Lemma no_control_while_processing_sample :
  render (session (store
    (run Sample.all_well (click_process Sample.all_well sample_selection) [TChild 0]))) =
  [ProgressText "Cleaning image 2 of 2..."].
Proof.
  destruct (no_control_while_processing _
              (sample_run_reachable Sample.all_well [TChild 0]) eq_refl) as (H & _).
  rewrite H. reflexivity.
Defined.

(** X17. In every session that can be rendered with status [IDLE], the
    error text is empty, so that the panel shows no error line: the message
    for an empty upload cannot be brought up through the page, since the
    button that would set it is disabled as long as nothing is uploaded.
    Such a session has no progress text, no output reference, no preview,
    and no upload item with a cleaned result. *)
Theorem idle_shows_no_error (s : Session) :
  reachable s ->
  processingState s = IDLE ->
  errorMessage s = EmptyString /\
  progressMessage s = EmptyString /\
  pdfUrl s = None /\
  showPdfPreview s = false /\
  Forall (fun img => cleanedUrl img = None) (imageFiles s) /\
  render s =
    (FileInput
       :: flat_map (fun img => [ImagePreview (originalUrl img); RemoveButton (id img)])
            (imageFiles s)
       ++ [FilenameInput (pdfFilename s);
           ProcessButton (length (imageFiles s) =? 0)%nat])%list.
Proof.
  intros Hr Hst. destruct (reachable_coherent s Hr) as (I1 & I2 & I3 & I4 & _).
  destruct (I4 Hst) as [Herr Hprog].
  assert (Hshow : showPdfPreview s = false).
  { destruct (showPdfPreview s); [|reflexivity].
    assert (processingState s = COMPLETE) by now apply I2. congruence. }
  assert (Hurl : pdfUrl s = None).
  { destruct (pdfUrl s) eqn:E; [|reflexivity].
    assert (processingState s = COMPLETE) by (apply I1; discriminate). congruence. }
  split; [exact Herr|]. split; [exact Hprog|]. split; [exact Hurl|].
  split; [exact Hshow|]. split; [now apply I3|].
  unfold render, preview_modal, idle_panel. rewrite Hst, Hshow, Herr. simpl.
  now rewrite app_nil_r.
Qed.

Lemma idle_shows_no_error_sample :
  render sample_selection =
  [FileInput; ImagePreview "blob:a.jpg"; RemoveButton "a.jpg-5";
   ImagePreview "blob:b.jpg"; RemoveButton "b.jpg-5";
   FilenameInput "scanned-documents"; ProcessButton false].
Proof.
  destruct (idle_shows_no_error sample_selection sample_selection_reachable eq_refl)
    as (_ & _ & _ & _ & _ & H).
  rewrite H. reflexivity.
Defined.

(** X18. In every session that can be rendered with status [ERROR], the
    page shows the error text and the start-over button and nothing else,
    and there is no output reference and no preview. The session is of one
    of two kinds. Either a clean-up has failed: the error text starts with
    "Failed to process image with AI. " and no upload item has a cleaned
    result. Or a call into the document library has thrown during the
    layout: every upload item has its cleaned result, and the progress text
    is still "Generating PDF...". *)
Theorem error_offers_only_start_over (s : Session) :
  reachable s ->
  processingState s = ERROR ->
  render s = [ErrorText (errorMessage s); StartOverButton] /\
  pdfUrl s = None /\
  showPdfPreview s = false /\
  (((exists rest, errorMessage s = "Failed to process image with AI. " ++ rest) /\
    Forall (fun img => cleanedUrl img = None) (imageFiles s))
   \/
   (Forall (fun img => has_result img = true) (imageFiles s) /\
    progressMessage s = "Generating PDF...")).
Proof.
  intros Hr Hst. destruct (reachable_coherent s Hr) as (I1 & I2 & _ & _ & I5 & _).
  assert (Hshow : showPdfPreview s = false).
  { destruct (showPdfPreview s); [|reflexivity].
    assert (processingState s = COMPLETE) by now apply I2. congruence. }
  assert (Hurl : pdfUrl s = None).
  { destruct (pdfUrl s) eqn:E; [|reflexivity].
    assert (processingState s = COMPLETE) by (apply I1; discriminate). congruence. }
  split; [|split; [exact Hurl | split; [exact Hshow | now apply I5]]].
  unfold render, preview_modal, result_panel. now rewrite Hst, Hshow.
Qed.

Lemma error_offers_only_start_over_sample :
  render (session (store
    (run Sample.first_rejected_env
       (click_process Sample.first_rejected_env sample_selection)
       [TChild 1; TChild 0; TChild 0; TChild 1]))) =
  [ErrorText "Failed to process image with AI. 503 Service Unavailable"; StartOverButton] /\
  render (session (store
    (run Sample.broken_library
       (click_process Sample.broken_library sample_selection)
       [TChild 1; TChild 0; TChild 0; TChild 1; TMain; TMain]))) =
  [ErrorText "Invalid image data"; StartOverButton].
Proof.
  destruct (error_offers_only_start_over _
              (sample_run_reachable Sample.first_rejected_env
                 [TChild 1; TChild 0; TChild 0; TChild 1]) eq_refl) as (H & _).
  destruct (error_offers_only_start_over _
              (sample_run_reachable Sample.broken_library
                 [TChild 1; TChild 0; TChild 0; TChild 1; TMain; TMain]) eq_refl) as (H' & _).
  rewrite H, H'. split; reflexivity.
Defined.
